(** * Exif-Viewer-Pro: metadata consolidation and binary forensics

    A shallow embedding of the analytic core of the repository:
    - [src/workers/exif-worker.ts]: [generateHexDump], [detectEmbeddedFiles],
      [calculateEntropy], [generateBatchSummary];
    - [src/components/hex-analyzer.tsx]: [suspiciousPatterns],
      [entropyAnalysis];
    - [src/components/multi-exif-reader.tsx]: [analyzeWithMultipleLibraries],
      [consolidateExifData], [calculateFieldConfidence];
    - the ELA component: [performELA].

    Conventions.  A [Uint8Array] is a [list byte].  JavaScript text made of
    hex digits is a [list ascii]; names and field keys are [string]s.  A
    JavaScript object used as a dictionary is a [gmap string _] (own
    properties only); the objects that consolidation reads carry, beside
    their own properties, what their prototype chain answers.  JavaScript
    numbers that the code divides are exact rationals ([Q]), but for the
    confidence of a consolidated field, which is computed in binary64; the
    entropy, which needs [Math.log2], is a real number ([R]).  A loop that
    the source drives by an index carries a fuel argument; Part II shows
    that the fuel given is never exhausted. *)

From Stdlib Require Import ZArith NArith QArith Qround Qminmax Reals Lra Lia.
From Stdlib.Strings Require Import Ascii String Byte.
From Stdlib Require Import List.
From stdpp Require Import gmap strings list pretty.
From Stdlib.Floats Require SpecFloat.

Local Open Scope nat_scope.

(* ===================================================================== *)
(** * Part I: the program                                                 *)
(* ===================================================================== *)

(** ** JavaScript string primitives over [list ascii] *)

Definition hex_digit (n : N) : ascii :=
  match n with
  | 0%N => "0" | 1%N => "1" | 2%N => "2" | 3%N => "3"
  | 4%N => "4" | 5%N => "5" | 6%N => "6" | 7%N => "7"
  | 8%N => "8" | 9%N => "9" | 10%N => "a" | 11%N => "b"
  | 12%N => "c" | 13%N => "d" | 14%N => "e" | _ => "f"
  end%char.

(** [n.toString(16)]: the digits of [n] in base 16, most significant
    first, lowercase, no leading zero. *)
Fixpoint to_digits (fuel : nat) (n : N) : list ascii :=
  match fuel with
  | O => []
  | S f =>
      if (n <? 16)%N then [hex_digit n]
      else to_digits f (n / 16)%N ++ [hex_digit (n mod 16)%N]
  end.

Definition toString16 (n : N) : list ascii :=
  to_digits (S (N.to_nat (N.log2 n))) n.

Definition padStart (len : nat) (c : ascii) (s : list ascii) : list ascii :=
  repeat c (len - length s) ++ s.

Definition padEnd (len : nat) (c : ascii) (s : list ascii) : list ascii :=
  s ++ repeat c (len - length s).

Definition upper_char (c : ascii) : ascii :=
  let n := N_of_ascii c in
  if ((97 <=? n) && (n <=? 122))%N then ascii_of_N (n - 32) else c.

Definition toUpperCase (s : list ascii) : list ascii := map upper_char s.

(** [parts.join(sep)] *)
Fixpoint join (sep : list ascii) (parts : list (list ascii)) : list ascii :=
  match parts with
  | [] => []
  | [p] => p
  | p :: rest => p ++ sep ++ join sep rest
  end.

(** The class [\s] restricted to the 8-bit characters. *)
Definition is_space (c : ascii) : bool :=
  let n := N_of_ascii c in
  ((n =? 32) || ((9 <=? n) && (n <=? 13)) || (n =? 160))%N.

(** [s.replace(/\s/g, '')] *)
Definition strip_spaces (s : list ascii) : list ascii :=
  filter (fun c => is_space c = false) s.

Fixpoint starts_with (needle hay : list ascii) : bool :=
  match needle, hay with
  | [], _ => true
  | _ :: _, [] => false
  | a :: needle', b :: hay' =>
      if Ascii.eqb a b then starts_with needle' hay' else false
  end.

(** [hay.indexOf(needle, from)]; [None] stands for [-1]. *)
Fixpoint indexOf_aux (needle hay : list ascii) (i : nat) : option nat :=
  match hay with
  | [] => if starts_with needle [] then Some i else None
  | _ :: hay' =>
      if starts_with needle hay then Some i
      else indexOf_aux needle hay' (S i)
  end.

Definition indexOf (hay needle : list ascii) (from : nat) : option nat :=
  indexOf_aux needle (drop from hay) (from `min` length hay).

(** Value of one hex digit, either case, as [parseInt(_, 16)] reads it. *)
Definition hex_value (c : ascii) : option Z :=
  let n := Z.of_N (N_of_ascii c) in
  if ((48 <=? n) && (n <=? 57))%Z then Some (n - 48)%Z
  else if ((97 <=? n) && (n <=? 102))%Z then Some (n - 87)%Z
  else if ((65 <=? n) && (n <=? 70))%Z then Some (n - 55)%Z
  else None.

(** Longest prefix of hex digits, accumulated left to right; the boolean
    records whether a digit was read. *)
Fixpoint parse_hex_digits (s : list ascii) (acc : Z) (seen : bool)
  : option Z :=
  match s with
  | [] => if seen then Some acc else None
  | c :: s' =>
      match hex_value c with
      | Some d => parse_hex_digits s' (16 * acc + d)%Z true
      | None => if seen then Some acc else None
      end
  end.

Fixpoint skip_spaces (s : list ascii) : list ascii :=
  match s with
  | c :: s' => if is_space c then skip_spaces s' else s
  | [] => []
  end.

Definition strip_0x (s : list ascii) : list ascii :=
  match s with
  | "0"%char :: "x"%char :: s' => s'
  | "0"%char :: "X"%char :: s' => s'
  | _ => s
  end.

(** [parseInt(s, 16)]; [None] stands for [NaN]. *)
Definition parseInt16 (s : list ascii) : option Z :=
  match skip_spaces s with
  | "-"%char :: s' => Z.opp <$> parse_hex_digits (strip_0x s') 0 false
  | "+"%char :: s' => parse_hex_digits (strip_0x s') 0 false
  | s' => parse_hex_digits (strip_0x s') 0 false
  end.

(** [b.toString(16).padStart(2, '0')] for an element of a [Uint8Array]. *)
Definition hex2 (b : byte) : list ascii :=
  padStart 2 "0" (toString16 (Byte.to_N b)).

(** [data.slice(i, j)] for [i <= j]. *)
Definition slice {A} (i j : nat) (l : list A) : list A :=
  take (j - i) (drop i l).

(** ** Hex renderer: [generateHexDump] (exif-worker.ts) *)

Record HexLine := mkHexLine {
  line_offset : list ascii;
  line_hex : list ascii;
  line_ascii : list ascii
}.

Definition ascii_cell (b : byte) : ascii :=
  let n := Byte.to_N b in
  if ((32 <=? n) && (n <=? 126))%N then ascii_of_N n else "."%char.

Definition hexLine (data : list byte) (i : nat) : HexLine :=
  let chunk := slice i (i + 16) data in
  {| line_offset := toUpperCase (padStart 8 "0" (toString16 (N.of_nat i)));
     line_hex := padEnd 47 " " (join [" "%char] (map hex2 chunk));
     line_ascii := map ascii_cell chunk |}.

(** [for (let i = 0; i < data.length; i += 16) lines.push(...)] *)
Fixpoint hexDump_loop (fuel : nat) (data : list byte) (i : nat)
  : list HexLine :=
  match fuel with
  | O => []
  | S f =>
      if i <? length data
      then hexLine data i :: hexDump_loop f data (i + 16)
      else []
  end.

Definition generateHexDump (data : list byte) : list HexLine :=
  hexDump_loop (length data) data 0.

(** ** The rows handed to the hex analyzer: [generateHexData] (page
       component) *)

(** The [hexData] property of [HexAnalyzerProps]. *)
Record HexData := mkHexData {
  hd_lines : list HexLine;
  hd_totalBytes : nat;
  hd_displayedBytes : nat
}.

(** Same row as [hexLine], the octets uppercased:
    [b.toString(16).padStart(2, '0').toUpperCase()]. *)
Definition hexLineUpper (data : list byte) (i : nat) : HexLine :=
  let chunk := slice i (i + 16) data in
  {| line_offset := toUpperCase (padStart 8 "0" (toString16 (N.of_nat i)));
     line_hex :=
       padEnd 47 " "
         (join [" "%char] (map (fun b => toUpperCase (hex2 b)) chunk));
     line_ascii := map ascii_cell chunk |}.

(** [for (let i = 0; i < Math.min(uint8Array.length, 4096); i += 16)] *)
Fixpoint hexData_loop (fuel : nat) (data : list byte) (i : nat)
  : list HexLine :=
  match fuel with
  | O => []
  | S f =>
      if i <? length data `min` N.to_nat 4096
      then hexLineUpper data i :: hexData_loop f data (i + 16)
      else []
  end.

Definition generateHexData (data : list byte) : HexData :=
  {| hd_lines := hexData_loop (length data) data 0;
     hd_totalBytes := length data;
     hd_displayedBytes := length data `min` N.to_nat 4096 |}.

(** ** Reading the hex text back (hex-analyzer.tsx, [entropyAnalysis]) *)

(** [hexData.lines.map(line => line.hex.replace(/\s/g, '')).join('')] *)
Definition fullHex (lines : list HexLine) : list ascii :=
  concat (map (fun line => strip_spaces (line_hex line)) lines).

(** [for (i = 0; i < fullHex.length; i += 2)
       bytes.push(parseInt(fullHex.substr(i, 2), 16))] *)
Fixpoint hex_pairs (s : list ascii) : list (option Z) :=
  match s with
  | [] => []
  | [c] => [parseInt16 [c]]
  | c1 :: c2 :: s' => parseInt16 [c1; c2] :: hex_pairs s'
  end.

Definition hexToBytes (lines : list HexLine) : list (option Z) :=
  hex_pairs (fullHex lines).

(** A string literal of the source as JavaScript text. *)
Definition js (s : string) : list ascii := list_ascii_of_string s.

(** ** Embedded-object scan: [detectEmbeddedFiles] (exif-worker.ts) *)

Record EmbeddedObjectHit := mkHit {
  hit_type : string;
  hit_offset : Q
}.

Definition signatures : list (list ascii * string) :=
  [ (js "ffd8ffe0", "JPEG"%string);
    (js "89504e47", "PNG"%string);
    (js "504b0304", "ZIP"%string);
    (js "25504446", "PDF"%string) ].

(** [Array.from(data.slice(0, Math.min(data.length, 10000)))
      .map(b => b.toString(16).padStart(2, '0')).join('')] *)
Definition hexString (data : list byte) : list ascii :=
  concat (map hex2 (slice 0 (length data `min` N.to_nat 10000) data)).

(** [while (index !== -1 && index > 0) {
       embedded.push({type, offset: index / 2});
       index = hexString.indexOf(sig, index + 1) }] *)
Fixpoint scan_loop (fuel : nat) (hs sig : list ascii) (type : string)
    (index : option nat) : list EmbeddedObjectHit :=
  match fuel with
  | O => []
  | S f =>
      match index with
      | Some i =>
          if 0 <? i
          then mkHit type (inject_Z (Z.of_nat i) / 2)%Q
                 :: scan_loop f hs sig type (indexOf hs sig (i + 1))
          else []
      | None => []
      end
  end.

Definition scan_signature (hs : list ascii) (sigData : list ascii * string)
  : list EmbeddedObjectHit :=
  scan_loop (S (length hs)) hs sigData.1 sigData.2 (indexOf hs sigData.1 0).

Definition detectEmbeddedFiles (data : list byte) : list EmbeddedObjectHit :=
  let hs := hexString data in
  concat (map (scan_signature hs) signatures).

(** ** Pattern scanner: [suspiciousPatterns] (hex-analyzer.tsx) *)

Inductive Severity := low | medium | high | critical.

(** The two shapes of regular expression in the catalogue:
    [RxRun c d n] is [/cd{n,}/] (one [c], then [n] or more [d], greedy);
    [RxAlt alts] is an alternation of literals, tried left to right. *)
Inductive Regex :=
  | RxRun (c d : ascii) (n : nat)
  | RxAlt (alts : list (list ascii)).

Fixpoint run_length (d : ascii) (s : list ascii) : nat :=
  match s with
  | c :: s' => if Ascii.eqb c d then S (run_length d s') else 0
  | [] => 0
  end.

Fixpoint first_alt (alts : list (list ascii)) (s : list ascii) : option nat :=
  match alts with
  | [] => None
  | a :: alts' => if starts_with a s then Some (length a) else first_alt alts' s
  end.

(** Length of the match of the expression anchored at the head of [s]. *)
Definition match_here (rx : Regex) (s : list ascii) : option nat :=
  match rx with
  | RxRun c d n =>
      match s with
      | c0 :: s' =>
          if Ascii.eqb c0 c && (n <=? run_length d s')
          then Some (S (run_length d s')) else None
      | [] => None
      end
  | RxAlt alts => first_alt alts s
  end.

(** [Array.from(text.matchAll(rx)).map(m => m.index)]: leftmost matches,
    the search resuming after the end of the previous match.  [skip] counts
    the characters still covered by the last match. *)
Fixpoint matchAll_from (rx : Regex) (s : list ascii) (i skip : nat)
  : list nat :=
  match s with
  | [] => []
  | _ :: s' =>
      match skip with
      | S k => matchAll_from rx s' (S i) k
      | O =>
          match match_here rx s with
          | Some len => i :: matchAll_from rx s' (S i) (len - 1)
          | None => matchAll_from rx s' (S i) 0
          end
      end
  end.

Definition matchAll (rx : Regex) (s : list ascii) : list nat :=
  matchAll_from rx s 0 0.

Record SuspiciousCheck := mkCheck {
  chk_regex : Regex;
  chk_source : string;
  chk_description : string;
  chk_severity : Severity
}.

Record SuspiciousPattern := mkPattern {
  pattern : string;
  description : string;
  severity : Severity;
  locations : list nat
}.

Definition suspiciousChecks : list SuspiciousCheck :=
  [ mkCheck (RxRun "0" "0" 20) "00{20,}"
      "Long sequence of null bytes (possible padding or hidden data)" medium;
    mkCheck (RxRun "f" "f" 10) "ff{10,}"
      "Long sequence of 0xFF bytes (possible corruption or manipulation)"
      medium;
    mkCheck (RxAlt [js "504b0304"; js "504b0506"]) "(504b0304|504b0506)"
      "ZIP file signature found (possible embedded archive)" high;
    mkCheck (RxAlt [js "25504446"]) "25504446"
      "PDF signature found (possible embedded document)" high;
    mkCheck (RxAlt [js "4d5a"; js "5a4d"]) "(4d5a|5a4d)"
      "Executable file signature (possible malware)" critical;
    mkCheck (RxAlt [js "d0cf11e0"]) "d0cf11e0"
      "Microsoft Office document signature" medium ].

Definition run_check (text : list ascii) (check : SuspiciousCheck)
  : list SuspiciousPattern :=
  let matches := matchAll (chk_regex check) text in
  if 0 <? length matches
  then [ mkPattern (chk_source check) (chk_description check)
           (chk_severity check) matches ]
  else [].

Definition suspiciousPatterns (lines : list HexLine) : list SuspiciousPattern :=
  let text := fullHex lines in
  concat (map (run_check text) suspiciousChecks).

(** ** Entropy analyzer: [calculateEntropy] (exif-worker.ts) *)

(** [Math.log2] on the reals. *)
Definition log2 (x : R) : R := (ln x / ln 2)%R.

(** [frequency[byte]++], starting from [new Array(256).fill(0)]. *)
Definition frequency (data : list byte) : list nat :=
  fold_left (fun freq b => alter S (Byte.to_nat b) freq) data (replicate 256 0).

(** [if (freq > 0) { const p = freq / length; entropy -= p * Math.log2(p) }] *)
Definition entropy_step (len : nat) (entropy : R) (freq : nat) : R :=
  if 0 <? freq
  then let p := (INR freq / INR len)%R in (entropy - p * log2 p)%R
  else entropy.

Definition calculateEntropy (data : list byte) : R :=
  fold_left (entropy_step (length data)) (frequency data) 0%R.

(** ** Entropy analysis of the rendered lines: [entropyAnalysis]
       (hex-analyzer.tsx) *)

(** A parsed pair that is a valid index of the 256-entry table. *)
Definition byte_index (b : option Z) : option nat :=
  match b with
  | Some z => if ((0 <=? z) && (z <? 256))%Z then Some (Z.to_nat z) else None
  | None => None
  end.

(** [bytes.forEach(byte => frequency[byte]++)]: an entry that is [NaN] or
    negative sets a property that is not an element of the array and is
    not visited afterwards. *)
Definition frequencyOf (bytes : list (option Z)) : list nat :=
  fold_left
    (fun freq b =>
       match byte_index b with
       | Some i => alter S i freq
       | None => freq
       end)
    bytes (replicate 256 0).

(** [chunk.forEach(byte => { const p = chunkFreq[byte] / chunk.length;
                             if (p > 0) chunkEntropy -= p * Math.log2(p) })] *)
Definition chunk_step (chunkFreq : list nat) (len : nat) (chunkEntropy : R)
    (b : option Z) : R :=
  match byte_index b with
  | Some i =>
      let f := default 0 (chunkFreq !! i) in
      if 0 <? f
      then let p := (INR f / INR len)%R in (chunkEntropy - p * log2 p)%R
      else chunkEntropy
  | None => chunkEntropy
  end.

Definition chunkEntropyOf (chunk : list (option Z)) : R :=
  fold_left (chunk_step (frequencyOf chunk) (length chunk)) chunk 0%R.

Record SuspiciousArea := mkArea {
  area_offset : nat;
  area_entropy : R
}.

(** [for (let i = 0; i < bytes.length; i += chunkSize)] with
    [chunkSize = 256]; an area is pushed when [chunkEntropy > 7.8]. *)
Fixpoint chunk_loop (fuel : nat) (bytes : list (option Z)) (i : nat)
  : list SuspiciousArea :=
  match fuel with
  | O => []
  | S f =>
      if i <? length bytes
      then
        let chunkEntropy := chunkEntropyOf (slice i (i + 256) bytes) in
        (if Rgt_dec chunkEntropy (78 / 10)
         then [mkArea i chunkEntropy] else [])
        ++ chunk_loop f bytes (i + 256)
      else []
  end.

(** [frequency.indexOf(x)], with [None] for [-1]. *)
Fixpoint index_of_nat (x : nat) (l : list nat) (i : nat) : option nat :=
  match l with
  | [] => None
  | y :: l' => if x =? y then Some i else index_of_nat x l' (S i)
  end.

(** The record built by [entropyAnalysis]; [ea_entropy] is the number that
    the source then prints with [toFixed(4)]. *)
Record EntropyAnalysis := mkEntropyAnalysis {
  ea_entropy : R;
  ea_assessment : string;
  ea_mostCommonByte : option nat;
  ea_mostCommonFreq : nat;
  ea_uniqueBytes : nat;
  ea_suspiciousAreas : list SuspiciousArea
}.

Definition entropyAnalysis (lines : list HexLine) : EntropyAnalysis :=
  let bytes := hexToBytes lines in
  let freq := frequencyOf bytes in
  let entropy := fold_left (entropy_step (length bytes)) freq 0%R in
  let top := fold_left Nat.max freq 0 in
  {| ea_entropy := entropy;
     ea_assessment :=
       if Rgt_dec entropy (75 / 10) then "High (encrypted/compressed)"
       else if Rgt_dec entropy (65 / 10) then "Medium (mixed content)"
       else if Rgt_dec entropy 4 then "Low (structured data)"
       else "Very Low (repetitive)";
     ea_mostCommonByte := index_of_nat top freq 0;
     ea_mostCommonFreq := top;
     ea_uniqueBytes := length (filter (fun f => 0 < f) freq);
     ea_suspiciousAreas := chunk_loop (length bytes) bytes 0 |}.

(** ** Consolidation engine (multi-exif-reader.tsx) *)

(** [Math.round]: the nearest integer, a half rounding up. *)
Definition js_round (x : Q) : Z := Qfloor (x + (1 # 2))%Q.

Inductive Status := loading | success | error.

Global Instance Status_eq_dec : EqDecision Status.
Proof. solve_decision. Defined.

(** What a [catch] clause receives. *)
Inductive Thrown :=
  | ErrorObject (message : string)
  | OtherValue.

(** The result of awaiting one extraction strategy. *)
Inductive Outcome (A : Type) :=
  | Returned (a : A)
  | Threw (t : Thrown).
Arguments Returned {A} a.
Arguments Threw {A} t.

(** [error instanceof Error ? error.message : fallback] *)
Definition error_message (fallback : string) (t : Thrown) : string :=
  match t with
  | ErrorObject message => message
  | OtherValue => fallback
  end.

(** *** Binary64 numbers *)

(** The confidence of a field is computed with two roundings, a division
    and a multiplication.  Both are taken in binary64, with the operations
    of the Standard Library's [SpecFloat] (round to nearest, ties to
    even). *)
Definition binary64 : Type := SpecFloat.spec_float.

(** The number that a whole number denotes (exact below [2^53]). *)
Definition b64_of_Z (z : Z) : binary64 :=
  SpecFloat.binary_normalize 53 1024 z 0 false.

Definition b64_div (x y : binary64) : binary64 := SpecFloat.SFdiv 53 1024 x y.

Definition b64_mul (x y : binary64) : binary64 := SpecFloat.SFmul 53 1024 x y.

(** The rational that a finite binary64 denotes. *)
Definition b64_to_Q (x : binary64) : option Q :=
  match x with
  | SpecFloat.S754_zero _ => Some 0%Q
  | SpecFloat.S754_finite s m e =>
      let v := if s then Z.neg m else Z.pos m in
      Some match e with
           | Z0 => inject_Z v
           | Zpos p => inject_Z (v * 2 ^ Z.pos p)
           | Zneg p => (v # 2 ^ p)%Q
           end
  | SpecFloat.S754_infinity _ | SpecFloat.S754_nan => None
  end.

(** [Math.round] of a binary64.  An infinity or [NaN] is returned as it
    is by [Math.round]; no caller passes one, and 0 stands for it here. *)
Definition Math_round (x : binary64) : Z :=
  match b64_to_Q x with
  | Some q => js_round q
  | None => 0%Z
  end.

Section Consolidation.
(** The values held by metadata fields, [undefined] apart, and
    [JSON.stringify] on them: [None] is the [undefined] that it returns
    for a function; values on which it throws are left out.
    [Object_prototype] is what [Object.prototype] answers under a name: a
    member ([toString], [constructor], ...) or [undefined]. *)
Context {V : Type} (stringify : V -> option string)
  (Object_prototype : string -> option V).

(** A JavaScript object as the engine reads it: its own enumerable
    properties, which [Object.keys] lists, and what its prototype chain
    answers for a name that is not among them.  An own property holds a
    value other than [undefined], and none is named [__proto__]. *)
Record JsObject := mkObject {
  own : gmap string V;
  inherited : string -> option V
}.

(** [object[name]]; [None] is [undefined]. *)
Definition prop (object : JsObject) (name : string) : option V :=
  match own object !! name with
  | Some v => Some v
  | None => inherited object name
  end.

(** The object literal with the given properties. *)
Definition literal (properties : gmap string V) : JsObject :=
  {| own := properties; inherited := Object_prototype |}.

Record ExifSource := mkExifSource {
  src_name : string;
  src_library : string;
  src_data : JsObject;
  src_status : Status;
  src_error : option string;
  src_coverage : Q;
  src_unique_fields : nat
}.

(** An element [{ source, value }] of [fieldData]. *)
Record FieldDatum := mkDatum {
  fd_source : string;
  fd_value : V
}.

(** An entry of [ConsolidatedData]; [cf_conflicts] is [None] when the
    property [conflicts] is not set. *)
Record ConsolidatedField := mkField {
  cf_value : V;
  cf_sources : list string;
  cf_confidence : Z;
  cf_conflicts : option (list FieldDatum)
}.

(** [Math.min((foundFields / totalPossibleFields) * 100, 100)] *)
Definition calculateCoverage (data : JsObject) : Q :=
  Qmin ((inject_Z (Z.of_nat (size (own data))) / 200) * 100) 100.

(** [calculateFieldConfidence]; it is called on a list that is not
    empty. *)
Definition calculateFieldConfidence (fieldData : list FieldDatum) : Z :=
  let uniqueValues : gset (option string) :=
    list_to_set (map (fun item => stringify (fd_value item)) fieldData) in
  let agreement :=
    b64_div
      (b64_of_Z
         (Z.of_nat (length fieldData) - Z.of_nat (size uniqueValues) + 1))
      (b64_of_Z (Z.of_nat (length fieldData))) in
  Math_round (b64_mul agreement (b64_of_Z 100)).

(** First loop: the names of the fields of the successful sources. *)
Definition allFields (sources : list (string * ExifSource)) : gset string :=
  fold_left
    (fun acc entry =>
       if decide (src_status entry.2 = success)
       then acc ∪ dom (own (src_data entry.2)) else acc)
    sources ∅.

(** [Object.entries(sources).forEach(...)]: the pairs collected for
    [field], in the order of the keys of [sources].  The test
    [source.data[field] !== undefined] reads the property through the
    prototype chain. *)
Definition fieldDataOf (sources : list (string * ExifSource))
    (field : string) : list FieldDatum :=
  omap
    (fun entry =>
       if decide (src_status entry.2 = success)
       then mkDatum entry.1 <$> prop (src_data entry.2) field
       else None)
    sources.

(** [fieldData.slice(1).filter(item =>
      JSON.stringify(item.value) !== JSON.stringify(primaryValue))] *)
Definition conflictsOf (primaryValue : V) (rest : list FieldDatum)
  : list FieldDatum :=
  filter (fun item => stringify (fd_value item) ≠ stringify primaryValue)
    rest.

(** What is stored under a field: nothing unless
    [fieldData.length > 0]. *)
Definition consolidated_entry (fieldData : list FieldDatum)
  : option ConsolidatedField :=
  match fieldData with
  | [] => None
  | first :: rest =>
      let primaryValue := fd_value first in
      let conflicts := conflictsOf primaryValue rest in
      Some {| cf_value := primaryValue;
              cf_sources := map fd_source fieldData;
              cf_confidence := calculateFieldConfidence fieldData;
              cf_conflicts :=
                if 0 <? length conflicts then Some conflicts else None |}
  end.

(** Body of the second loop for one field. *)
Definition consolidate_field (sources : list (string * ExifSource))
    (consolidated : gmap string ConsolidatedField) (field : string)
  : gmap string ConsolidatedField :=
  match consolidated_entry (fieldDataOf sources field) with
  | Some entry => <[ field := entry ]> consolidated
  | None => consolidated
  end.

Definition consolidateExifData (sources : list (string * ExifSource))
  : gmap string ConsolidatedField :=
  fold_left (consolidate_field sources) (elements (allFields sources)) ∅.

(** *** [analyzeWithMultipleLibraries] *)

(** The record stored before the strategy is awaited. *)
Definition loading_source (name library : string) : ExifSource :=
  {| src_name := name; src_library := library; src_data := literal ∅;
     src_status := loading; src_error := None;
     src_coverage := 0; src_unique_fields := 0 |}.

(** One [try { ... } catch (error) { ... }] block: the entry that the
    block leaves under its key. *)
Definition run_strategy (name library fallback : string)
    (result : Outcome JsObject) : ExifSource :=
  let source := loading_source name library in
  match result with
  | Returned data =>
      {| src_name := src_name source; src_library := src_library source;
         src_data := data; src_status := success;
         src_error := src_error source;
         src_coverage := calculateCoverage data;
         src_unique_fields := size (own data) |}
  | Threw t =>
      {| src_name := src_name source; src_library := src_library source;
         src_data := src_data source; src_status := error;
         src_error := Some (error_message fallback t);
         src_coverage := src_coverage source;
         src_unique_fields := src_unique_fields source |}
  end.

(** [exifrData || {}] *)
Definition or_empty (result : Outcome (option JsObject))
  : Outcome JsObject :=
  match result with
  | Returned d => Returned (default (literal ∅) d)
  | Threw t => Threw t
  end.

Record Analysis := mkAnalysis {
  exifSources : list (string * ExifSource);
  consolidatedData : gmap string ConsolidatedField
}.

(** The four strategies are awaited one after the other, each in its own
    [try]; the keys of [sources] are created in this order. *)
Definition analyzeWithMultipleLibraries
    (exifrData : Outcome (option JsObject))
    (manualData binaryData xmpData : Outcome JsObject) : Analysis :=
  let sources := [] in
  let sources :=
    sources ++ [("exifr"%string,
                 run_strategy "ExifR" "exifr" "Unknown error"
                   (or_empty exifrData))] in
  let sources :=
    sources ++ [("manual"%string,
                 run_strategy "Manual Parser" "custom"
                   "Manual parsing failed" manualData)] in
  let sources :=
    sources ++ [("binary"%string,
                 run_strategy "Binary Analysis" "custom"
                   "Binary analysis failed" binaryData)] in
  let sources :=
    sources ++ [("xmp"%string,
                 run_strategy "XMP Parser" "custom"
                   "XMP extraction failed" xmpData)] in
  {| exifSources := sources;
     consolidatedData := consolidateExifData sources |}.

End Consolidation.

Arguments mkObject {V}.
Arguments mkExifSource {V}.
Arguments mkDatum {V}.
Arguments mkField {V}.
Arguments JsObject V : clear implicits.
Arguments ExifSource V : clear implicits.
Arguments FieldDatum V : clear implicits.
Arguments ConsolidatedField V : clear implicits.
Arguments Analysis V : clear implicits.

(** A fragment of the JavaScript values with their [JSON.stringify]:
    [null], booleans, integers, strings free of characters that need an
    escape, and functions, for which [JSON.stringify] returns
    [undefined]. *)
Inductive JsValue :=
  | JNull
  | JBool (b : bool)
  | JNum (z : Z)
  | JStr (s : string)
  | JFunction (name : string).

Definition quote : string := String (ascii_of_nat 34) EmptyString.

Definition JSON_stringify (v : JsValue) : option string :=
  match v with
  | JNull => Some "null"%string
  | JBool true => Some "true"%string
  | JBool false => Some "false"%string
  | JNum z => Some (pretty z)
  | JStr s => Some (quote +:+ s +:+ quote)
  | JFunction _ => None
  end.

(** The function members of [Object.prototype].  Its accessor
    [__proto__] is left out: no own property has that name, so that no
    field of that name is looked up. *)
Definition Object_prototype_members : list string :=
  [ "constructor"; "hasOwnProperty"; "isPrototypeOf";
    "propertyIsEnumerable"; "toLocaleString"; "toString"; "valueOf";
    "__defineGetter__"; "__defineSetter__"; "__lookupGetter__";
    "__lookupSetter__" ]%string.

Definition Object_prototype (name : string) : option JsValue :=
  if bool_decide (name ∈ Object_prototype_members)
  then Some (JFunction name) else None.

(** ** Error-level comparator: [performELA] *)

Definition Qlt_bool (a b : Q) : bool := negb (Qle_bool b a).

(** Storing a number in a [Uint8ClampedArray]: clamp to [0, 255], then
    round to the nearest integer, a half going to the even neighbour. *)
Definition toUint8Clamp (q : Q) : Z :=
  if Qle_bool q 0 then 0%Z
  else if Qle_bool 255 q then 255%Z
  else
    let f := Qfloor q in
    let r := (q - inject_Z f)%Q in
    if Qlt_bool r (1 # 2) then f
    else if Qlt_bool (1 # 2) r then (f + 1)%Z
    else if Z.even f then f else (f + 1)%Z.

Module ELA.

Record Area := mkArea {
  x : nat;
  y : nat;
  width : nat;
  height : nat;
  confidence : Q
}.

Record Result := mkResult {
  suspiciousAreas : list Area;
  overallScore : Q;
  analysis : string
}.

(** State of the per-pixel loop. *)
Record Acc := mkAcc {
  totalDifference : Q;
  maxDifference : Q;
  elaData : list Z
}.

(** [(rDiff + gDiff + bDiff) / 3] for the pixel that starts at index [i]. *)
Definition avgDiff (original compressed : list Z) (i : nat) : Q :=
  let rDiff := Z.abs (nth i original 0 - nth i compressed 0)%Z in
  let gDiff := Z.abs (nth (i + 1) original 0 - nth (i + 1) compressed 0)%Z in
  let bDiff := Z.abs (nth (i + 2) original 0 - nth (i + 2) compressed 0)%Z in
  (inject_Z (rDiff + gDiff + bDiff) / 3)%Q.

(** [for (let i = 0; i < originalData.data.length; i += 4)] *)
Fixpoint pixel_loop (fuel : nat) (original compressed : list Z) (i : nat)
    (acc : Acc) : Acc :=
  match fuel with
  | O => acc
  | S f =>
      if i <? length original
      then
        let d := avgDiff original compressed i in
        let amplified := toUint8Clamp (Qmin 255 (d * 10)) in
        pixel_loop f original compressed (i + 4)
          {| totalDifference := (totalDifference acc + d)%Q;
             maxDifference := Qmax (maxDifference acc) d;
             elaData :=
               elaData acc ++ [amplified; amplified; amplified; 255%Z] |}
      else acc
  end.

Definition blockSize : nat := 32.

(** Red channel of [ctx.getImageData(bx, by, blockSize, blockSize)], row by
    row, read from a canvas [w] pixels wide. *)
Definition block_reds (w : nat) (canvas : list Z) (bx by_ : nat) : list Z :=
  map
    (fun k =>
       nth (((by_ + k / blockSize) * w + (bx + k mod blockSize)) * 4) canvas
         0%Z)
    (seq 0 (blockSize * blockSize)).

Definition blockAvg (w : nat) (canvas : list Z) (bx by_ : nat) : Q :=
  (inject_Z (fold_left Z.add (block_reds w canvas bx by_) 0%Z)
   / inject_Z (Z.of_nat (blockSize * blockSize)))%Q.

(** [for (let x = 0; x < canvas.width - blockSize; x += blockSize)] *)
Fixpoint x_loop (fuel : nat) (w : nat) (canvas : list Z) (threshold : Z)
    (by_ bx : nat) : list Area :=
  match fuel with
  | O => []
  | S f =>
      if (Z.of_nat bx <? Z.of_nat w - Z.of_nat blockSize)%Z
      then
        let avg := blockAvg w canvas bx by_ in
        (if Qlt_bool (inject_Z threshold) avg
         then [ mkArea bx by_ blockSize blockSize
                  (Qmin 100 ((avg / 255) * 100)) ]
         else [])
        ++ x_loop f w canvas threshold by_ (bx + blockSize)
      else []
  end.

(** [for (let y = 0; y < canvas.height - blockSize; y += blockSize)] *)
Fixpoint y_loop (fuel : nat) (w h : nat) (canvas : list Z) (threshold : Z)
    (by_ : nat) : list Area :=
  match fuel with
  | O => []
  | S f =>
      if (Z.of_nat by_ <? Z.of_nat h - Z.of_nat blockSize)%Z
      then x_loop w w canvas threshold by_ 0
           ++ y_loop f w h canvas threshold (by_ + blockSize)
      else []
  end.

(** The four-tier narrative. *)
Definition verdict (score : Q) : string :=
  if Qlt_bool score 10
  then "Low manipulation probability. Image appears authentic."
  else if Qlt_bool score 30
  then "Moderate manipulation probability. Some areas may have been edited."
  else if Qlt_bool score 60
  then "High manipulation probability. Significant editing detected."
  else "Very high manipulation probability. Extensive editing detected.".

(** [Math.min(100, (avgDifference / 50) * 100)] *)
Definition score_of (total : Q) (pixels : nat) : Q :=
  let avgDifference := (total / inject_Z (Z.of_nat pixels))%Q in
  Qmin 100 ((avgDifference / 50) * 100).

(** The arithmetic of [performELA] on the two pixel buffers returned by
    [getImageData] for a canvas of [w] by [h] pixels. *)
Definition performELA (w h : nat) (threshold : Z)
    (originalData compressedData : list Z) : Result :=
  let acc :=
    pixel_loop (length originalData) originalData compressedData 0
      (mkAcc 0 0 []) in
  let areas := y_loop h w h (elaData acc) threshold 0 in
  let score := score_of (totalDifference acc) (length originalData / 4) in
  {| suspiciousAreas := areas;
     overallScore := score;
     analysis := verdict score |}.

End ELA.

(** ** Batch summarizer: [generateBatchSummary] (exif-worker.ts) *)

Module Batch.

(** The properties of [exifData] that the summary reads. *)
Record ExifData := mkExif {
  latitude : option Q;
  longitude : option Q;
  Make : option string;
  Model : option string;
  DateTimeOriginal : option string;
  DateTime : option string
}.

Record FileResult := mkFileResult {
  fileName : string;
  status : Status;
  exifData : option ExifData;
  errorText : option string
}.

Record Summary := mkSummary {
  totalFiles : nat;
  successful : nat;
  errors : nat;
  withGPS : nat;
  cameras : gmap string nat;
  earliest : option string;
  latest : option string
}.

(** Truthiness of an optional number and of an optional string. *)
Definition truthy_num (v : option Q) : bool :=
  match v with
  | Some q => negb (Qeq_bool q 0)
  | None => false
  end.

Definition truthy_str (v : option string) : bool :=
  match v with
  | Some s => negb (String.eqb s "")
  | None => false
  end.

(** [a || b] on optional strings. *)
Definition or_else (a b : option string) : option string :=
  if truthy_str a then a else b.

(** [Make && Model ? `${Make} ${Model}` : 'Unknown'] *)
Definition camera_of (e : ExifData) : string :=
  match Make e, Model e with
  | Some mk, Some md =>
      if truthy_str (Some mk) && truthy_str (Some md)
      then mk +:+ " " +:+ md else "Unknown"
  | _, _ => "Unknown"
  end.

(** [const dateStr = DateTimeOriginal || DateTime; if (dateStr) ...] *)
Definition date_of (e : ExifData) : option string :=
  let dateStr := or_else (DateTimeOriginal e) (DateTime e) in
  if truthy_str dateStr then dateStr else None.

(** [if (!earliest || dateStr < earliest) earliest = dateStr], the
    comparison being the one of JavaScript strings. *)
Definition earlier (current : option string) (dateStr : string)
  : option string :=
  if negb (truthy_str current)
     || match current with Some c => String.ltb dateStr c | None => false end
  then Some dateStr else current.

(** [if (!latest || dateStr > latest) latest = dateStr] *)
Definition later (current : option string) (dateStr : string)
  : option string :=
  if negb (truthy_str current)
     || match current with Some c => String.ltb c dateStr | None => false end
  then Some dateStr else current.

(** What a successful result that carries [exifData] adds to the
    summary. *)
Definition absorb (summary : Summary) (e : ExifData) : Summary :=
  let camera := camera_of e in
  {| totalFiles := totalFiles summary;
     successful := successful summary;
     errors := errors summary;
     withGPS :=
       if truthy_num (latitude e) && truthy_num (longitude e)
       then S (withGPS summary) else withGPS summary;
     cameras :=
       <[ camera := default 0 (cameras summary !! camera) + 1 ]>
         (cameras summary);
     earliest :=
       match date_of e with
       | Some d => earlier (earliest summary) d
       | None => earliest summary
       end;
     latest :=
       match date_of e with
       | Some d => later (latest summary) d
       | None => latest summary
       end |}.

(** Body of [results.forEach]:
    [if (result.status === 'success' && result.exifData) { ... }] *)
Definition summary_step (summary : Summary) (result : FileResult) : Summary :=
  match status result, exifData result with
  | success, Some e => absorb summary e
  | _, _ => summary
  end.

Definition is_status (s : Status) (r : FileResult) : bool :=
  bool_decide (status r = s).

Definition generateBatchSummary (results : list FileResult) : Summary :=
  fold_left summary_step results
    {| totalFiles := length results;
       successful := length (filter (fun r => is_status success r = true) results);
       errors := length (filter (fun r => is_status error r = true) results);
       withGPS := 0;
       cameras := ∅;
       earliest := None;
       latest := None |}.

End Batch.

(** ** The rest of the worker (exif-worker.ts) *)

Record FileSignature := mkSignature {
  sig_type : string;
  sig_confidence : nat
}.

(** [analyzeFileSignature]: the hex text of the first 16 bytes is tested
    against four prefixes, in this order. *)
Definition analyzeFileSignature (data : list byte) : FileSignature :=
  let signature := concat (map hex2 (slice 0 16 data)) in
  if starts_with (js "ffd8ffe0") signature then mkSignature "JPEG (JFIF)" 100
  else if starts_with (js "ffd8ffe1") signature
  then mkSignature "JPEG (EXIF)" 100
  else if starts_with (js "89504e47") signature then mkSignature "PNG" 100
  else if starts_with (js "47494638") signature then mkSignature "GIF" 100
  else mkSignature "Unknown" 0.

(** The payload of the [HEX_RESULT] message. *)
Record HexResult := mkHexResult {
  hr_fileName : string;
  hr_signature : FileSignature;
  hr_entropy : R;
  hr_embeddedFiles : list EmbeddedObjectHit;
  hr_hexDump : list HexLine;
  hr_fileSize : nat
}.

(** [hexAnalysis]: the dump is the one of [uint8Array.slice(0, 2048)]. *)
Definition hexAnalysis (fileName : string) (data : list byte) : HexResult :=
  {| hr_fileName := fileName;
     hr_signature := analyzeFileSignature data;
     hr_entropy := calculateEntropy data;
     hr_embeddedFiles := detectEmbeddedFiles data;
     hr_hexDump := generateHexDump (slice 0 (N.to_nat 2048) data);
     hr_fileSize := length data |}.

(** The messages that [batchProcess] posts. *)
Inductive WorkerResponse :=
  | PROGRESS (current total : nat) (fileName : string)
  | BATCH_RESULT (results : list Batch.FileResult) (summary : Batch.Summary).

(** One turn of the loop of [batchProcess] for the file of index [i]: the
    progress message, then the [try]/[catch] around [EXIF.parse]. *)
Definition batch_turn (total i : nat)
    (file : string * Outcome (option Batch.ExifData))
  : WorkerResponse * Batch.FileResult :=
  (PROGRESS (i + 1) total file.1,
   match file.2 with
   | Returned exifData => Batch.mkFileResult file.1 success exifData None
   | Threw t =>
       Batch.mkFileResult file.1 error None
         (Some (error_message "Unknown error" t))
   end).

(** [for (let i = 0; i < files.length; i++)]: the state is the pair of
    the messages posted and of [results]. *)
Fixpoint batch_loop (total : nat)
    (files : list (string * Outcome (option Batch.ExifData))) (i : nat)
    (posted : list WorkerResponse) (results : list Batch.FileResult)
  : list WorkerResponse * list Batch.FileResult :=
  match files with
  | [] => (posted, results)
  | file :: files' =>
      let turn := batch_turn total i file in
      batch_loop total files' (i + 1) (posted ++ [turn.1])
        (results ++ [turn.2])
  end.

(** [batchProcess]: every message posted, in order.  A file is given by
    its name and by what [EXIF.parse] does on its buffer. *)
Definition batchProcess
    (files : list (string * Outcome (option Batch.ExifData)))
  : list WorkerResponse :=
  let state := batch_loop (length files) files 0 [] [] in
  state.1 ++ [BATCH_RESULT state.2 (Batch.generateBatchSummary state.2)].

(** ** The rest of the hex analyzer (hex-analyzer.tsx) *)

Definition lower_char (c : ascii) : ascii :=
  let n := N_of_ascii c in
  if ((65 <=? n) && (n <=? 90))%N then ascii_of_N (n + 32) else c.

Definition toLowerCase (s : list ascii) : list ascii := map lower_char s.

(** [s.includes(sub)] *)
Definition includes (s sub : list ascii) : bool :=
  match indexOf s sub 0 with
  | Some _ => true
  | None => false
  end.

Record Segment := mkSegment {
  seg_name : string;
  seg_marker : string;
  seg_offset : list ascii
}.

Record JpegAnalysis := mkJpegAnalysis {
  isValidJPEG : bool;
  hasSOI : bool;
  hasEOI : bool;
  segments : list Segment;
  quantizationTables : nat;
  huffmanTables : nat;
  hasAPP0 : bool;
  hasAPP1 : bool;
  imageSize : nat * nat
}.

(** [analysis.segments.push({ name, marker, offset: line.offset })] *)
Definition push_segment (name marker : string) (line : HexLine)
    (a : JpegAnalysis) : JpegAnalysis :=
  mkJpegAnalysis a.(isValidJPEG) a.(hasSOI) a.(hasEOI)
    (a.(segments) ++ [mkSegment name marker (line_offset line)])
    a.(quantizationTables) a.(huffmanTables) a.(hasAPP0) a.(hasAPP1)
    a.(imageSize).

Definition set_hasAPP0 (a : JpegAnalysis) : JpegAnalysis :=
  mkJpegAnalysis a.(isValidJPEG) a.(hasSOI) a.(hasEOI) a.(segments)
    a.(quantizationTables) a.(huffmanTables) true a.(hasAPP1) a.(imageSize).

Definition set_hasAPP1 (a : JpegAnalysis) : JpegAnalysis :=
  mkJpegAnalysis a.(isValidJPEG) a.(hasSOI) a.(hasEOI) a.(segments)
    a.(quantizationTables) a.(huffmanTables) a.(hasAPP0) true a.(imageSize).

Definition count_quantizationTable (a : JpegAnalysis) : JpegAnalysis :=
  mkJpegAnalysis a.(isValidJPEG) a.(hasSOI) a.(hasEOI) a.(segments)
    (a.(quantizationTables) + 1) a.(huffmanTables) a.(hasAPP0) a.(hasAPP1)
    a.(imageSize).

Definition count_huffmanTable (a : JpegAnalysis) : JpegAnalysis :=
  mkJpegAnalysis a.(isValidJPEG) a.(hasSOI) a.(hasEOI) a.(segments)
    a.(quantizationTables) (a.(huffmanTables) + 1) a.(hasAPP0) a.(hasAPP1)
    a.(imageSize).

(** [if (nextLine) analysis.imageSize = { width: 612, height: 816 }] *)
Definition set_imageSize (nextLine : bool) (a : JpegAnalysis)
  : JpegAnalysis :=
  mkJpegAnalysis a.(isValidJPEG) a.(hasSOI) a.(hasEOI) a.(segments)
    a.(quantizationTables) a.(huffmanTables) a.(hasAPP0) a.(hasAPP1)
    (if nextLine then (612, 816) else a.(imageSize)).

(** One [if (hex.includes(marker)) { ... }] of the loop body. *)
Definition on_marker (hex marker : list ascii)
    (update : JpegAnalysis -> JpegAnalysis) (a : JpegAnalysis)
  : JpegAnalysis :=
  if includes hex marker then update a else a.

(** The six tests made on one row, in source order; [nextLine] tells
    whether [hexData.lines[index + 1]] exists. *)
Definition jpeg_row (analysis : JpegAnalysis) (line : HexLine)
    (nextLine : bool) : JpegAnalysis :=
  let hex := strip_spaces (line_hex line) in
  let a := analysis in
  let a :=
    on_marker hex (js "ffe0")
      (fun a => push_segment "APP0 (JFIF)" "FF E0" line (set_hasAPP0 a)) a in
  let a :=
    on_marker hex (js "ffe1")
      (fun a => push_segment "APP1 (EXIF)" "FF E1" line (set_hasAPP1 a)) a in
  let a :=
    on_marker hex (js "ffdb")
      (fun a => push_segment "Quantization Table" "FF DB" line
                  (count_quantizationTable a)) a in
  let a :=
    on_marker hex (js "ffc4")
      (fun a => push_segment "Huffman Table" "FF C4" line
                  (count_huffmanTable a)) a in
  let a :=
    on_marker hex (js "ffc0")
      (fun a => set_imageSize nextLine
                  (push_segment "Start of Frame" "FF C0" line a)) a in
  on_marker hex (js "ffda")
    (fun a => push_segment "Start of Scan" "FF DA" line a) a.

(** [hexData.lines.forEach((line, index) => ...)] *)
Fixpoint jpeg_rows (analysis : JpegAnalysis) (lines : list HexLine)
  : JpegAnalysis :=
  match lines with
  | [] => analysis
  | line :: rest =>
      jpeg_rows
        (jpeg_row analysis line
           (match rest with [] => false | _ :: _ => true end))
        rest
  end.

Definition jpegAnalysis (lines : list HexLine) : JpegAnalysis :=
  let start := mkJpegAnalysis false false false [] 0 0 false false (0, 0) in
  let start :=
    match lines with
    | first :: _ =>
        if starts_with (js "ff d8") (line_hex first)
        then mkJpegAnalysis true true false
               [mkSegment "SOI (Start of Image)" "FF D8" (js "00000000")]
               0 0 false false (0, 0)
        else start
    | [] => start
    end in
  jpeg_rows start lines.

Record SignatureHit := mkSignatureHit {
  sh_signature : list ascii;
  sh_description : string;
  sh_extension : string;
  sh_offset : option Q
}.

Definition knownSignatures : list (list ascii * string * string) :=
  [ (js "ffd8ffe0", "JPEG/JFIF Image", "jpg");
    (js "ffd8ffe1", "JPEG/EXIF Image", "jpg");
    (js "89504e47", "PNG Image", "png");
    (js "47494638", "GIF Image", "gif");
    (js "504b0304", "ZIP Archive", "zip");
    (js "25504446", "PDF Document", "pdf");
    (js "d0cf11e0", "Microsoft Office Document", "doc/xls");
    (js "377abcaf", "7-Zip Archive", "7z");
    (js "52617221", "RAR Archive", "rar") ]%string.

(** The test made for one signature on one row:
    [offset: parseInt(line.offset, 16) + hex.indexOf(sig.sig) / 2], where
    [None] stands for [NaN]. *)
Definition signature_on_row (line : HexLine)
    (sig : list ascii * string * string) : list SignatureHit :=
  let hex := toLowerCase (strip_spaces (line_hex line)) in
  match indexOf hex sig.1.1 0 with
  | Some index =>
      [ mkSignatureHit (toUpperCase sig.1.1) sig.1.2 sig.2
          ((fun base => (inject_Z base + inject_Z (Z.of_nat index) / 2)%Q)
             <$> parseInt16 (line_offset line)) ]
  | None => []
  end.

Definition fileSignatures (lines : list HexLine) : list SignatureHit :=
  concat
    (map (fun line => concat (map (signature_on_row line) knownSignatures))
       lines).

(** ** The export of the consolidated data (multi-exif-reader.tsx) *)

(** The [analysis] object of [exportConsolidatedData]; [None] stands for
    the [NaN] that [0 / 0] gives. *)
Record ExportAnalysis := mkExportAnalysis {
  total_unique_fields : nat;
  conflicts : nat;
  avg_confidence : option Z
}.

(** [Object.values(consolidatedData)] is read through [map_to_list]: the
    count and the sum do not depend on the order of the entries. *)
Definition exportAnalysis {V} (consolidatedData : gmap string (ConsolidatedField V))
  : ExportAnalysis :=
  let values := (map_to_list consolidatedData).*2 in
  let sum := fold_left (fun sum field => (sum + cf_confidence field)%Z) values 0%Z in
  {| total_unique_fields := size consolidatedData;
     conflicts := length (filter (fun field => is_Some (cf_conflicts field)) values);
     avg_confidence :=
       if decide (size consolidatedData = 0) then None
       else Some (js_round (inject_Z sum
                            / inject_Z (Z.of_nat (size consolidatedData)))) |}.

(** ** The manual strategies (multi-exif-reader.tsx) *)

(** [dataView.getUint16(offset)], big-endian; [None] stands for the
    [RangeError] of an offset outside the view. *)
Definition getUint16 (data : list byte) (offset : nat) : option Z :=
  match data !! offset, data !! (offset + 1) with
  | Some hi, Some lo =>
      Some (256 * Z.of_N (Byte.to_N hi) + Z.of_N (Byte.to_N lo))%Z
  | _, _ => None
  end.

Section ManualParser.
(** The messages of the two [RangeError]s, which the engine chooses. *)
Context (offsetOutOfBounds invalidLength : string).

(** The body of [if (dataView.getUint16(offset) === 0xFFE1) { ... }]:
    the segment length is read, the view
    [new Uint8Array(arrayBuffer, offset + 4, segmentLength - 2)] is
    created, and the three properties are set. *)
Definition exif_segment (data : list byte) (offset : nat)
  : Outcome (gmap string JsValue) :=
  match getUint16 data (offset + 2) with
  | None => Threw (ErrorObject offsetOutOfBounds)
  | Some segmentLength =>
      if ((segmentLength - 2 <? 0)
          || (Z.of_nat (length data)
              <? Z.of_nat (offset + 4) + (segmentLength - 2)))%Z
      then Threw (ErrorObject invalidLength)
      else
        Returned
          (<["manual_exif_offset"%string := JNum (Z.of_nat offset)]>
             (<["manual_exif_segment_size"%string := JNum segmentLength]>
                (<["manual_exif_segment_found"%string := JBool true]> ∅)))
  end.

(** [while (offset < dataView.byteLength - 1) { ...; offset++ }] *)
Fixpoint manual_loop (fuel : nat) (data : list byte) (offset : nat)
  : Outcome (gmap string JsValue) :=
  match fuel with
  | O => Returned ∅
  | S f =>
      if offset + 1 <? length data
      then
        match getUint16 data offset with
        | None => Threw (ErrorObject offsetOutOfBounds)
        | Some marker =>
            if (marker =? 65505)%Z then exif_segment data offset
            else manual_loop f data (offset + 1)
        end
      else Returned ∅
  end.

Definition parseExifManually (data : list byte)
  : Outcome (gmap string JsValue) :=
  manual_loop (length data) data 0.

End ManualParser.

(** The result of [analyzeBinaryStructure]. *)
Record BinaryStructure := mkBinaryStructure {
  file_signature : list ascii;
  file_size : nat;
  embedded_patterns : list string
}.

Definition binaryPatterns : list (string * list byte) :=
  [ ("JPEG_SOI"%string, [xff; xd8]);
    ("PNG_SIGNATURE"%string, [x89; x50; x4e; x47]);
    ("PDF_SIGNATURE"%string, [x25; x50; x44; x46]);
    ("ZIP_SIGNATURE"%string, [x50; x4b; x03; x04]) ].

(** The inner loop: [uint8Array[i + j] !== pattern[j]] for each [j]. *)
Fixpoint pattern_at (data : list byte) (i : nat) (pattern : list byte)
  : bool :=
  match pattern with
  | [] => true
  | p :: pattern' =>
      match data !! i with
      | Some b => if Byte.eqb b p then pattern_at data (i + 1) pattern'
                  else false
      | None => false
      end
  end.

(** [for (let i = 0; i < uint8Array.length - pattern.length; i++)] *)
Fixpoint pattern_loop (fuel : nat) (data : list byte) (name : string)
    (pattern : list byte) (i : nat) : list string :=
  match fuel with
  | O => []
  | S f =>
      if (Z.of_nat i <? Z.of_nat (length data) - Z.of_nat (length pattern))%Z
      then
        (if pattern_at data i pattern
         then [(name +:+ "_at_" +:+ pretty i)%string] else [])
        ++ pattern_loop f data name pattern (i + 1)
      else []
  end.

Definition analyzeBinaryStructure (data : list byte) : BinaryStructure :=
  {| file_signature := concat (map hex2 (slice 0 16 data));
     file_size := length data;
     embedded_patterns :=
       concat
         (map (fun entry => pattern_loop (length data) data entry.1 entry.2 0)
            binaryPatterns) |}.

(** ** The cache of analysis results (lib/cache.ts) *)

Module Cache.

(** The properties of a [File] that [generateKey] reads. *)
Record File := mkFile {
  f_name : string;
  f_size : N;
  f_lastModified : Z
}.

Section Entries.
Context {T : Type}.

(** An entry of the private [Map] of [ExifCache], which is a
    [gmap string CacheEntry] here. *)
Record CacheEntry := mkEntry {
  data : T;
  timestamp : Z;
  expiresAt : Z
}.

Definition defaultTTL : Z := 30 * 60 * 1000.

(** [`${file.name}_${file.size}_${file.lastModified}`] *)
Definition generateKey (file : File) : string :=
  f_name file +:+ "_" +:+ pretty (f_size file) +:+ "_"
  +:+ pretty (f_lastModified file).

(** [cleanExpired], [now] being what [Date.now()] returns in it. *)
Definition cleanExpired (now : Z) (cache : gmap string CacheEntry)
  : gmap string CacheEntry :=
  filter (fun kv => ~ (now > expiresAt kv.2)%Z) cache.

(** [set(file, data, ttl)]: [now] is the reading of the clock made by
    [set] and [later] the one made by [cleanExpired]. *)
Definition set (file : File) (d : T) (ttl : Z) (now later : Z)
    (cache : gmap string CacheEntry) : gmap string CacheEntry :=
  cleanExpired later
    (<[ generateKey file := mkEntry d now (now + ttl) ]> cache).

(** [get(file)]: the value returned, [None] for [null], and the map
    afterwards. *)
Definition get (file : File) (now : Z) (cache : gmap string CacheEntry)
  : option T * gmap string CacheEntry :=
  let key := generateKey file in
  match cache !! key with
  | None => (None, cache)
  | Some entry =>
      if decide (now > expiresAt entry)%Z
      then (None, delete key cache)
      else (Some (data entry), cache)
  end.

Definition has (file : File) (now : Z) (cache : gmap string CacheEntry)
  : bool * gmap string CacheEntry :=
  let key := generateKey file in
  match cache !! key with
  | None => (false, cache)
  | Some entry =>
      if decide (now > expiresAt entry)%Z
      then (false, delete key cache)
      else (true, cache)
  end.

(** [delete(file)] returns whether the key was present. *)
Definition delete_ (file : File) (cache : gmap string CacheEntry)
  : bool * gmap string CacheEntry :=
  let key := generateKey file in
  (bool_decide (is_Some (cache !! key)), delete key cache).

Definition clear (cache : gmap string CacheEntry)
  : gmap string CacheEntry := ∅.

(** The counters of [getStats].  [totalSize] is the number of which
    [memoryUsage] is the rendering,
    [`${(totalSize / 1024).toFixed(2)} KB`]. *)
Record Stats := mkStats {
  stats_size : nat;
  totalEntries : nat;
  expiredEntries : nat;
  totalSize : nat
}.

(** [JSON.stringify] on the data of the entries: [None] is the
    [undefined] that it returns for [undefined] itself, which
    [warmCache] stores when the parser finds no metadata, and for a
    function. *)
Context (stringify : T -> option string).

(** One round of the loop of [getStats], on the counters [expiredCount]
    and [totalSize].  [None] is the [TypeError] thrown by
    [JSON.stringify(entry.data).length] when there is no text to take the
    length of. *)
Definition stats_step (now : Z) (counters : option (nat * nat))
    (item : string * CacheEntry) : option (nat * nat) :=
  match counters with
  | None => None
  | Some (expiredCount, totalSize) =>
      let expiredCount :=
        if decide (now > expiresAt item.2)%Z
        then S expiredCount else expiredCount in
      match stringify (data item.2) with
      | None => None
      | Some text =>
          Some (expiredCount,
                totalSize + (String.length text + String.length item.1))
      end
  end.

(** [getStats]; the entries are read through [map_to_list]: neither the
    counters nor whether an entry makes the loop throw depend on the
    order. *)
Definition getStats (now : Z) (cache : gmap string CacheEntry)
  : option Stats :=
  match fold_left (stats_step now) (map_to_list cache) (Some (0, 0)) with
  | None => None
  | Some (expiredCount, totalSize) =>
      Some {| stats_size := size cache;
              totalEntries := size cache;
              expiredEntries := expiredCount;
              totalSize := totalSize |}
  end.

(** [cleanupCache]: [stats] is read once, before anything is removed;
    [now] is the clock of [getStats] and [later] the one of
    [cleanExpired].  The result says whether the call returned, and gives
    the map afterwards: when [getStats] throws, the call ends there with
    the map as it was. *)
Definition cleanupCache (now later : Z) (cache : gmap string CacheEntry)
  : bool * gmap string CacheEntry :=
  match getStats now cache with
  | None => (false, cache)
  | Some stats =>
      let cache :=
        if 100 <? stats_size stats then cleanExpired later cache
        else cache in
      (true, if 200 <? stats_size stats then clear cache else cache)
  end.

End Entries.

Arguments CacheEntry T : clear implicits.

End Cache.

(** ** The stand-in hashes of the forensic tools (ForensicTools) *)

(** [ToInt32]: the signed 32-bit integer congruent to [z]. *)
Definition toInt32 (z : Z) : Z := ((z + 2 ^ 31) mod 2 ^ 32 - 2 ^ 31)%Z.

(** [hash = ((hash << 5) - hash + data[i]) & 0xffffffff] *)
Definition hash_step (hash : Z) (b : byte) : Z :=
  toInt32 (toInt32 (hash * 32) - hash + Z.of_N (Byte.to_N b)).

(** [Math.abs(hash).toString(16).padStart(length, '0')
      .substring(0, length)] *)
Definition simpleHash (data : list byte) (length : nat) : list ascii :=
  let hash := fold_left hash_step data 0%Z in
  take length (padStart length "0" (toString16 (Z.to_N (Z.abs hash)))).

Record Hashes := mkHashes {
  md5 : list ascii;
  sha1 : list ascii;
  sha256 : list ascii;
  hashes_fileSize : nat
}.

Definition calculateHashes (data : list byte) : Hashes :=
  {| md5 := simpleHash data 32;
     sha1 := simpleHash data 40;
     sha256 := simpleHash data 64;
     hashes_fileSize := length data |}.

(** ** The simple hex dump of the forensic tools (ForensicTools) *)

(** The 16 cells of one row: [hexBytes] and [asciiChars]. *)
Definition simple_cells (data : list byte) (i : nat)
  : list (list ascii * ascii) :=
  map
    (fun j =>
       match data !! (i + j) with
       | Some b => (hex2 b, ascii_cell b)
       | None => ([" "; " "]%char, " "%char)
       end)
    (seq 0 16).

Definition simpleHexLine (data : list byte) (i : nat) : HexLine :=
  let cells := simple_cells data i in
  {| line_offset := padStart 8 "0" (toString16 (N.of_nat i));
     line_hex := join [" "%char] (map fst cells);
     line_ascii := map snd cells |}.

(** [for (let i = 0; i < Math.min(uint8Array.length, 512); i += 16)] *)
Fixpoint simpleHex_loop (fuel : nat) (data : list byte) (i : nat)
  : list HexLine :=
  match fuel with
  | O => []
  | S f =>
      if i <? length data `min` N.to_nat 512
      then simpleHexLine data i :: simpleHex_loop f data (i + 16)
      else []
  end.

Definition generateSimpleHexDump (data : list byte) : HexData :=
  {| hd_lines := simpleHex_loop (length data) data 0;
     hd_totalBytes := length data;
     hd_displayedBytes := length data `min` N.to_nat 512 |}.

(** ** The signature test of the desktop shell (electron/preload.js) *)




(** ** String extraction (ForensicTools) *)

Definition printable (b : byte) : bool :=
  let n := Byte.to_N b in ((32 <=? n) && (n <=? 126))%N.

(** [if (currentString.length >= 4) strings.push(currentString)] *)
Definition push_string (strings : list (list ascii))
    (currentString : list ascii) : list (list ascii) :=
  if 4 <=? length currentString then strings ++ [currentString] else strings.

(** The loop over the bytes and the test made after it; the state is
    [strings] and [currentString]. *)
Fixpoint strings_loop (data : list byte) (strings : list (list ascii))
    (currentString : list ascii) : list (list ascii) :=
  match data with
  | [] => push_string strings currentString
  | char :: data' =>
      if printable char
      then strings_loop data' strings
             (currentString ++ [ascii_of_byte char])
      else strings_loop data' (push_string strings currentString) []
  end.

Record ExtractedStrings := mkExtractedStrings {
  totalStrings : nat;
  shownStrings : list (list ascii);
  interesting : list (list ascii)
}.

Definition interestingWords : list (list ascii) :=
  [js "http"; js "www"; js "@"; js "password"; js "key"; js "secret"].

Definition extractStrings (data : list byte) : ExtractedStrings :=
  let strings := strings_loop data [] [] in
  {| totalStrings := length strings;
     shownStrings := take 100 strings;
     interesting :=
       filter (fun s => existsb (includes s) interestingWords = true)
         strings |}.

(** ** The least-significant-bit test (ForensicTools,
       [detectSteganography]) *)

(** [data[i] & 1]; a missing element reads as [undefined], whose bit
    is 0. *)
Definition lsb_at (data : list Z) (i : nat) : Z :=
  Z.land (nth i data 0%Z) 1.

(** [for (let i = 0; i < data.length; i += 4)]: the state is
    [lsbVariation] and [totalPixels]. *)
Fixpoint lsb_loop (fuel : nat) (data : list Z) (i : nat)
    (lsbVariation totalPixels : Z) : Z * Z :=
  match fuel with
  | O => (lsbVariation, totalPixels)
  | S f =>
      if i <? length data
      then
        let r := lsb_at data i in
        let g := lsb_at data (i + 1) in
        let b := lsb_at data (i + 2) in
        lsb_loop f data (i + 4) (lsbVariation + (r + g + b))%Z
          (totalPixels + 1)%Z
      else (lsbVariation, totalPixels)
  end.

Record Steganography := mkSteganography {
  suspicious : bool;
  lsbVariation : Z;
  stego_totalPixels : Z
}.

(** [lsbRatio = lsbVariation / (totalPixels * 3)] and
    [suspicious = lsbRatio > 0.4 && lsbRatio < 0.6]; with no pixel the
    ratio is [NaN] and both comparisons are false.  The quotient is the
    exact rational: a ratio other than 2/5 and 3/5 is at least
    [1 / (15 * totalPixels)] away from them, which the rounding of a
    double (below [2^-53] here) cannot bridge for any canvas. *)
Definition detectSteganography (data : list Z) : Steganography :=
  let state := lsb_loop (length data) data 0 0%Z 0%Z in
  let lsbRatio := (inject_Z state.1 / inject_Z (state.2 * 3))%Q in
  {| suspicious :=
       negb (state.2 =? 0)%Z
       && Qlt_bool (4 # 10) lsbRatio && Qlt_bool lsbRatio (6 # 10);
     lsbVariation := state.1;
     stego_totalPixels := state.2 |}.
(* ===================================================================== *)
(** * Part II: properties                                                 *)
(* ===================================================================== *)

(** ** Hex digits and octets *)

Definition is_lower_hex (c : ascii) : bool :=
  existsb (Ascii.eqb c) (js "0123456789abcdef").

Definition is_upper_hex (c : ascii) : bool :=
  existsb (Ascii.eqb c) (js "0123456789ABCDEF").

Lemma hex2_digits (b : byte) :
  hex2 b = [hex_digit (Byte.to_N b / 16); hex_digit (Byte.to_N b mod 16)].
Proof. destruct b; reflexivity. Qed.

Lemma hex2_length (b : byte) : length (hex2 b) = 2.
Proof. now rewrite hex2_digits. Qed.

Lemma hex2_parse (b : byte) :
  parseInt16 (hex2 b) = Some (Z.of_N (Byte.to_N b)).
Proof. destruct b; reflexivity. Qed.

Lemma hex2_lower (b : byte) : forallb is_lower_hex (hex2 b) = true.
Proof. destruct b; reflexivity. Qed.

Lemma hex2_strip (b : byte) : strip_spaces (hex2 b) = hex2 b.
Proof. destruct b; reflexivity. Qed.

Lemma N_lt_16_cases (d : N) :
  (d < 16)%N ->
  In d [0; 1; 2; 3; 4; 5; 6; 7; 8; 9; 10; 11; 12; 13; 14; 15]%N.
Proof.
  intros H. rewrite <- (N2Nat.id d).
  assert (Hk : N.to_nat d < 16) by lia.
  generalize dependent (N.to_nat d). intros k Hk.
  do 16 (destruct k as [|k]; [simpl; tauto|]). lia.
Qed.

(** An uppercased digit is an uppercase hex character worth the digit. *)
Lemma upper_digit (d : N) :
  (d < 16)%N ->
  is_upper_hex (upper_char (hex_digit d)) = true /\
  hex_value (upper_char (hex_digit d)) = Some (Z.of_N d).
Proof.
  intros H. apply N_lt_16_cases in H. simpl in H.
  repeat (destruct H as [<- | H]; [split; reflexivity|]). contradiction.
Qed.

(** What [parseInt16] does on text made of uppercase hex characters. *)
Lemma upper_hex_value (c : ascii) :
  is_upper_hex c = true ->
  is_space c = false /\ c <> "-"%char /\ c <> "+"%char /\
  c <> "x"%char /\ c <> "X"%char /\ exists d, hex_value c = Some d.
Proof.
  unfold is_upper_hex, js. simpl. intros H.
  repeat (apply orb_prop in H; destruct H as [H | H];
    [ apply Ascii.eqb_eq in H; subst c;
      repeat split; try discriminate; eexists; reflexivity | ]).
  discriminate.
Qed.

Lemma parseInt16_upper (s : list ascii) :
  forallb is_upper_hex s = true ->
  parseInt16 s = parse_hex_digits s 0 false.
Proof.
  intros H. destruct s as [|c1 s]; [reflexivity|].
  simpl in H. apply andb_prop in H as [H1 H].
  destruct (upper_hex_value c1 H1) as (Hsp & Hm & Hp & _ & _ & _).
  unfold parseInt16. simpl skip_spaces. rewrite Hsp.
  assert (Hx : strip_0x (c1 :: s) = c1 :: s).
  { destruct s as [|c2 s]; simpl.
    - destruct c1 as [[] [] [] [] [] [] [] []]; reflexivity.
    - simpl in H. apply andb_prop in H as [H2 _].
      destruct (upper_hex_value c2 H2) as (_ & _ & _ & Hx & HX & _).
      destruct c1 as [[] [] [] [] [] [] [] []]; try reflexivity;
        destruct c2 as [[] [] [] [] [] [] [] []]; try reflexivity;
        congruence. }
  destruct c1 as [[] [] [] [] [] [] [] []]; try congruence; now rewrite Hx.
Qed.

(** ** [toString(16)] and the offset column *)

Lemma to_digits_length (fuel : nat) :
  forall (n : N) (k : nat),
    1 <= k -> (n < 16 ^ N.of_nat k)%N -> length (to_digits fuel n) <= k.
Proof.
  induction fuel as [|f IH]; intros n k Hk Hn; simpl; [lia|].
  destruct (N.ltb_spec n 16) as [Hlt | Hge]; simpl; [lia|].
  rewrite length_app. simpl.
  destruct k as [|[|k]]; [lia | simpl in Hn; lia |].
  assert (length (to_digits f (n / 16)) <= S k); [|lia].
  apply IH; [lia|].
  apply N.Div0.div_lt_upper_bound.
  replace (N.of_nat (S (S k))) with (N.succ (N.of_nat (S k))) in Hn by lia.
  now rewrite N.pow_succ_r' in Hn.
Qed.

(** The digits of [n], uppercased, are uppercase hex characters that
    [parse_hex_digits] folds back to [n]. *)
Lemma to_digits_upper (fuel : nat) :
  forall n : N, forallb is_upper_hex (toUpperCase (to_digits fuel n)) = true.
Proof.
  induction fuel as [|f IH]; intros n; simpl; [reflexivity|].
  destruct (N.ltb_spec n 16) as [Hlt | Hge]; unfold toUpperCase.
  - simpl. now rewrite (proj1 (upper_digit n Hlt)).
  - rewrite map_app, forallb_app. fold (toUpperCase (to_digits f (n / 16))).
    rewrite IH. simpl.
    rewrite (proj1 (upper_digit (n mod 16) (N.mod_upper_bound n 16 ltac:(lia)))).
    reflexivity.
Qed.

Lemma parse_hex_digits_app (s : list ascii) :
  forall (acc : Z) (seen : bool) (c : ascii) (d v : Z),
    parse_hex_digits s acc seen = Some v ->
    forallb is_upper_hex s = true ->
    (seen = true \/ s <> []) ->
    hex_value c = Some d ->
    parse_hex_digits (s ++ [c]) acc seen = Some (16 * v + d)%Z.
Proof.
  induction s as [|a s IH]; intros acc seen c d v Hv Hs Hne Hc; simpl in *.
  - destruct Hne as [-> | Hne]; [|congruence].
    rewrite Hc. congruence.
  - apply andb_prop in Hs as [Ha Hs].
    destruct (upper_hex_value a Ha) as (_ & _ & _ & _ & _ & da & Hda).
    rewrite Hda in *. eapply IH; eauto.
Qed.

Lemma to_digits_value (fuel : nat) :
  forall n : N,
    1 <= fuel ->
    (n < 16 ^ N.of_nat fuel)%N ->
    to_digits fuel n <> [] /\
    parse_hex_digits (toUpperCase (to_digits fuel n)) 0 false
    = Some (Z.of_N n).
Proof.
  induction fuel as [|f IH]; intros n Hf Hn; [lia|].
  simpl. destruct (N.ltb_spec n 16) as [Hlt | Hge].
  - split; [discriminate|]. simpl.
    now rewrite (proj2 (upper_digit n Hlt)).
  - assert (Hq : (n / 16 < 16 ^ N.of_nat f)%N).
    { apply N.Div0.div_lt_upper_bound.
      replace (N.of_nat (S f)) with (N.succ (N.of_nat f)) in Hn by lia.
      now rewrite N.pow_succ_r' in Hn. }
    assert (Hf1 : 1 <= f).
    { destruct f; [simpl in Hq|]; [|lia].
      assert (n / 16 = 0)%N by lia.
      apply N.div_small_iff in H; lia. }
    destruct (IH _ Hf1 Hq) as [Hne Hval].
    split; [destruct (to_digits f (n / 16)); [congruence | discriminate]|].
    unfold toUpperCase. rewrite map_app. simpl.
    erewrite parse_hex_digits_app; cycle 1.
    + exact Hval.
    + apply to_digits_upper.
    + right. destruct (to_digits f (n / 16)); [congruence | discriminate].
    + apply upper_digit, N.mod_upper_bound. lia.
    + f_equal. pose proof (N.Div0.div_mod n 16) as E. lia.
Qed.

Lemma log2_fuel (n : N) : (n < 16 ^ N.of_nat (S (N.to_nat (N.log2 n))))%N.
Proof.
  destruct (N.eq_dec n 0%N) as [-> | Hn]; [reflexivity|].
  assert (H := N.log2_spec n ltac:(lia)).
  eapply N.lt_le_trans; [apply H|].
  replace (N.of_nat (S (N.to_nat (N.log2 n)))) with (N.succ (N.log2 n)) by lia.
  apply N.pow_le_mono_l. lia.
Qed.

Lemma parse_hex_digits_seen (s : list ascii) (acc : Z) (seen : bool) :
  forallb is_upper_hex s = true -> s <> [] ->
  parse_hex_digits s acc seen = parse_hex_digits s acc false.
Proof.
  destruct s as [|c s]; [congruence|]. simpl. intros H _.
  apply andb_prop in H as [Hc _].
  destruct (upper_hex_value c Hc) as (_ & _ & _ & _ & _ & d & Hd).
  now rewrite Hd.
Qed.

Lemma parse_hex_digits_zeros (k : nat) (s : list ascii) :
  forall seen : bool,
    parse_hex_digits (repeat "0"%char k ++ s) 0 seen
    = parse_hex_digits s 0 (seen || (0 <? k)).
Proof.
  induction k as [|k IH]; intros seen; simpl.
  - now rewrite orb_false_r.
  - rewrite IH. simpl. now rewrite orb_true_r.
Qed.

Lemma map_upper_zeros (k : nat) :
  map upper_char (repeat "0"%char k) = repeat "0"%char k.
Proof. induction k as [|k IH]; simpl; [|rewrite IH]; reflexivity. Qed.

(** The offset column of the row that starts at byte [i]. *)
Lemma offset_column (i : nat) :
  (N.of_nat i < 2 ^ 32)%N ->
  let offset := toUpperCase (padStart 8 "0" (toString16 (N.of_nat i))) in
  length offset = 8 /\
  forallb is_upper_hex offset = true /\
  parseInt16 offset = Some (Z.of_nat i).
Proof.
  intros Hi offset. subst offset. unfold padStart, toString16.
  set (n := N.of_nat i) in *.
  set (digits := to_digits (S (N.to_nat (N.log2 n))) n).
  assert (Hlen : length digits <= 8).
  { apply to_digits_length; [lia|]. exact Hi. }
  destruct (to_digits_value (S (N.to_nat (N.log2 n))) n ltac:(lia)
              (log2_fuel n)) as [Hne Hval].
  fold digits in Hne, Hval.
  assert (Hup : forallb is_upper_hex
                  (toUpperCase (repeat "0"%char (8 - length digits) ++ digits))
                = true).
  { unfold toUpperCase. rewrite map_app, forallb_app.
    fold (toUpperCase digits). unfold digits at 2. rewrite to_digits_upper.
    rewrite andb_true_r. clear. induction (8 - length digits); simpl; auto. }
  split; [|split].
  - unfold toUpperCase. rewrite length_map, length_app, repeat_length. lia.
  - exact Hup.
  - rewrite parseInt16_upper by exact Hup.
    unfold toUpperCase. rewrite map_app.
    rewrite map_upper_zeros.
    rewrite parse_hex_digits_zeros. fold (toUpperCase digits).
    rewrite parse_hex_digits_seen.
    + rewrite Hval. f_equal. lia.
    + apply to_digits_upper.
    + unfold toUpperCase. destruct digits; [congruence | discriminate].
Qed.

(** ** The rows of [generateHexDump] *)

Lemma hexDump_loop_rows (data : list byte) (fuel : nat) :
  forall i : nat,
    length data <= i + 16 * fuel ->
    hexDump_loop fuel data i
    = map (fun k => hexLine data (i + 16 * k))
        (seq 0 ((length data - i + 15) / 16)).
Proof.
  induction fuel as [|f IH]; intros i Hfuel; cbn [hexDump_loop].
  - replace (length data - i + 15) with 15 by lia. reflexivity.
  - destruct (Nat.ltb_spec i (length data)) as [Hlt | Hge].
    + rewrite IH by lia.
      assert (E : (length data - i + 15) / 16
                  = S ((length data - (i + 16) + 15) / 16)).
      { destruct (Nat.le_gt_cases 16 (length data - i)) as [Hbig | Hsmall].
        - replace (length data - i + 15)
            with (1 * 16 + (length data - (i + 16) + 15)) by lia.
          now rewrite Nat.div_add_l by lia.
        - replace (length data - (i + 16) + 15) with 15 by lia.
          change (15 / 16) with 0.
          assert (length data - i + 15 = 1 * 16 + (length data - i - 1))
            as -> by lia.
          rewrite Nat.div_add_l, Nat.div_small by lia. reflexivity. }
      rewrite E. simpl seq. simpl map. rewrite Nat.add_0_r. f_equal.
      rewrite <- seq_shift, map_map. apply map_ext. intros k.
      f_equal. lia.
    + replace (length data - i + 15) with 15 by lia. reflexivity.
Qed.

Lemma generateHexDump_rows (data : list byte) :
  generateHexDump data
  = map (fun k => hexLine data (16 * k)) (seq 0 ((length data + 15) / 16)).
Proof.
  unfold generateHexDump. rewrite hexDump_loop_rows by lia.
  now rewrite Nat.sub_0_r.
Qed.

Lemma generateHexDump_lookup (data : list byte) (k : nat) (line : HexLine) :
  generateHexDump data !! k = Some line ->
  16 * k < length data /\ line = hexLine data (16 * k).
Proof.
  rewrite generateHexDump_rows, list_lookup_fmap. intros H.
  destruct (seq 0 ((length data + 15) / 16) !! k) as [j|] eqn:Hj;
    [|discriminate].
  apply lookup_seq in Hj as [-> Hk]. simpl in H. inversion H; subst.
  split; [|reflexivity].
  assert (Hm := Nat.Div0.mul_div_le (length data + 15) 16). lia.
Qed.

Lemma row_count_ceiling (n : nat) :
  Z.of_nat ((n + 15) / 16) = Qceiling (inject_Z (Z.of_nat n) / 16).
Proof.
  rewrite Nat2Z.inj_div, Nat2Z.inj_add.
  change (Z.of_nat 15) with 15%Z. change (Z.of_nat 16) with 16%Z.
  generalize (Z.of_nat n). intros z.
  unfold Qceiling, Qfloor, Qdiv, Qmult, Qinv, Qopp, inject_Z. cbn.
  rewrite Z.mul_1_r, Pos.mul_1_l.
  pose proof (Z.div_mod (z + 15) 16 ltac:(lia)).
  pose proof (Z.mod_pos_bound (z + 15) 16 ltac:(lia)).
  pose proof (Z.div_mod (- z) 16 ltac:(lia)).
  pose proof (Z.mod_pos_bound (- z) 16 ltac:(lia)).
  lia.
Qed.

(** ** Reading the rows back *)

Lemma strip_spaces_app (s t : list ascii) :
  strip_spaces (s ++ t) = strip_spaces s ++ strip_spaces t.
Proof. apply filter_app. Qed.

Lemma strip_spaces_blank (k : nat) : strip_spaces (repeat " "%char k) = [].
Proof. induction k as [|k IH]; [reflexivity|]. simpl. exact IH. Qed.

Lemma strip_spaces_join (bytes : list byte) :
  strip_spaces (join [" "%char] (map hex2 bytes)) = concat (map hex2 bytes).
Proof.
  induction bytes as [|b bytes IH]; [reflexivity|].
  destruct bytes as [|b' bytes].
  - simpl. rewrite hex2_strip. now rewrite app_nil_r.
  - change (join [" "%char] (map hex2 (b :: b' :: bytes)))
      with (hex2 b ++ [" "%char] ++ join [" "%char] (map hex2 (b' :: bytes))).
    rewrite !strip_spaces_app, hex2_strip, IH. reflexivity.
Qed.

Lemma line_hex_strip (data : list byte) (i : nat) :
  strip_spaces (line_hex (hexLine data i))
  = concat (map hex2 (slice i (i + 16) data)).
Proof.
  unfold hexLine, padEnd. simpl line_hex.
  rewrite strip_spaces_app, strip_spaces_blank, app_nil_r.
  apply strip_spaces_join.
Qed.

Lemma fullHex_loop (data : list byte) (fuel : nat) :
  forall i : nat,
    length data <= i + 16 * fuel ->
    fullHex (hexDump_loop fuel data i) = concat (map hex2 (drop i data)).
Proof.
  induction fuel as [|f IH]; intros i Hfuel; cbn [hexDump_loop].
  - rewrite drop_ge by lia. reflexivity.
  - destruct (Nat.ltb_spec i (length data)) as [Hlt | Hge].
    + unfold fullHex in *. cbn [map concat]. rewrite IH by lia.
      rewrite line_hex_strip. unfold slice.
      replace (i + 16 - i) with 16 by lia.
      rewrite <- concat_app, <- map_app.
      replace (drop (i + 16) data) with (drop 16 (drop i data))
        by (rewrite drop_drop; f_equal).
      now rewrite take_drop.
    + rewrite drop_ge by lia. reflexivity.
Qed.

Lemma fullHex_generateHexDump (data : list byte) :
  fullHex (generateHexDump data) = concat (map hex2 data).
Proof. unfold generateHexDump. now rewrite fullHex_loop by lia. Qed.

Lemma hex_pairs_octets (bytes : list byte) :
  hex_pairs (concat (map hex2 bytes))
  = map (fun b => Some (Z.of_N (Byte.to_N b))) bytes.
Proof.
  induction bytes as [|b bytes IH]; [reflexivity|].
  simpl map. simpl concat. rewrite <- IH, <- hex2_parse.
  rewrite (hex2_digits b) at 1 2. reflexivity.
Qed.

(** The round trip: the bytes parsed from the rendered rows are the bytes
    that were rendered. *)
Lemma hexToBytes_generateHexDump (data : list byte) :
  hexToBytes (generateHexDump data)
  = map (fun b => Some (Z.of_N (Byte.to_N b))) data.
Proof.
  unfold hexToBytes. rewrite fullHex_generateHexDump.
  apply hex_pairs_octets.
Qed.

(** ** Layout of one row *)

Lemma join_octets_length (bytes : list byte) :
  bytes <> [] ->
  length (join [" "%char] (map hex2 bytes)) = 3 * length bytes - 1.
Proof.
  induction bytes as [|b bytes IH]; [congruence|]. intros _.
  destruct bytes as [|b' bytes].
  - simpl. now rewrite hex2_length.
  - change (join [" "%char] (map hex2 (b :: b' :: bytes)))
      with (hex2 b ++ [" "%char] ++ join [" "%char] (map hex2 (b' :: bytes))).
    rewrite !length_app, hex2_length, IH by discriminate. simpl. lia.
Qed.

Lemma slice_length (data : list byte) (i : nat) :
  length (slice i (i + 16) data) = 16 `min` (length data - i).
Proof.
  unfold slice. rewrite length_take, length_drop. f_equal. lia.
Qed.

Lemma line_hex_layout (data : list byte) (i : nat) :
  i < length data ->
  let chunk := slice i (i + 16) data in
  line_hex (hexLine data i)
  = join [" "%char] (map hex2 chunk)
    ++ repeat " "%char (3 * (16 - length chunk)) /\
  length (line_hex (hexLine data i)) = 47.
Proof.
  intros Hi chunk. unfold hexLine, padEnd. cbn [line_hex]. fold chunk.
  assert (Hlen : 1 <= length chunk <= 16).
  { subst chunk. rewrite slice_length. lia. }
  assert (Hne : chunk <> []) by (destruct chunk; [simpl in Hlen; lia | discriminate]).
  rewrite length_app, repeat_length, join_octets_length by exact Hne.
  split; [f_equal; f_equal|]; lia.
Qed.

Lemma ascii_cell_spec (b : byte) :
  ascii_cell b
  = if ((32 <=? Byte.to_N b) && (Byte.to_N b <=? 126))%N
    then ascii_of_byte b else "."%char.
Proof. destruct b; reflexivity. Qed.

(** C6. Parsing the rendered hex text gives back the rendered bytes; the
    number of rows is [ceil(length / 16)]; every row has an offset of 8
    uppercase hex digits, zero padded, that reads as the index of its first
    byte, a hex column of two-digit octets separated by one space and
    padded with spaces to 47 characters, and an ASCII column that shows the
    bytes from 0x20 to 0x7E as themselves and any other byte as a dot. *)
Theorem generateHexDump_round_trip_and_layout (data : list byte) :
  (N.of_nat (length data) <= 2 ^ 32)%N ->
  let lines := generateHexDump data in
  hexToBytes lines = map (fun b => Some (Z.of_N (Byte.to_N b))) data /\
  Z.of_nat (length lines)
  = Qceiling (inject_Z (Z.of_nat (length data)) / 16) /\
  forall (k : nat) (line : HexLine),
    lines !! k = Some line ->
    let chunk := slice (16 * k) (16 * k + 16) data in
    1 <= length chunk <= 16 /\
    (length (line_offset line) = 8 /\
     forallb is_upper_hex (line_offset line) = true /\
     parseInt16 (line_offset line) = Some (Z.of_nat (16 * k))) /\
    (line_hex line
     = join [" "%char] (map hex2 chunk)
       ++ repeat " "%char (3 * (16 - length chunk)) /\
     length (line_hex line) = 47 /\
     Forall (fun octet => length octet = 2 /\
                          forallb is_lower_hex octet = true)
       (map hex2 chunk)) /\
    Forall2
      (fun b c =>
         c = if ((32 <=? Byte.to_N b) && (Byte.to_N b <=? 126))%N
             then ascii_of_byte b else "."%char)
      chunk (line_ascii line).
Proof.
  intros Hbound lines. subst lines. split; [|split].
  - apply hexToBytes_generateHexDump.
  - rewrite generateHexDump_rows, length_map, length_seq.
    apply row_count_ceiling.
  - intros k line Hk chunk.
    apply generateHexDump_lookup in Hk as [Hlt ->].
    split; [subst chunk; rewrite slice_length; lia|].
    split; [apply offset_column; lia|].
    split.
    + destruct (line_hex_layout data (16 * k) Hlt) as [Hhex Hlen].
      split; [exact Hhex|]. split; [exact Hlen|].
      apply Forall_map, Forall_forall. intros b _.
      split; [apply hex2_length | apply hex2_lower].
    + unfold hexLine. cbn [line_ascii]. fold chunk.
      apply Forall2_fmap_r, Forall_Forall2_diag, Forall_forall.
      intros b _. apply ascii_cell_spec.
Qed.

Definition sample_bytes : list byte :=
  [x89; x50; x4e; x47; x0d; x0a; x1a; x0a; x00; x00; x00; x0d; x49; x48;
   x44; x52; x7e; x7f; x20; x41].

Lemma generateHexDump_round_trip_and_layout_witness :
  (N.of_nat (length sample_bytes) <= 2 ^ 32)%N /\
  hexToBytes (generateHexDump sample_bytes)
  = map (fun b => Some (Z.of_N (Byte.to_N b))) sample_bytes /\
  length (generateHexDump sample_bytes) = 2.
Proof.
  assert (H : (N.of_nat (length sample_bytes) <= 2 ^ 32)%N)
    by (vm_compute; discriminate).
  split; [exact H|].
  split; [exact (proj1 (generateHexDump_round_trip_and_layout _ H))|].
  reflexivity.
Defined.

(** ** Embedded-object scan *)

Lemma scan_loop_hits (fuel : nat) (hs sig : list ascii) (type : string) :
  forall (index : option nat) (hit : EmbeddedObjectHit),
    In hit (scan_loop fuel hs sig type index) ->
    hit_type hit = type /\ (0 < hit_offset hit)%Q.
Proof.
  induction fuel as [|f IH]; intros index hit Hin; simpl in Hin; [tauto|].
  destruct index as [i|]; [|contradiction].
  destruct (Nat.ltb_spec 0 i) as [Hpos | Hz]; [|contradiction].
  destruct Hin as [<- | Hin]; [|eapply IH; eassumption].
  split; [reflexivity|]. unfold Qlt. simpl. lia.
Qed.

(** No hit is reported at offset 0, and a hit carries the type of one of
    the four signatures. *)
Lemma detectEmbeddedFiles_offset_positive (data : list byte)
    (hit : EmbeddedObjectHit) :
  In hit (detectEmbeddedFiles data) ->
  (0 < hit_offset hit)%Q /\ In (hit_type hit) (map snd signatures).
Proof.
  unfold detectEmbeddedFiles. intros Hin.
  apply in_concat in Hin as (hits & Hhits & Hin).
  apply in_map_iff in Hhits as (sigData & <- & Hsig).
  apply scan_loop_hits in Hin as [Htype Hpos].
  split; [exact Hpos|]. rewrite Htype. now apply in_map.
Qed.

(** *** What the scan does report *)

(** The signature [sig] occurs in the hex text at index [j]. *)
Definition matches_at (sig hs : list ascii) (j : nat) : bool :=
  starts_with sig (drop j hs).

Lemma indexOf_aux_Some (needle : list ascii) (hay : list ascii) :
  forall i j : nat,
    indexOf_aux needle hay i = Some j ->
    i <= j /\ starts_with needle (drop (j - i) hay) = true /\
    forall k, k < j - i -> starts_with needle (drop k hay) = false.
Proof.
  induction hay as [|c hay IH]; intros i j; cbn [indexOf_aux].
  - destruct (starts_with needle []) eqn:E; [|discriminate].
    intros [= <-]. rewrite Nat.sub_diag. split; [lia|].
    split; [exact E | intros k Hk; lia].
  - destruct (starts_with needle (c :: hay)) eqn:E.
    + intros [= <-]. rewrite Nat.sub_diag. split; [lia|].
      split; [exact E | intros k Hk; lia].
    + intros H. apply IH in H as (Hle & Hm & Hmin).
      split; [lia|].
      replace (j - i) with (S (j - S i)) by lia. split; [exact Hm|].
      intros [|k] Hk; [exact E|]. apply Hmin. lia.
Qed.

Lemma indexOf_aux_None (needle : list ascii) (hay : list ascii) :
  forall i : nat,
    indexOf_aux needle hay i = None ->
    forall k, starts_with needle (drop k hay) = false.
Proof.
  induction hay as [|c hay IH]; intros i; cbn [indexOf_aux].
  - destruct (starts_with needle []) eqn:E; [discriminate|].
    intros _ k. now rewrite drop_nil.
  - destruct (starts_with needle (c :: hay)) eqn:E; [discriminate|].
    intros H [|k]; [exact E|]. exact (IH _ H k).
Qed.

(** [indexOf] returns the least index, from [from] on, at which the
    needle occurs. *)
Lemma indexOf_Some (hs sig : list ascii) (from j : nat) :
  from <= length hs ->
  indexOf hs sig from = Some j ->
  from <= j /\ matches_at sig hs j = true /\
  forall k, from <= k -> k < j -> matches_at sig hs k = false.
Proof.
  unfold indexOf, matches_at. intros Hfrom H.
  rewrite Nat.min_l in H by exact Hfrom.
  apply indexOf_aux_Some in H as (Hle & Hm & Hmin).
  rewrite drop_drop in Hm. replace (from + (j - from)) with j in Hm by lia.
  split; [exact Hle|]. split; [exact Hm|].
  intros k Hk1 Hk2. specialize (Hmin (k - from) ltac:(lia)).
  rewrite drop_drop in Hmin. now replace (from + (k - from)) with k in Hmin by lia.
Qed.

Lemma indexOf_None (hs sig : list ascii) (from : nat) :
  indexOf hs sig from = None ->
  forall k, from <= k -> matches_at sig hs k = false.
Proof.
  unfold indexOf, matches_at. intros H k Hk.
  pose proof (indexOf_aux_None _ _ _ H (k - from)) as Hn.
  rewrite drop_drop in Hn. now replace (from + (k - from)) with k in Hn by lia.
Qed.

Lemma matches_at_inside (sig hs : list ascii) (j : nat) :
  sig <> [] -> matches_at sig hs j = true -> j < length hs.
Proof.
  unfold matches_at. intros Hsig Hm.
  destruct (Nat.lt_ge_cases j (length hs)) as [Hlt | Hge]; [exact Hlt|].
  rewrite drop_ge in Hm by exact Hge. destruct sig; [congruence | discriminate].
Qed.

(** Once the loop is entered at a match, it reports every later match. *)
Lemma scan_loop_complete (hs sig : list ascii) (type : string) (fuel : nat) :
  sig <> [] ->
  forall i j : nat,
    0 < i -> length hs < i + fuel ->
    matches_at sig hs i = true ->
    i <= j -> matches_at sig hs j = true ->
    In (mkHit type (inject_Z (Z.of_nat j) / 2)%Q)
      (scan_loop fuel hs sig type (Some i)).
Proof.
  intros Hsig. induction fuel as [|f IH]; intros i j Hpos Hfuel Hi Hij Hj.
  - apply (matches_at_inside _ _ _ Hsig) in Hi. lia.
  - cbn [scan_loop]. destruct (Nat.ltb_spec 0 i) as [_ | ?]; [|lia].
    destruct (Nat.eq_dec i j) as [-> | Hne]; [now left|]. right.
    pose proof (matches_at_inside _ _ _ Hsig Hi) as Hin.
    destruct (indexOf hs sig (i + 1)) as [i'|] eqn:Hnext.
    + apply indexOf_Some in Hnext as (Hle & Hm & Hmin); [|lia].
      apply IH; try assumption; try lia.
      destruct (Nat.le_gt_cases i' j) as [? | Hgt]; [assumption|].
      rewrite (Hmin j) in Hj by lia. discriminate.
    + rewrite (indexOf_None _ _ _ Hnext j) in Hj by lia. discriminate.
Qed.

(** A signature that does not open the file has every one of its
    occurrences in the scanned text reported, at half its index. *)
Lemma detectEmbeddedFiles_reports (data : list byte) (sig : list ascii)
    (type : string) (j : nat) :
  In (sig, type) signatures ->
  matches_at sig (hexString data) 0 = false ->
  matches_at sig (hexString data) j = true ->
  In (mkHit type (inject_Z (Z.of_nat j) / 2)%Q) (detectEmbeddedFiles data).
Proof.
  intros Hsig H0 Hj. unfold detectEmbeddedFiles.
  apply in_concat. exists (scan_signature (hexString data) (sig, type)).
  split; [now apply (in_map (scan_signature (hexString data)))|].
  assert (Hne : sig <> []).
  { simpl in Hsig.
    destruct Hsig as [[= <- _] | [[= <- _] | [[= <- _] | [[= <- _] | []]]]];
      discriminate. }
  unfold scan_signature. cbn [fst snd].
  destruct (indexOf (hexString data) sig 0) as [i|] eqn:Hfirst.
  - apply indexOf_Some in Hfirst as (_ & Hi & Hmin); [|lia].
    assert (Hpos : 0 < i).
    { destruct i; [congruence | lia]. }
    apply scan_loop_complete; try assumption; try lia.
    destruct (Nat.le_gt_cases i j) as [? | Hgt]; [assumption|].
    rewrite (Hmin j) in Hj by lia. discriminate.
  - rewrite (indexOf_None _ _ _ Hfirst j) in Hj by lia. discriminate.
Qed.

(** A signature that opens the file has none of its occurrences
    reported. *)
Lemma scan_signature_header (hs : list ascii) (sigData : list ascii * string) :
  matches_at sigData.1 hs 0 = true -> scan_signature hs sigData = [].
Proof.
  unfold matches_at, scan_signature, indexOf. rewrite drop_0. intros H.
  cbn [Nat.min]. destruct hs as [|c hs]; cbn [indexOf_aux scan_loop];
    now rewrite H.
Qed.

(** A JPEG/JFIF header followed, at byte 8, by a second JFIF signature. *)
Definition jpeg_in_jpeg : list byte :=
  [xff; xd8; xff; xe0; x00; x10; x4a; x46;
   xff; xd8; xff; xe0; x00; x10; x4a; x46].

(** C4. The scan gives up on a signature whose first match is the file
    header: the JFIF signature that starts at byte 8 of [jpeg_in_jpeg] is
    a match at an offset greater than 0, and no hit is reported. *)
Theorem detectEmbeddedFiles_header_match_ends_scan :
  slice 8 12 jpeg_in_jpeg = [xff; xd8; xff; xe0] /\
  indexOf (hexString jpeg_in_jpeg) (js "ffd8ffe0") 1 = Some 16 /\
  detectEmbeddedFiles jpeg_in_jpeg = [].
Proof. repeat split; vm_compute; reflexivity. Qed.

(** ** The end-to-end scenario: a ZIP signature at byte 40 *)

Definition buf100 : list byte :=
  repeat x00 40 ++ [x50; x4b; x03; x04] ++ repeat x00 56.

(** C5. On the 100-byte buffer the embedded-object scan reports ZIP at
    offset 40, and the pattern scanner reports the ZIP signature with
    severity [high], at location 80: the index of the match in the hex
    text, two characters per byte.  On the rows of [generateHexData], whose
    octets are uppercase, the ZIP pattern does not match at all. *)
Theorem zip_at_40_scanned :
  length buf100 = 100 /\
  slice 40 44 buf100 = [x50; x4b; x03; x04] /\
  map (fun hit => (hit_type hit, Qred (hit_offset hit)))
    (detectEmbeddedFiles buf100)
  = [("ZIP"%string, 40%Q)] /\
  map (fun p => (pattern p, severity p, locations p))
    (suspiciousPatterns (generateHexDump buf100))
  = [ ("00{20,}"%string, medium, [0; 88]);
      ("(504b0304|504b0506)"%string, high, [80]) ] /\
  map (fun p => (pattern p, severity p, locations p))
    (suspiciousPatterns (hd_lines (generateHexData buf100)))
  = [ ("00{20,}"%string, medium, [0; 88]) ].
Proof. repeat split; vm_compute; reflexivity. Qed.

(** ** Hits that fall between two bytes *)

Definition straddling : list byte := [x05; x04; xb0; x30; x40].

(** C10. There is a buffer on which the scan reports a hit whose offset is
    not a whole number of bytes: the ZIP signature matches the hex text of
    [straddling] from its second character on, the reported offset is one
    half, and no four consecutive bytes of the buffer are the signature. *)
Theorem detectEmbeddedFiles_fractional_offset :
  exists (data : list byte) (hit : EmbeddedObjectHit),
    In hit (detectEmbeddedFiles data) /\
    hit_type hit = "ZIP"%string /\
    indexOf (hexString data) (js "504b0304") 0 = Some 1 /\
    (hit_offset hit == 1 # 2)%Q /\
    ~ (exists z : Z, (hit_offset hit == inject_Z z)%Q) /\
    forall i : nat, slice i (i + 4) data <> [x50; x4b; x03; x04].
Proof.
  exists straddling, (mkHit "ZIP" (inject_Z 1 / 2)).
  split; [vm_compute; left; reflexivity|].
  split; [reflexivity|]. split; [vm_compute; reflexivity|].
  split; [reflexivity|]. split.
  - intros [z Hz]. unfold Qeq in Hz. simpl in Hz. lia.
  - intros i. do 5 (destruct i as [|i]; [vm_compute; discriminate|]).
    unfold slice. rewrite drop_ge by (simpl; lia). rewrite take_nil.
    discriminate.
Qed.

(** ** Consolidation *)

Section ConsolidationFacts.
Context {V : Type} (stringify : V -> option string).

Implicit Types (sources : list (string * ExifSource V)) (field : string).

(** A source reports a field when it succeeded and holds a value for it,
    as a property of its own. *)
Definition reports (entry : string * ExifSource V) (field : string) : Prop :=
  src_status entry.2 = success /\ is_Some (own (src_data entry.2) !! field).

(** A source answers for a field when it succeeded and [data[field]] is
    not [undefined]: it holds the field, or it inherits a member of that
    name. *)
Definition answers (entry : string * ExifSource V) (field : string) : Prop :=
  src_status entry.2 = success /\ is_Some (prop (src_data entry.2) field).

Lemma prop_own (object : JsObject V) (name : string) (v : V) :
  own object !! name = Some v -> prop object name = Some v.
Proof. unfold prop. now intros ->. Qed.

Lemma prop_inherited (object : JsObject V) (name : string) :
  inherited object name = None -> prop object name = own object !! name.
Proof. unfold prop. intros ->. now destruct (own object !! name). Qed.

Lemma reports_answers (entry : string * ExifSource V) field :
  reports entry field -> answers entry field.
Proof.
  intros [Hs [v Hv]]. split; [exact Hs|].
  exists v. now apply prop_own.
Qed.

Lemma allFields_fold sources :
  forall (acc : gset string) field,
    field ∈ fold_left
      (fun acc entry =>
         if decide (src_status entry.2 = success)
         then acc ∪ dom (own (src_data entry.2)) else acc)
      sources acc
    <-> field ∈ acc \/ exists entry, entry ∈ sources /\ reports entry field.
Proof.
  induction sources as [|entry sources IH]; intros acc field; simpl.
  - split; [auto|]. intros [H | (e & H & _)]; [exact H|].
    now apply elem_of_nil in H.
  - rewrite IH. unfold reports. split.
    + intros [H | (e & He & Hr)].
      * destruct (decide (src_status entry.2 = success)) as [Hs|Hs];
          [|now left].
        apply elem_of_union in H as [H | H]; [now left|].
        right. exists entry. split; [apply list_elem_of_here|].
        split; [exact Hs|]. now apply elem_of_dom.
      * right. exists e. split; [now apply list_elem_of_further | exact Hr].
    + intros [H | (e & He & Hs & Hf)].
      * left. destruct (decide (src_status entry.2 = success));
          [apply elem_of_union|]; auto.
      * apply elem_of_cons in He as [-> | He].
        -- left. rewrite decide_True by exact Hs.
           apply elem_of_union. right. now apply elem_of_dom.
        -- right. exists e. auto.
Qed.

(** The fields are the names of the own properties of the successful
    sources. *)
Lemma elem_of_allFields sources field :
  field ∈ allFields sources
  <-> exists entry, entry ∈ sources /\ reports entry field.
Proof.
  unfold allFields. rewrite allFields_fold. split; [|auto].
  intros [H | H]; [|exact H]. now apply not_elem_of_empty in H.
Qed.

Lemma elem_of_fieldDataOf sources field (d : FieldDatum V) :
  d ∈ fieldDataOf sources field
  <-> exists src, (fd_source d, src) ∈ sources /\
        src_status src = success /\
        prop (src_data src) field = Some (fd_value d).
Proof.
  unfold fieldDataOf. rewrite list_elem_of_omap. split.
  - intros ([name src] & Hin & H). simpl in H.
    destruct (decide (src_status src = success)) as [Hs|]; [|discriminate].
    destruct (prop (src_data src) field) as [v|] eqn:Hv; [|discriminate].
    inversion H; subst. simpl. eauto.
  - intros (src & Hin & Hs & Hv). exists (fd_source d, src).
    split; [exact Hin|]. simpl. rewrite decide_True by exact Hs.
    rewrite Hv. now destruct d.
Qed.

(** The first pair comes from the first source, in the order of the keys
    of [sources], that answers for the field. *)
Lemma fieldDataOf_head sources field (d : FieldDatum V) rest :
  fieldDataOf sources field = d :: rest ->
  exists pre src post,
    sources = pre ++ (fd_source d, src) :: post /\
    src_status src = success /\
    prop (src_data src) field = Some (fd_value d) /\
    Forall (fun entry => ~ answers entry field) pre /\
    fieldDataOf post field = rest.
Proof.
  induction sources as [|[name src] sources IH]; [discriminate|].
  unfold fieldDataOf. simpl. fold (fieldDataOf sources field).
  destruct (decide (src_status src = success)) as [Hs|Hs].
  - destruct (prop (src_data src) field) as [v|] eqn:Hv; simpl.
    + intros H. inversion H; subst. exists [], src, sources. simpl.
      repeat split; auto.
    + intros H. destruct (IH H) as (pre & s & post & -> & ? & ? & ? & ?).
      exists ((name, src) :: pre), s, post. repeat split; auto.
      constructor; [|assumption]. unfold answers. simpl.
      rewrite Hv. intros [_ [? ?]]. discriminate.
  - intros H. destruct (IH H) as (pre & s & post & -> & ? & ? & ? & ?).
    exists ((name, src) :: pre), s, post. repeat split; auto.
    constructor; [|assumption]. unfold answers. simpl. tauto.
Qed.

Lemma consolidate_fold sources field :
  forall (fields : list string) (acc : gmap string (ConsolidatedField V)),
    fold_left (consolidate_field stringify sources) fields acc !! field
    = if decide (field ∈ fields)
      then match consolidated_entry stringify (fieldDataOf sources field) with
           | Some entry => Some entry
           | None => acc !! field
           end
      else acc !! field.
Proof.
  induction fields as [|f fields IH]; intros acc; cbn [fold_left].
  - destruct (decide (field ∈ [])) as [Hin|]; [|reflexivity].
    now apply not_elem_of_nil in Hin.
  - rewrite IH. clear IH. unfold consolidate_field.
    destruct (decide (f = field)) as [-> | Hne].
    + destruct (decide (field ∈ field :: fields)) as [_ | Hnin];
        [|exfalso; apply Hnin, list_elem_of_here].
      destruct (consolidated_entry stringify (fieldDataOf sources field))
        as [entry|]; [|now destruct (decide (field ∈ fields))].
      rewrite lookup_insert_eq. now destruct (decide (field ∈ fields)).
    + assert (Hacc : match consolidated_entry stringify
                             (fieldDataOf sources f) with
                     | Some entry => <[f := entry]> acc
                     | None => acc
                     end !! field = acc !! field).
      { destruct (consolidated_entry stringify (fieldDataOf sources f));
          [now rewrite lookup_insert_ne | reflexivity]. }
      rewrite Hacc.
      destruct (decide (field ∈ fields)) as [Hin | Hnin];
        destruct (decide (field ∈ f :: fields)) as [Hin' | Hnin'];
        try reflexivity.
      * exfalso. apply Hnin'. now apply list_elem_of_further.
      * exfalso. apply elem_of_cons in Hin' as [? | ?]; congruence.
Qed.

(** The entry stored under a field: none unless a successful source holds
    the field; otherwise it is computed from the pairs collected for that
    field, and from nothing else. *)
Lemma consolidateExifData_lookup sources field :
  consolidateExifData stringify sources !! field
  = if decide (field ∈ allFields sources)
    then consolidated_entry stringify (fieldDataOf sources field)
    else None.
Proof.
  unfold consolidateExifData. rewrite consolidate_fold, lookup_empty.
  destruct (decide (field ∈ elements (allFields sources))) as [Hin | Hnin];
    destruct (decide (field ∈ allFields sources)) as [Hin' | Hnin'].
  - now destruct (consolidated_entry stringify (fieldDataOf sources field)).
  - apply elem_of_elements in Hin. contradiction.
  - exfalso. apply Hnin. now apply elem_of_elements.
  - reflexivity.
Qed.

Lemma consolidated_entry_Some (fieldData : list (FieldDatum V))
    (e : ConsolidatedField V) :
  consolidated_entry stringify fieldData = Some e ->
  exists first rest,
    fieldData = first :: rest /\
    cf_value e = fd_value first /\
    cf_sources e = map fd_source fieldData /\
    cf_confidence e = calculateFieldConfidence stringify fieldData /\
    cf_conflicts e
    = if 0 <? length (conflictsOf stringify (fd_value first) rest)
      then Some (conflictsOf stringify (fd_value first) rest) else None.
Proof.
  destruct fieldData as [|first rest]; [discriminate|]. simpl.
  intros H. inversion H; subst; clear H. exists first, rest. auto.
Qed.

(** An entry of the consolidated map, taken apart. *)
Lemma consolidateExifData_Some sources field (e : ConsolidatedField V) :
  consolidateExifData stringify sources !! field = Some e ->
  (exists entry, entry ∈ sources /\ reports entry field) /\
  exists first rest,
    fieldDataOf sources field = first :: rest /\
    cf_value e = fd_value first /\
    cf_sources e = map fd_source (fieldDataOf sources field) /\
    cf_confidence e
    = calculateFieldConfidence stringify (fieldDataOf sources field) /\
    cf_conflicts e
    = if 0 <? length (conflictsOf stringify (fd_value first) rest)
      then Some (conflictsOf stringify (fd_value first) rest) else None.
Proof.
  rewrite consolidateExifData_lookup.
  destruct (decide (field ∈ allFields sources)) as [Hin | ?]; [|discriminate].
  intros He. split; [now apply elem_of_allFields|].
  now apply consolidated_entry_Some.
Qed.

(** A field that a successful source holds has an entry. *)
Lemma consolidateExifData_is_Some sources field :
  is_Some (consolidateExifData stringify sources !! field)
  <-> exists entry, entry ∈ sources /\ reports entry field.
Proof.
  split.
  - intros [e He]. now apply consolidateExifData_Some in He as [H _].
  - intros ([name src] & Hin & Hr). rewrite consolidateExifData_lookup.
    rewrite decide_True by (apply elem_of_allFields; eauto).
    destruct (reports_answers _ _ Hr) as [Hs [v Hv]]. cbn [fst snd] in *.
    assert (Hd : mkDatum name v ∈ fieldDataOf sources field)
      by (apply elem_of_fieldDataOf; cbn; eauto).
    destruct (fieldDataOf sources field) as [|first rest];
      [now apply not_elem_of_nil in Hd | cbn; eauto].
Qed.

Lemma js_round_comp (x y : Q) : (x == y)%Q -> js_round x = js_round y.
Proof. intros H. unfold js_round. now rewrite H. Qed.

(** The size of the [Set] of serialized values is the number of distinct
    serialized values. *)
Lemma size_uniqueValues (l : list (option string)) :
  size (list_to_set l : gset (option string)) = length (remove_dups l).
Proof.
  rewrite <- (size_list_to_set (C := gset (option string)) (remove_dups l))
    by apply NoDup_remove_dups.
  f_equal. apply set_eq. intros s.
  now rewrite !elem_of_list_to_set, elem_of_remove_dups.
Qed.

Lemma remove_dups_constant (l : list (option string)) :
  l <> [] ->
  (forall s t, s ∈ l -> t ∈ l -> s = t) ->
  length (remove_dups l) = 1.
Proof.
  induction l as [|s l IH]; [congruence|]. intros _ Hall.
  destruct l as [|t l]; [reflexivity|].
  cbn [remove_dups].
  destruct (decide_rel elem_of s (t :: l)) as [_ | Hnin].
  - apply IH; [discriminate|]. intros a b Ha Hb.
    apply Hall; now apply list_elem_of_further.
  - exfalso. apply Hnin.
    rewrite (Hall s t); [apply list_elem_of_here | apply list_elem_of_here |].
    apply list_elem_of_further, list_elem_of_here.
Qed.

Lemma remove_dups_length (l : list (option string)) :
  length (remove_dups l) <= length l.
Proof.
  induction l as [|s l IH]; [reflexivity|]. cbn [remove_dups].
  destruct (decide_rel elem_of s l); simpl; lia.
Qed.

Lemma remove_dups_singleton (l : list (option string)) :
  length (remove_dups l) = 1 -> forall s t, s ∈ l -> t ∈ l -> s = t.
Proof.
  intros Hlen s t Hs Ht.
  apply elem_of_remove_dups in Hs, Ht.
  destruct (remove_dups l) as [|x [|y rest]]; try discriminate.
  apply list_elem_of_singleton in Hs, Ht. congruence.
Qed.

(** The confidence computed from [k] pairs with [u] distinct serialized
    values: the quotient is rounded to binary64, then the product, then
    [Math.round] is taken. *)
Definition confidence_of (k u : nat) : Z :=
  Math_round
    (b64_mul
       (b64_div (b64_of_Z (Z.of_nat k - Z.of_nat u + 1))
          (b64_of_Z (Z.of_nat k)))
       (b64_of_Z 100)).

Lemma calculateFieldConfidence_counts (fieldData : list (FieldDatum V)) :
  calculateFieldConfidence stringify fieldData
  = confidence_of (length fieldData)
      (length
         (remove_dups (map (fun d => stringify (fd_value d)) fieldData))).
Proof.
  unfold calculateFieldConfidence, confidence_of.
  now rewrite size_uniqueValues.
Qed.

(** A test on every pair [1 <= u <= k <= bound]. *)
Definition table_holds (bound : nat) (test : nat -> nat -> bool) : bool :=
  forallb (fun k => forallb (test k) (seq 1 k)) (seq 1 bound).

Lemma table_holds_spec (bound : nat) (test : nat -> nat -> bool) :
  table_holds bound test = true ->
  forall k u : nat, 1 <= u <= k -> k <= bound -> test k u = true.
Proof.
  unfold table_holds. rewrite List.forallb_forall. intros Hall k u Hu Hk.
  assert (Hrow : forallb (test k) (seq 1 k) = true)
    by (apply Hall, in_seq; lia).
  rewrite List.forallb_forall in Hrow. apply Hrow, in_seq. lia.
Qed.

(** With fewer than 40 pairs the two roundings do not show: the
    confidence is the rounded exact quotient. *)
Lemma confidence_below_40 (k u : nat) :
  1 <= u <= k -> k < 40 ->
  confidence_of k u
  = js_round
      (100 * inject_Z (Z.of_nat k - Z.of_nat u + 1) / inject_Z (Z.of_nat k)).
Proof.
  intros Hu Hk. apply Z.eqb_eq.
  apply (table_holds_spec 39
           (fun k u =>
              (confidence_of k u
               =? js_round
                    (100 * inject_Z (Z.of_nat k - Z.of_nat u + 1)
                     / inject_Z (Z.of_nat k)))%Z));
    [vm_compute; reflexivity | exact Hu | lia].
Qed.

(** With 40 pairs they do. *)
Lemma confidence_at_40 :
  confidence_of 40 18 = 57%Z /\
  js_round (100 * inject_Z (40 - 18 + 1) / inject_Z 40) = 58%Z.
Proof. split; vm_compute; reflexivity. Qed.

Lemma conflictsOf_nil (v : V) (rest : list (FieldDatum V)) :
  conflictsOf stringify v rest = []
  <-> Forall (fun d => stringify (fd_value d) = stringify v) rest.
Proof.
  unfold conflictsOf. induction rest as [|d rest IH]; [split; auto|].
  rewrite filter_cons. destruct (decide (stringify (fd_value d) ≠ stringify v))
    as [Hne | Heq].
  - split; [discriminate|]. intros H. inversion H; subst. contradiction.
  - rewrite IH. apply dec_stable in Heq. split.
    + intros H. now constructor.
    + intros H. now inversion H.
Qed.

(** The counts behind an entry: [k] pairs were collected, one for each
    source listed, with [u] distinct serialized values; no conflicts are
    recorded exactly when [u] is 1. *)
Lemma entry_counts sources field (e : ConsolidatedField V) :
  consolidateExifData stringify sources !! field = Some e ->
  let fieldData := fieldDataOf sources field in
  let serialized := map (fun d => stringify (fd_value d)) fieldData in
  let k := length fieldData in
  let u := length (remove_dups serialized) in
  cf_sources e = map fd_source fieldData /\
  k = length (cf_sources e) /\ 1 <= u <= k /\ k <= length sources /\
  cf_confidence e = confidence_of k u /\
  (u = 1 <-> cf_conflicts e = None) /\
  (u = 1 <-> forall s t, s ∈ serialized -> t ∈ serialized -> s = t).
Proof.
  intros He fieldData serialized k u.
  apply consolidateExifData_Some in He
    as (_ & first & rest & Hfd & Hval & Hsrc & Hconf & Hconfl).
  fold fieldData in Hfd, Hsrc, Hconf.
  assert (Hlen : length serialized = k)
    by (subst serialized k; apply length_map).
  assert (Hfirst : stringify (fd_value first) ∈ serialized).
  { subst serialized. rewrite Hfd. apply list_elem_of_here. }
  assert (Hk : 1 <= k <= length sources).
  { subst k. split; [rewrite Hfd; simpl; lia|].
    subst fieldData. unfold fieldDataOf.
    clear. induction sources as [|x l IH]; [reflexivity|].
    cbn [omap list_omap length].
    destruct (if decide (src_status x.2 = success)
              then mkDatum x.1 <$> prop (src_data x.2) field else None);
      cbn [length]; lia. }
  assert (Hu : 1 <= u <= k).
  { subst u. split; [|rewrite <- Hlen; apply remove_dups_length].
    apply elem_of_remove_dups in Hfirst.
    destruct (remove_dups serialized);
      [now apply not_elem_of_nil in Hfirst | simpl; lia]. }
  assert (Hsame : u = 1
                  <-> forall s t, s ∈ serialized -> t ∈ serialized -> s = t).
  { subst u. split; [apply remove_dups_singleton|].
    apply remove_dups_constant. intros Hnil. rewrite Hnil in Hfirst.
    now apply not_elem_of_nil in Hfirst. }
  split; [exact Hsrc|]. split; [now rewrite Hsrc, length_map|].
  split; [exact Hu|]. split; [lia|].
  split; [rewrite Hconf; apply calculateFieldConfidence_counts|].
  split; [|exact Hsame].
  assert (Hnone : cf_conflicts e = None
                  <-> conflictsOf stringify (fd_value first) rest = []).
  { rewrite Hconfl.
    destruct (conflictsOf stringify (fd_value first) rest); simpl;
      split; congruence. }
  rewrite Hnone, conflictsOf_nil, Forall_forall, Hsame. split.
  - intros Hall d Hd. apply Hall; [|exact Hfirst].
    subst serialized. rewrite Hfd. cbn [map].
    apply list_elem_of_further, list_elem_of_fmap. eauto.
  - intros Hall.
    assert (Heach : forall s, s ∈ serialized ->
                      s = stringify (fd_value first)).
    { intros s Hs. subst serialized. rewrite Hfd in Hs. cbn [map] in Hs.
      apply elem_of_cons in Hs as [-> | Hs]; [reflexivity|].
      apply list_elem_of_fmap in Hs as (d & -> & Hd). now apply Hall. }
    intros s t Hs Ht. now rewrite (Heach s Hs), (Heach t Ht).
Qed.

(** C1, amended.  For a field with fewer than 40 sources listed, the
    confidence stored is [round(100 * (k - u + 1) / k)], with [k] the
    number of pairs collected for the field, one for each source listed,
    and [u] the number of distinct serialized values among them.  When all
    the serialized values are the same the confidence is 100 and no
    conflicts are recorded; when exactly two pairs are collected and their
    serialized values differ the confidence is 50. *)
Theorem consolidated_confidence sources field (e : ConsolidatedField V) :
  consolidateExifData stringify sources !! field = Some e ->
  length (cf_sources e) < 40 ->
  let fieldData := fieldDataOf sources field in
  let serialized := map (fun d => stringify (fd_value d)) fieldData in
  let k := Z.of_nat (length fieldData) in
  let u := Z.of_nat (length (remove_dups serialized)) in
  cf_sources e = map fd_source fieldData /\
  (1 <= u <= k)%Z /\
  cf_confidence e = js_round (100 * inject_Z (k - u + 1) / inject_Z k) /\
  ((forall s t, s ∈ serialized -> t ∈ serialized -> s = t) ->
   cf_confidence e = 100%Z /\ cf_conflicts e = None) /\
  (forall a b : FieldDatum V,
     fieldData = [a; b] ->
     stringify (fd_value a) <> stringify (fd_value b) ->
     cf_confidence e = 50%Z).
Proof.
  intros He Hfew fieldData serialized k u.
  destruct (entry_counts sources field e He)
    as (Hsrc & Hlen & Hu & _ & Hconf & Hnone & Hsame).
  fold fieldData in Hsrc, Hlen, Hu, Hconf, Hnone, Hsame.
  fold serialized in Hu, Hconf, Hnone, Hsame.
  assert (Hformula :
            cf_confidence e
            = js_round (100 * inject_Z (k - u + 1) / inject_Z k)).
  { rewrite Hconf. subst k u. apply confidence_below_40; lia. }
  split; [exact Hsrc|]. split; [lia|]. split; [exact Hformula|]. split.
  - intros Hall. apply Hsame in Hall. split; [|now apply Hnone].
    rewrite Hformula. subst u. rewrite Hall.
    rewrite (js_round_comp _ 100); [reflexivity|].
    replace (k - Z.of_nat 1 + 1)%Z with k by lia. field.
    intros H0. unfold Qeq in H0. simpl in H0. lia.
  - intros a b Hab Hne. rewrite Hformula. subst u k serialized.
    rewrite Hab. cbn [map remove_dups].
    destruct (decide_rel elem_of (stringify (fd_value a))
                [stringify (fd_value b)]) as [Hin | _].
    + apply list_elem_of_singleton in Hin. contradiction.
    + reflexivity.
Qed.


Lemma fieldDataOf_cons (entry : string * ExifSource V) sources field :
  fieldDataOf (entry :: sources) field
  = match (if decide (src_status entry.2 = success)
           then mkDatum entry.1 <$> prop (src_data entry.2) field
           else None) with
    | Some d => d :: fieldDataOf sources field
    | None => fieldDataOf sources field
    end.
Proof. reflexivity. Qed.

(** *** Which sources are listed for a field *)

(** For a field name that no source inherits, the pairs collected are
    those of the sources that hold the field: the value chosen is the one
    of the first of them, in the order in which the strategies were
    registered, and no conflicts are recorded exactly when every two of
    them agree on the serialized value. *)
Lemma value_and_conflicts_of_own_field sources field
    (e : ConsolidatedField V) :
  Forall (fun entry => inherited (src_data entry.2) field = None) sources ->
  consolidateExifData stringify sources !! field = Some e ->
  (exists pre name src post v,
      sources = pre ++ (name, src) :: post /\
      Forall (fun entry => ~ reports entry field) pre /\
      src_status src = success /\
      own (src_data src) !! field = Some v /\
      cf_value e = v /\
      head (cf_sources e) = Some name) /\
  (cf_conflicts e = None <->
   forall entry1 entry2 v1 v2,
     entry1 ∈ sources -> entry2 ∈ sources ->
     src_status entry1.2 = success -> src_status entry2.2 = success ->
     own (src_data entry1.2) !! field = Some v1 ->
     own (src_data entry2.2) !! field = Some v2 ->
     stringify v1 = stringify v2) /\
  cf_conflicts e <> Some [].
Proof.
  intros Hplain He.
  assert (Hprop : forall name src,
            (name, src) ∈ sources ->
            prop (src_data src) field = own (src_data src) !! field).
  { intros name src Hin. apply prop_inherited.
    rewrite Forall_forall in Hplain. exact (Hplain _ Hin). }
  apply consolidateExifData_Some in He
    as (_ & first & rest & Hfd & Hval & Hsrc & _ & Hconfl).
  split; [|split].
  - destruct (fieldDataOf_head _ _ _ _ Hfd)
      as (pre & src & post & Hsources & Hs & Hv & Hpre & _).
    exists pre, (fd_source first), src, post, (fd_value first).
    rewrite Hsrc, Hfd.
    split; [exact Hsources|]. split.
    + apply Forall_forall. intros entry Hin Hr.
      rewrite Forall_forall in Hpre.
      exact (Hpre entry Hin (reports_answers entry field Hr)).
    + rewrite <- (Hprop (fd_source first) src)
        by (rewrite Hsources; apply elem_of_app; right;
            apply list_elem_of_here).
      auto.
  - assert (Hnone : cf_conflicts e = None
                    <-> conflictsOf stringify (fd_value first) rest = []).
    { rewrite Hconfl.
      destruct (conflictsOf stringify (fd_value first) rest); simpl;
        split; congruence. }
    rewrite Hnone, conflictsOf_nil, Forall_forall. split.
    + intros Hrest [n1 s1] [n2 s2] v1 v2 H1 H2 Hs1 Hs2 Hv1 Hv2. simpl in *.
      assert (Hagree : forall d, d ∈ fieldDataOf sources field ->
                stringify (fd_value d) = stringify (fd_value first)).
      { intros d Hd. rewrite Hfd in Hd.
        apply elem_of_cons in Hd as [-> | Hd]; auto. }
      rewrite <- (Hprop n1 s1 H1) in Hv1. rewrite <- (Hprop n2 s2 H2) in Hv2.
      transitivity (stringify (fd_value first)).
      * apply (Hagree (mkDatum n1 v1)), elem_of_fieldDataOf. simpl. eauto.
      * symmetry.
        apply (Hagree (mkDatum n2 v2)), elem_of_fieldDataOf. simpl. eauto.
    + intros Hall d Hd.
      assert (Hd' : d ∈ fieldDataOf sources field)
        by (rewrite Hfd; now apply list_elem_of_further).
      assert (Hf' : first ∈ fieldDataOf sources field)
        by (rewrite Hfd; apply list_elem_of_here).
      apply elem_of_fieldDataOf in Hd' as (sd & Hind & Hsd & Hvd).
      apply elem_of_fieldDataOf in Hf' as (sf & Hinf & Hsf & Hvf).
      rewrite (Hprop _ _ Hind) in Hvd. rewrite (Hprop _ _ Hinf) in Hvf.
      exact (Hall _ _ _ _ Hind Hinf Hsd Hsf Hvd Hvf).
  - rewrite Hconfl.
    destruct (conflictsOf stringify (fd_value first) rest); simpl;
      congruence.
Qed.

End ConsolidationFacts.

(** *** The four strategies *)

Section StrategyIsolation.
Context {V : Type} (stringify : V -> option string)
  (Object_prototype : string -> option V).

Implicit Types (field : string) (outcome : Outcome (JsObject V)).

(** What one [try]/[catch] block leaves in [sources], as a relation
    between the outcome of the strategy and the entry. *)
Definition recorded (name library fallback : string) outcome
    (src : ExifSource V) : Prop :=
  src_name src = name /\ src_library src = library /\
  match outcome with
  | Returned data =>
      src_status src = success /\ src_data src = data /\
      src_error src = None
  | Threw t =>
      src_status src = error /\
      src_error src
      = Some match t with
             | ErrorObject message => message
             | OtherValue => fallback
             end /\
      src_data src = literal Object_prototype ∅ /\
      src_coverage src = 0%Q /\ src_unique_fields src = 0
  end.

(** The pairs that the strategies contribute for a field: one for each
    strategy that returned an object whose property of that name is not
    [undefined], in the order of the strategies. *)
Definition contributions (outcomes : list (string * Outcome (JsObject V)))
    field : list (FieldDatum V) :=
  omap
    (fun o =>
       match o.2 with
       | Returned data => mkDatum o.1 <$> prop data field
       | Threw _ => None
       end)
    outcomes.

(** A strategy with its key, its display name, its library and the
    message used when what it throws is no [Error]. *)
Definition entry_of
    (strategy : string * string * string * string * Outcome (JsObject V))
  : string * ExifSource V :=
  (strategy.1.1.1.1,
   run_strategy Object_prototype strategy.1.1.1.2 strategy.1.1.2
     strategy.1.2 strategy.2).

Definition outcome_of
    (strategy : string * string * string * string * Outcome (JsObject V))
  : string * Outcome (JsObject V) :=
  (strategy.1.1.1.1, strategy.2).

Lemma run_strategy_recorded (name library fallback : string) outcome :
  recorded name library fallback outcome
    (run_strategy Object_prototype name library fallback outcome).
Proof.
  destruct outcome as [data | t]; unfold recorded; cbn;
    repeat split; reflexivity.
Qed.

Lemma fieldDataOf_entries
    (strategies :
       list (string * string * string * string * Outcome (JsObject V)))
    field :
  fieldDataOf (map entry_of strategies) field
  = contributions (map outcome_of strategies) field.
Proof.
  induction strategies as [|[[[[key name] library] fallback] outcome] l IH];
    [reflexivity|].
  unfold fieldDataOf, contributions in *.
  cbn [map omap list_omap]. rewrite IH.
  destruct outcome as [data | t]; reflexivity.
Qed.

Lemma reports_entries
    (strategies :
       list (string * string * string * string * Outcome (JsObject V)))
    field :
  (exists entry, entry ∈ map entry_of strategies /\ reports entry field)
  <-> exists key data,
        (key, Returned data) ∈ map outcome_of strategies /\
        is_Some (own data !! field).
Proof.
  split.
  - intros (entry & Hin & Hs & Hf).
    apply list_elem_of_fmap in Hin
      as ([[[[key name] library] fallback] outcome] & -> & Hin).
    destruct outcome as [data | t]; [|discriminate Hs].
    exists key, data. split; [|exact Hf].
    apply list_elem_of_fmap.
    exists (key, name, library, fallback, Returned data). auto.
  - intros (key & data & Hin & Hf).
    apply list_elem_of_fmap in Hin
      as ([[[[key' name] library] fallback] outcome] & Heq & Hin).
    unfold outcome_of in Heq. cbn [fst snd] in Heq.
    injection Heq as Hkey Houtcome. subst key' outcome.
    exists (entry_of (key, name, library, fallback, Returned data)).
    split; [apply list_elem_of_fmap; eauto|].
    split; [reflexivity | exact Hf].
Qed.

Lemma elem_of_contributions
    (outcomes : list (string * Outcome (JsObject V))) field
    (d : FieldDatum V) :
  d ∈ contributions outcomes field
  <-> exists data, (fd_source d, Returned data) ∈ outcomes /\
                   prop data field = Some (fd_value d).
Proof.
  unfold contributions. rewrite list_elem_of_omap. split.
  - intros ([key outcome] & Hin & H). cbn [fst snd] in H.
    destruct outcome as [data | t]; [|discriminate].
    destruct (prop data field) as [v|] eqn:Hv; [|discriminate].
    injection H as <-. exists data. auto.
  - intros (data & Hin & Hv). exists (fd_source d, Returned data).
    split; [exact Hin|]. cbn [fst snd]. rewrite Hv. now destruct d.
Qed.

Lemma key_unique {A} (l : list (string * A)) (key : string) (a b : A) :
  NoDup (l.*1) -> (key, a) ∈ l -> (key, b) ∈ l -> a = b.
Proof.
  induction l as [|[k x] l IH]; intros Hnd Ha Hb;
    [now apply elem_of_nil in Ha|].
  cbn in Hnd. apply NoDup_cons in Hnd as [Hk Hnd].
  assert (Hout : forall y, (k, y) ∈ l -> False).
  { intros y Hy. apply Hk. apply list_elem_of_fmap. now exists (k, y). }
  apply elem_of_cons in Ha as [Ha | Ha]; apply elem_of_cons in Hb as [Hb | Hb].
  - congruence.
  - injection Ha as -> ->. now apply Hout in Hb.
  - injection Hb as -> ->. now apply Hout in Ha.
  - now apply IH.
Qed.

(** C3. Whatever the four strategies do, the run ends with one entry per
    strategy, in registration order, and each entry is decided by the
    outcome of its own strategy: a strategy that threw is recorded with
    status [error], with the message of the error (or the fallback of the
    strategy) as the reason, and with no data.  Consolidation goes on
    over the objects that were returned: the entry of a field is computed
    from the pairs that the strategies which returned contribute; a field
    that a returned object holds is consolidated and lists its strategy,
    whatever the other strategies did; a strategy that threw is listed for
    no field; and the consolidated map is empty exactly when no returned
    object holds a field, as when every strategy threw. *)
Theorem strategy_failures_are_isolated
    (exifrData : Outcome (option (JsObject V)))
    (manualData binaryData xmpData : Outcome (JsObject V)) :
  let run :=
    analyzeWithMultipleLibraries stringify Object_prototype exifrData
      manualData binaryData xmpData in
  let exifrObject :=
    match exifrData with
    | Returned (Some data) => Returned data
    | Returned None => Returned (literal Object_prototype ∅)
    | Threw t => Threw t
    end in
  let outcomes :=
    [ ("exifr"%string, exifrObject);
      ("manual"%string, manualData);
      ("binary"%string, binaryData);
      ("xmp"%string, xmpData) ] in
  (exists exifr manual binary xmp : ExifSource V,
     exifSources run
     = [ ("exifr"%string, exifr); ("manual"%string, manual);
         ("binary"%string, binary); ("xmp"%string, xmp) ] /\
     recorded "ExifR" "exifr" "Unknown error" exifrObject exifr /\
     recorded "Manual Parser" "custom" "Manual parsing failed"
       manualData manual /\
     recorded "Binary Analysis" "custom" "Binary analysis failed"
       binaryData binary /\
     recorded "XMP Parser" "custom" "XMP extraction failed" xmpData xmp) /\
  (forall field (e : ConsolidatedField V),
     consolidatedData run !! field = Some e ->
     exists first rest,
       contributions outcomes field = first :: rest /\
       cf_value e = fd_value first /\
       cf_sources e = map fd_source (first :: rest) /\
       cf_confidence e = calculateFieldConfidence stringify (first :: rest) /\
       cf_conflicts e
       = match conflictsOf stringify (fd_value first) rest with
         | [] => None
         | conflicts => Some conflicts
         end) /\
  (forall key data field,
     (key, Returned data) ∈ outcomes -> is_Some (own data !! field) ->
     exists e : ConsolidatedField V,
       consolidatedData run !! field = Some e /\ key ∈ cf_sources e) /\
  (forall key t field (e : ConsolidatedField V),
     (key, Threw t) ∈ outcomes ->
     consolidatedData run !! field = Some e -> key ∉ cf_sources e) /\
  (consolidatedData run = ∅
   <-> forall key data, (key, Returned data) ∈ outcomes -> own data = ∅).
Proof.
  intros run exifrObject outcomes.
  assert (Hexifr : exifrObject = or_empty Object_prototype exifrData)
    by (subst exifrObject; now destruct exifrData as [[data|]|t]).
  subst outcomes. rewrite Hexifr. clear Hexifr exifrObject.
  set (outcomes :=
         [ ("exifr"%string, or_empty Object_prototype exifrData);
           ("manual"%string, manualData);
           ("binary"%string, binaryData);
           ("xmp"%string, xmpData) ]).
  set (strategies :=
         [ ("exifr"%string, "ExifR"%string, "exifr"%string,
            "Unknown error"%string, or_empty Object_prototype exifrData);
           ("manual"%string, "Manual Parser"%string, "custom"%string,
            "Manual parsing failed"%string, manualData);
           ("binary"%string, "Binary Analysis"%string, "custom"%string,
            "Binary analysis failed"%string, binaryData);
           ("xmp"%string, "XMP Parser"%string, "custom"%string,
            "XMP extraction failed"%string, xmpData) ]).
  assert (Hsources : exifSources run = map entry_of strategies)
    by reflexivity.
  assert (Hdata : consolidatedData run
                  = consolidateExifData stringify (map entry_of strategies))
    by reflexivity.
  assert (Houtcomes : outcomes = map outcome_of strategies) by reflexivity.
  assert (Hentry : forall field (e : ConsolidatedField V),
            consolidatedData run !! field = Some e ->
            exists first rest,
              contributions outcomes field = first :: rest /\
              cf_value e = fd_value first /\
              cf_sources e = map fd_source (first :: rest) /\
              cf_confidence e
              = calculateFieldConfidence stringify (first :: rest) /\
              cf_conflicts e
              = match conflictsOf stringify (fd_value first) rest with
                | [] => None
                | conflicts => Some conflicts
                end).
  { intros field e He. rewrite Hdata in He.
    apply consolidateExifData_Some in He
      as (_ & first & rest & Hfd & Hval & Hsrc & Hconf & Hconfl).
    rewrite fieldDataOf_entries, <- Houtcomes in Hfd, Hsrc, Hconf.
    exists first, rest. rewrite <- Hfd.
    repeat (split; [assumption|]). rewrite Hconfl.
    now destruct (conflictsOf stringify (fd_value first) rest). }
  assert (Hheld : forall key data field,
            (key, Returned data) ∈ outcomes -> is_Some (own data !! field) ->
            exists e : ConsolidatedField V,
              consolidatedData run !! field = Some e /\ key ∈ cf_sources e).
  { intros key data field Hin [v Hv].
    assert (Hsome : is_Some (consolidatedData run !! field)).
    { rewrite Hdata. apply consolidateExifData_is_Some, reports_entries.
      exists key, data. rewrite <- Houtcomes. eauto. }
    destruct Hsome as [e He]. exists e. split; [exact He|].
    destruct (Hentry field e He) as (first & rest & Hc & _ & -> & _).
    rewrite <- Hc. apply list_elem_of_fmap. exists (mkDatum key v).
    split; [reflexivity|]. apply elem_of_contributions. exists data.
    split; [exact Hin | now apply prop_own]. }
  split; [|split; [exact Hentry | split; [exact Hheld | split]]].
  - eexists _, _, _, _. split; [reflexivity|].
    repeat split; apply run_strategy_recorded.
  - intros key t field e Hin He Hkey.
    destruct (Hentry field e He) as (first & rest & Hc & _ & Hsrc & _).
    rewrite Hsrc, <- Hc in Hkey.
    apply list_elem_of_fmap in Hkey as (d & -> & Hd).
    apply elem_of_contributions in Hd as (data & Hd & _).
    assert (Hnd : NoDup (outcomes.*1)).
    { change (NoDup ["exifr"; "manual"; "binary"; "xmp"]%string).
      apply (bool_decide_unpack _). vm_compute. exact I. }
    pose proof (key_unique outcomes _ _ _ Hnd Hin Hd). discriminate.
  - split.
    + intros Hempty key data Hin. apply map_empty. intros field.
      destruct (own data !! field) as [v|] eqn:Hv; [|reflexivity].
      destruct (Hheld key data field Hin) as (e & He & _); [eauto|].
      rewrite Hempty, lookup_empty in He. discriminate.
    + intros Hnone. apply map_eq. intros field.
      rewrite lookup_empty, Hdata, consolidateExifData_lookup.
      destruct (decide (field ∈ allFields (map entry_of strategies)))
        as [Hin | _]; [|reflexivity].
      apply elem_of_allFields, reports_entries in Hin
        as (key & data & Hin & [v Hv]).
      rewrite <- Houtcomes in Hin.
      rewrite (Hnone key data Hin), lookup_empty in Hv. discriminate.
Qed.

End StrategyIsolation.

(** *** Runs on concrete values *)

(** An object literal of the fragment. *)
Definition object_literal (properties : gmap string JsValue)
  : JsObject JsValue :=
  literal Object_prototype properties.

(** The primary parser and the XMP scanner agree on [Make]; the primary
    parser and the binary scanner disagree on [ISO]; the manual scanner
    throws. *)
Definition demo_run : Analysis JsValue :=
  analyzeWithMultipleLibraries JSON_stringify Object_prototype
    (Returned (Some (object_literal {[ "Make"%string := JStr "Canon";
                                       "ISO"%string := JNum 100 ]})))
    (Threw (ErrorObject "truncated segment"))
    (Returned (object_literal {[ "ISO"%string := JNum 200 ]}))
    (Returned (object_literal {[ "Make"%string := JStr "Canon" ]})).

Definition demo_make : ConsolidatedField JsValue :=
  {| cf_value := JStr "Canon";
     cf_sources := ["exifr"%string; "xmp"%string];
     cf_confidence := 100;
     cf_conflicts := None |}.

Definition demo_iso : ConsolidatedField JsValue :=
  {| cf_value := JNum 100;
     cf_sources := ["exifr"%string; "binary"%string];
     cf_confidence := 50;
     cf_conflicts := Some [mkDatum "binary"%string (JNum 200)] |}.

Lemma consolidated_confidence_witness :
  consolidateExifData JSON_stringify (exifSources demo_run) !! "ISO"%string
  = Some demo_iso /\
  cf_confidence demo_iso = 50%Z.
Proof.
  assert (H : consolidateExifData JSON_stringify (exifSources demo_run)
                !! "ISO"%string = Some demo_iso)
    by (vm_compute; reflexivity).
  assert (Hfew : length (cf_sources demo_iso) < 40) by (vm_compute; lia).
  split; [exact H|].
  refine (proj2 (proj2 (proj2 (proj2
            (consolidated_confidence JSON_stringify _ _ _ H Hfew))))
            (mkDatum "exifr"%string (JNum 100))
            (mkDatum "binary"%string (JNum 200)) _ _).
  - vm_compute. reflexivity.
  - vm_compute. discriminate.
Defined.

(** Forty strategies that all return [ISO], with 18 distinct values. *)
Definition forty_sources : list (string * ExifSource JsValue) :=
  map
    (fun i =>
       (("strategy" +:+ pretty i)%string,
        run_strategy Object_prototype "Strategy" "custom" "failed"
          (Returned
             (object_literal
                {[ "ISO"%string := JNum (Z.of_nat (Nat.min i 17)) ]}))))
    (seq 0 40).

(** C1, as stated, fails: with 40 pairs and 18 distinct serialized values
    the quotient 23/40 is rounded to a binary64 below it, the product is
    57.49999999999999 and not 57.5, and the confidence stored is 57 where
    [round(100 * 23 / 40)] is 58. *)
Lemma consolidated_confidence_counterexample :
  let fieldData := fieldDataOf forty_sources "ISO" in
  let serialized := map (fun d => JSON_stringify (fd_value d)) fieldData in
  let k := Z.of_nat (length fieldData) in
  let u := Z.of_nat (length (remove_dups serialized)) in
  exists e : ConsolidatedField JsValue,
    consolidateExifData JSON_stringify forty_sources !! "ISO"%string
    = Some e /\
    k = 40%Z /\ u = 18%Z /\
    cf_confidence e = 57%Z /\
    js_round (100 * inject_Z (k - u + 1) / inject_Z k) = 58%Z.
Proof.
  cbv zeta. eexists. split; [vm_compute; reflexivity|].
  repeat split; vm_compute; reflexivity.
Qed.

(** The run behind C2: the primary parser returns an object whose one
    property is named [toString], the manual scanner returns the empty
    object, the two other strategies throw. *)
Definition inherited_run : Analysis JsValue :=
  analyzeWithMultipleLibraries JSON_stringify Object_prototype
    (Returned (Some (object_literal {[ "toString"%string := JStr "x" ]})))
    (Returned (object_literal ∅))
    (Threw (ErrorObject "The requested file could not be read"))
    (Threw (ErrorObject "The requested file could not be read")).

(** C2.  Only the primary parser holds [toString], yet the manual
    scanner is listed as a source of the field and the function that its
    empty object inherits from [Object.prototype] is recorded as a
    conflict, with confidence 50. *)
Theorem consolidateExifData_lists_inherited_member :
  map (fun entry => (entry.1, src_status entry.2,
                     own (src_data entry.2) !! "toString"%string))
    (exifSources inherited_run)
  = [ ("exifr"%string, success, Some (JStr "x"));
      ("manual"%string, success, None);
      ("binary"%string, error, None);
      ("xmp"%string, error, None) ] /\
  consolidatedData inherited_run !! "toString"%string
  = Some {| cf_value := JStr "x";
            cf_sources := ["exifr"%string; "manual"%string];
            cf_confidence := 50;
            cf_conflicts :=
              Some [mkDatum "manual"%string (JFunction "toString")] |}.
Proof. split; vm_compute; reflexivity. Qed.

Lemma strategy_failures_are_isolated_witness :
  exists e : ConsolidatedField JsValue,
    consolidatedData demo_run !! "ISO"%string = Some e /\
    "binary"%string ∈ cf_sources e.
Proof.
  refine (proj1 (proj2 (proj2
            (strategy_failures_are_isolated JSON_stringify Object_prototype
               _ _ _ _)))
            "binary"%string
            (object_literal {[ "ISO"%string := JNum 200 ]})
            "ISO"%string _ _).
  - apply list_elem_of_further, list_elem_of_further, list_elem_of_here.
  - vm_compute. eauto.
Defined.

(** ** Entropy *)

(** Number of elements of [data] whose value is [i]. *)
Definition count_idx (i : nat) (data : list byte) : nat :=
  length (filter (fun x => Byte.to_nat x = i) data).

Lemma tally_lookup (data : list byte) :
  forall (freq : list nat) (i : nat),
    fold_left (fun f b => alter S (Byte.to_nat b) f) data freq !! i
    = (fun n => n + count_idx i data) <$> freq !! i.
Proof.
  induction data as [|a data IH]; intros freq i; cbn [fold_left].
  - unfold count_idx. simpl. destruct (freq !! i); simpl; f_equal; lia.
  - rewrite IH. unfold count_idx. rewrite filter_cons.
    destruct (decide (Byte.to_nat a = i)) as [-> | Hne].
    + rewrite list_lookup_alter_eq. destruct (freq !! _); simpl; f_equal. lia.
    + now rewrite list_lookup_alter_ne.
Qed.

Lemma tally_length (data : list byte) :
  forall freq : list nat,
    length (fold_left (fun f b => alter S (Byte.to_nat b) f) data freq)
    = length freq.
Proof.
  induction data as [|a data IH]; intros freq; cbn [fold_left];
    [reflexivity|].
  now rewrite IH, length_alter.
Qed.

Lemma frequency_length (data : list byte) : length (frequency data) = 256.
Proof. unfold frequency. now rewrite tally_length, length_replicate. Qed.

Lemma frequency_lookup (data : list byte) (i : nat) :
  i < 256 -> frequency data !! i = Some (count_idx i data).
Proof.
  intros Hi. unfold frequency.
  now rewrite tally_lookup, lookup_replicate_2 by exact Hi.
Qed.

Lemma to_nat_inj (a b : byte) : Byte.to_nat a = Byte.to_nat b -> a = b.
Proof.
  intros H. assert (Some a = Some b); [|congruence].
  now rewrite <- (Byte.of_to_nat a), <- (Byte.of_to_nat b), H.
Qed.

Lemma count_idx_byte (data : list byte) (b : byte) :
  count_idx (Byte.to_nat b) data = count_occ Byte.byte_eq_dec data b.
Proof.
  unfold count_idx. induction data as [|a data IH]; [reflexivity|].
  rewrite filter_cons. simpl count_occ.
  destruct (decide (Byte.to_nat a = Byte.to_nat b)) as [Heq | Hne];
    destruct (Byte.byte_eq_dec a b) as [Hab | Hab]; simpl.
  - now rewrite IH.
  - apply to_nat_inj in Heq. contradiction.
  - subst. contradiction.
  - exact IH.
Qed.

Lemma sum_list_alter_S (l : list nat) :
  forall i : nat, i < length l -> sum_list (alter S i l) = S (sum_list l).
Proof.
  induction l as [|x l IH]; intros i Hi; simpl in Hi; [lia|].
  destruct i as [|i]; [reflexivity|].
  change (alter S (S i) (x :: l)) with (x :: alter S i l).
  cbn [sum_list sum_list_with]. rewrite IH by lia. lia.
Qed.

Lemma tally_sum (data : list byte) :
  forall freq : list nat,
    length freq = 256 ->
    sum_list (fold_left (fun f b => alter S (Byte.to_nat b) f) data freq)
    = sum_list freq + length data.
Proof.
  induction data as [|a data IH]; intros freq Hlen; cbn [fold_left].
  - simpl. lia.
  - rewrite IH by now rewrite length_alter.
    rewrite sum_list_alter_S; [simpl; lia|].
    pose proof (Byte.to_nat_bounded a). lia.
Qed.

Lemma frequency_sum (data : list byte) :
  sum_list (frequency data) = length data.
Proof.
  unfold frequency. rewrite tally_sum by apply length_replicate.
  rewrite sum_list_replicate. lia.
Qed.

(** When every byte value occurs [m] times, the table holds [m]
    everywhere and the buffer has [256 * m] bytes. *)
Lemma frequency_uniform (data : list byte) (m : nat) :
  (forall b : byte, count_occ Byte.byte_eq_dec data b = m) ->
  frequency data = replicate 256 m /\ length data = 256 * m.
Proof.
  intros Hm.
  assert (Hfreq : frequency data = replicate 256 m).
  { apply list_eq. intros i. destruct (Nat.lt_ge_cases i 256) as [Hi | Hi].
    - rewrite frequency_lookup, lookup_replicate_2 by exact Hi. f_equal.
      pose proof (Byte.to_of_nat_option_map i) as Hof.
      destruct (Nat.leb_spec i 255); [|lia].
      destruct (Byte.of_nat i) as [b|]; [|discriminate].
      assert (Hb : Byte.to_nat b = i) by (simpl in Hof; congruence).
      clear Hof. subst i. rewrite count_idx_byte. apply Hm.
    - rewrite !lookup_ge_None_2;
        [reflexivity | now rewrite length_replicate
                     | now rewrite frequency_length]. }
  split; [exact Hfreq|].
  now rewrite <- frequency_sum, Hfreq, sum_list_replicate.
Qed.

Lemma count_idx_constant (data : list byte) (b : byte) (i : nat) :
  Forall (fun x => x = b) data ->
  count_idx i data = if decide (i = Byte.to_nat b) then length data else 0.
Proof.
  unfold count_idx. induction 1 as [|x data -> _ IH]; simpl.
  - now destruct (decide (i = Byte.to_nat b)).
  - rewrite filter_cons.
    destruct (decide (Byte.to_nat b = i)) as [<- | Hne].
    + rewrite decide_True in * by reflexivity. simpl. now rewrite IH.
    + rewrite decide_False in * by congruence. exact IH.
Qed.

Lemma log2_1 : log2 1 = 0%R.
Proof. unfold log2. rewrite ln_1. unfold Rdiv. ring. Qed.

Lemma ln_2_neq_0 : ln 2 <> 0%R.
Proof. pose proof ln_lt_2. lra. Qed.

Lemma log2_256 : log2 (/ 256) = (- 8)%R.
Proof.
  unfold log2. rewrite ln_Rinv by lra.
  replace 256%R with (2 ^ 8)%R by (simpl; ring).
  rewrite ln_pow by lra. simpl INR. field. exact ln_2_neq_0.
Qed.

(** Entries that are 0 or the whole length leave the sum unchanged. *)
Lemma entropy_fold_degenerate (len : nat) (freqs : list nat) :
  Forall (fun f => f = 0 \/ f = len) freqs ->
  forall acc : R, fold_left (entropy_step len) freqs acc = acc.
Proof.
  induction 1 as [|f freqs Hf _ IH]; intros acc; cbn [fold_left];
    [reflexivity|].
  rewrite IH. unfold entropy_step.
  destruct (Nat.ltb_spec 0 f) as [Hpos | _]; [|reflexivity].
  destruct Hf as [-> | ->]; [lia|].
  assert (INR len <> 0%R) by (apply not_0_INR; lia).
  replace (INR len / INR len)%R with 1%R by (field; assumption).
  rewrite log2_1. ring.
Qed.

(** [n] entries equal to [m], in a buffer of [256 * m] bytes, add
    [n / 32] bits. *)
Lemma entropy_fold_uniform (m n : nat) :
  0 < m ->
  forall acc : R,
    fold_left (entropy_step (256 * m)) (replicate n m) acc
    = (acc + INR n / 32)%R.
Proof.
  intros Hm. induction n as [|n IH]; intros acc.
  - simpl. unfold Rdiv. ring.
  - cbn [replicate fold_left]. rewrite IH, S_INR. unfold entropy_step.
    destruct (Nat.ltb_spec 0 m) as [_ | ?]; [|lia].
    assert (INR m <> 0%R) by (apply not_0_INR; lia).
    replace (INR m / INR (256 * m))%R with (/ 256)%R.
    + rewrite log2_256. field.
    + rewrite mult_INR.
      replace (INR 256) with 256%R by (rewrite INR_IZR_INZ; reflexivity).
      field. assumption.
Qed.

Lemma calculateEntropy_constant (data : list byte) (b : byte) :
  Forall (fun x => x = b) data -> calculateEntropy data = 0%R.
Proof.
  intros Hall. unfold calculateEntropy. apply entropy_fold_degenerate.
  apply Forall_lookup. intros i f Hi.
  assert (Hlt : i < 256).
  { rewrite <- (frequency_length data). eapply lookup_lt_Some, Hi. }
  rewrite frequency_lookup in Hi by exact Hlt. inversion Hi; subst.
  rewrite (count_idx_constant data b i Hall).
  destruct (decide (i = Byte.to_nat b)); auto.
Qed.

Lemma calculateEntropy_uniform (data : list byte) (m : nat) :
  0 < m ->
  (forall b : byte, count_occ Byte.byte_eq_dec data b = m) ->
  calculateEntropy data = 8%R.
Proof.
  intros Hm Hall. destruct (frequency_uniform data m Hall) as [Hfreq Hlen].
  unfold calculateEntropy. rewrite Hfreq, Hlen.
  rewrite entropy_fold_uniform by exact Hm.
  replace (INR 256) with 256%R by (rewrite INR_IZR_INZ; reflexivity).
  field.
Qed.

(** The analyzer of the rendered rows tallies the bytes that were
    rendered. *)
Lemma byte_index_octet (b : byte) :
  byte_index (Some (Z.of_N (Byte.to_N b))) = Some (Byte.to_nat b).
Proof. destruct b; reflexivity. Qed.

Lemma frequencyOf_octets (data : list byte) :
  frequencyOf (map (fun b => Some (Z.of_N (Byte.to_N b))) data)
  = frequency data.
Proof.
  unfold frequencyOf, frequency. generalize (replicate 256 0).
  induction data as [|b data IH]; intros freq; [reflexivity|].
  cbn [map fold_left]. rewrite byte_index_octet. apply IH.
Qed.

Lemma entropyAnalysis_rendered (data : list byte) :
  ea_entropy (entropyAnalysis (generateHexDump data)) = calculateEntropy data.
Proof.
  unfold entropyAnalysis. cbn [ea_entropy].
  rewrite hexToBytes_generateHexDump, frequencyOf_octets, length_map.
  reflexivity.
Qed.

Lemma entropyAnalysis_empty :
  ea_entropy (entropyAnalysis []) = 0%R /\
  ea_suspiciousAreas (entropyAnalysis []) = [].
Proof.
  split.
  - rewrite <- (calculateEntropy_constant [] x00 (List.Forall_nil _)).
    apply (entropyAnalysis_rendered []).
  - unfold entropyAnalysis. cbn [ea_suspiciousAreas]. reflexivity.
Qed.

(** C7. On the reals, the entropy of a buffer whose bytes are all the
    same is 0, the entropy of a buffer in which each of the 256 byte values
    occurs equally often is 8, and the empty buffer has entropy 0 and no
    chunk entry; the same holds of the analysis of the rendered rows. *)
Theorem entropy_extremes :
  (forall (b : byte) (data : list byte),
     Forall (fun x => x = b) data ->
     calculateEntropy data = 0%R /\
     ea_entropy (entropyAnalysis (generateHexDump data)) = 0%R) /\
  (forall (data : list byte) (m : nat),
     0 < m ->
     (forall b : byte, count_occ Byte.byte_eq_dec data b = m) ->
     calculateEntropy data = 8%R /\
     ea_entropy (entropyAnalysis (generateHexDump data)) = 8%R) /\
  (calculateEntropy [] = 0%R /\
   ea_entropy (entropyAnalysis []) = 0%R /\
   ea_suspiciousAreas (entropyAnalysis []) = []).
Proof.
  split; [|split].
  - intros b data Hall. rewrite entropyAnalysis_rendered.
    split; apply (calculateEntropy_constant data b Hall).
  - intros data m Hm Hall. rewrite entropyAnalysis_rendered.
    split; apply (calculateEntropy_uniform data m Hm Hall).
  - split; [apply (calculateEntropy_constant [] x00); constructor|].
    apply entropyAnalysis_empty.
Qed.

(** Every byte value once, in increasing order. *)
Definition all_bytes : list byte := omap Byte.of_nat (seq 0 256).

Lemma entropy_extremes_witness :
  calculateEntropy (repeat x41 5) = 0%R /\
  calculateEntropy (all_bytes ++ all_bytes) = 8%R.
Proof.
  assert (H1 : Forall (fun x => x = x41) (repeat x41 5))
    by (repeat constructor).
  assert (H2 : forall b : byte,
             count_occ Byte.byte_eq_dec (all_bytes ++ all_bytes) b = 2)
    by (intros b; destruct b; vm_compute; reflexivity).
  split.
  - exact (proj1 (proj1 entropy_extremes x41 _ H1)).
  - exact (proj1 (proj1 (proj2 entropy_extremes) _ 2 ltac:(lia) H2)).
Defined.

(** ** Error-level comparator *)

Lemma Qlt_bool_iff (a b : Q) : Qlt_bool a b = true <-> (a < b)%Q.
Proof.
  unfold Qlt_bool. rewrite negb_true_iff. split.
  - intros H. apply Qnot_le_lt. intros Hle.
    apply Qle_bool_iff in Hle. congruence.
  - intros H. destruct (Qle_bool b a) eqn:E; [|reflexivity].
    apply Qle_bool_iff in E. exfalso. eapply Qlt_not_le; eassumption.
Qed.

Lemma Qlt_bool_false (a b : Q) : Qlt_bool a b = false <-> (b <= a)%Q.
Proof.
  unfold Qlt_bool. rewrite negb_false_iff. apply Qle_bool_iff.
Qed.

(** The four tiers of the narrative. *)
Lemma verdict_tiers (score : Q) :
  ((score < 10)%Q ->
   ELA.verdict score
   = "Low manipulation probability. Image appears authentic."%string) /\
  ((10 <= score)%Q -> (score < 30)%Q ->
   ELA.verdict score
   = "Moderate manipulation probability. Some areas may have been edited."%string) /\
  ((30 <= score)%Q -> (score < 60)%Q ->
   ELA.verdict score
   = "High manipulation probability. Significant editing detected."%string) /\
  ((60 <= score)%Q ->
   ELA.verdict score
   = "Very high manipulation probability. Extensive editing detected."%string).
Proof.
  unfold ELA.verdict. repeat split.
  - intros H. apply Qlt_bool_iff in H. now rewrite H.
  - intros H1 H2. apply Qlt_bool_false in H1. apply Qlt_bool_iff in H2.
    now rewrite H1, H2.
  - intros H1 H2.
    assert (H0 : (10 <= score)%Q) by (eapply Qle_trans; [|exact H1]; discriminate).
    apply Qlt_bool_false in H0, H1. apply Qlt_bool_iff in H2.
    now rewrite H0, H1, H2.
  - intros H1.
    assert (H30 : (30 <= score)%Q) by (eapply Qle_trans; [|exact H1]; discriminate).
    assert (H10 : (10 <= score)%Q) by (eapply Qle_trans; [|exact H1]; discriminate).
    apply Qlt_bool_false in H10, H30, H1.
    now rewrite H10, H30, H1.
Qed.

(** The score is [min(100, mean / 50 * 100)], the mean being the total of
    the per-pixel differences over the number of pixels. *)
Lemma overallScore_formula (w h : nat) (threshold : Z)
    (originalData compressedData : list Z) :
  let acc :=
    ELA.pixel_loop (length originalData) originalData compressedData 0
      (ELA.mkAcc 0 0 []) in
  let mean :=
    (ELA.totalDifference acc
     / inject_Z (Z.of_nat (length originalData / 4)))%Q in
  let result := ELA.performELA w h threshold originalData compressedData in
  ELA.overallScore result = Qmin 100 ((mean / 50) * 100) /\
  ELA.analysis result = ELA.verdict (ELA.overallScore result).
Proof. split; reflexivity. Qed.

(** The pixel loop adds up the average difference of every pixel. *)
Lemma pixel_loop_total (original compressed : list Z) (fuel : nat) :
  forall (i : nat) (acc : ELA.Acc),
    length original <= i + 4 * fuel ->
    (ELA.totalDifference (ELA.pixel_loop fuel original compressed i acc)
     == ELA.totalDifference acc
        + fold_right Qplus 0
            (map (fun p => ELA.avgDiff original compressed (i + 4 * p))
               (seq 0 ((length original - i + 3) / 4))))%Q.
Proof.
  induction fuel as [|f IH]; intros i acc Hfuel; cbn [ELA.pixel_loop].
  - replace (length original - i + 3) with 3 by lia.
    change (3 / 4) with 0. simpl. ring.
  - destruct (Nat.ltb_spec i (length original)) as [Hlt | Hge].
    + rewrite IH by lia. cbn [ELA.totalDifference].
      assert (E : (length original - i + 3) / 4
                  = S ((length original - (i + 4) + 3) / 4)).
      { destruct (Nat.le_gt_cases 4 (length original - i)) as [Hbig | Hsmall].
        - replace (length original - i + 3)
            with (1 * 4 + (length original - (i + 4) + 3)) by lia.
          now rewrite Nat.div_add_l by lia.
        - replace (length original - (i + 4) + 3) with 3 by lia.
          change (3 / 4) with 0.
          assert (length original - i + 3
                  = 1 * 4 + (length original - i - 1)) as -> by lia.
          rewrite Nat.div_add_l, Nat.div_small by lia. reflexivity. }
      rewrite E. cbn [seq map fold_right]. rewrite Nat.add_0_r.
      rewrite <- seq_shift, map_map.
      rewrite (map_ext
                 (fun p => ELA.avgDiff original compressed (i + 4 * S p))
                 (fun p => ELA.avgDiff original compressed (i + 4 + 4 * p)))
        by (intros p; f_equal; lia).
      ring.
    + replace (length original - i + 3) with 3 by lia.
      change (3 / 4) with 0. simpl. ring.
Qed.

(** Every block that is examined lies strictly inside the canvas: a block
    whose right or bottom edge is the edge of the image is never
    reported. *)
Lemma x_loop_areas (w : nat) (canvas : list Z) (threshold : Z) (by_ : nat)
    (fuel : nat) :
  forall (bx : nat) (a : ELA.Area),
    In a (ELA.x_loop fuel w canvas threshold by_ bx) ->
    ELA.y a = by_ /\ bx <= ELA.x a /\ ELA.x a + 32 < w /\
    ELA.width a = 32 /\ ELA.height a = 32.
Proof.
  induction fuel as [|f IH]; intros bx a Hin; cbn [ELA.x_loop] in Hin;
    [contradiction|].
  destruct (Z.ltb_spec (Z.of_nat bx) (Z.of_nat w - Z.of_nat ELA.blockSize))
    as [Hlt | Hge]; [|contradiction].
  unfold ELA.blockSize in *.
  apply in_app_or in Hin as [Hin | Hin].
  - destruct (Qlt_bool _ _); [|contradiction].
    destruct Hin as [<- | []]. simpl. lia.
  - apply IH in Hin. lia.
Qed.

Lemma y_loop_areas (w h : nat) (canvas : list Z) (threshold : Z)
    (fuel : nat) :
  forall (by_ : nat) (a : ELA.Area),
    In a (ELA.y_loop fuel w h canvas threshold by_) ->
    ELA.x a + 32 < w /\ ELA.y a + 32 < h /\
    ELA.width a = 32 /\ ELA.height a = 32.
Proof.
  induction fuel as [|f IH]; intros by_ a Hin; cbn [ELA.y_loop] in Hin;
    [contradiction|].
  destruct (Z.ltb_spec (Z.of_nat by_) (Z.of_nat h - Z.of_nat ELA.blockSize))
    as [Hlt | Hge]; [|contradiction].
  unfold ELA.blockSize in *.
  apply in_app_or in Hin as [Hin | Hin].
  - apply x_loop_areas in Hin. lia.
  - now apply IH in Hin.
Qed.

Lemma performELA_areas_inside (w h : nat) (threshold : Z)
    (originalData compressedData : list Z) (a : ELA.Area) :
  In a (ELA.suspiciousAreas
          (ELA.performELA w h threshold originalData compressedData)) ->
  ELA.x a + ELA.width a < w /\ ELA.y a + ELA.height a < h.
Proof.
  unfold ELA.performELA. cbn [ELA.suspiciousAreas]. intros Hin.
  apply y_loop_areas in Hin. lia.
Qed.

(** A buffer of [pixels] opaque pixels of one grey level. *)
Definition solid (v : Z) (pixels : nat) : list Z :=
  concat (repeat [v; v; v; 255%Z] pixels).

(** C8. A 32 by 32 image whose every pixel differs by 255 on every
    channel: the score is 100, the verdict the highest tier, the one
    32 by 32 block of the image has mean amplified difference 255, above
    the threshold 15, and no block is reported. *)
Theorem performELA_edge_blocks_skipped :
  let original := solid 255 (32 * 32) in
  let compressed := solid 0 (32 * 32) in
  let acc :=
    ELA.pixel_loop (length original) original compressed 0
      (ELA.mkAcc 0 0 []) in
  let result := ELA.performELA 32 32 15 original compressed in
  Qred (ELA.blockAvg 32 (ELA.elaData acc) 0 0) = 255%Q /\
  Qred (ELA.overallScore result) = 100%Q /\
  ELA.analysis result
  = "Very high manipulation probability. Extensive editing detected."%string /\
  ELA.suspiciousAreas result = [].
Proof. vm_compute. repeat split. Qed.

(** ** Batch summary *)

Import Batch.

(** The order of JavaScript strings on 8-bit characters. *)
Lemma string_compare_refl (s : string) : String.compare s s = Eq.
Proof.
  induction s as [|c s IH]; [reflexivity|]. simpl.
  unfold Ascii.compare. now rewrite N.compare_refl.
Qed.

Lemma string_lt_trans (a : string) :
  forall b c : string,
    String.compare a b = Lt -> String.compare b c = Lt ->
    String.compare a c = Lt.
Proof.
  induction a as [|x a IH]; intros [|y b] [|z c]; simpl; try congruence.
  unfold Ascii.compare.
  destruct (N.compare_spec (N_of_ascii x) (N_of_ascii y)) as [Exy|Lxy|Gxy];
    destruct (N.compare_spec (N_of_ascii y) (N_of_ascii z)) as [Eyz|Lyz|Gyz];
    try congruence; intros Hab Hbc.
  - rewrite Exy, Eyz, N.compare_refl. eapply IH; eassumption.
  - rewrite Exy. now apply N.compare_lt_iff in Lyz as ->.
  - rewrite <- Eyz. now apply N.compare_lt_iff in Lxy as ->.
  - assert (H : (N_of_ascii x < N_of_ascii z)%N) by lia.
    now apply N.compare_lt_iff in H as ->.
Qed.

Lemma ltb_irrefl (s : string) : String.ltb s s = false.
Proof. unfold String.ltb. now rewrite string_compare_refl. Qed.

Lemma ltb_trans (a b c : string) :
  String.ltb a b = true -> String.ltb b c = true -> String.ltb a c = true.
Proof.
  unfold String.ltb. intros Hab Hbc.
  destruct (String.compare a b) eqn:Eab; try discriminate.
  destruct (String.compare b c) eqn:Ebc; try discriminate.
  now rewrite (string_lt_trans a b c Eab Ebc).
Qed.

(** The metadata of the results that the loop body looks at: status
    ['success'] and [exifData] set. *)
Definition contributing (r : FileResult) : option ExifData :=
  match status r with
  | success => exifData r
  | _ => None
  end.

Definition located (e : ExifData) : bool :=
  truthy_num (latitude e) && truthy_num (longitude e).

Lemma summary_fold (results : list FileResult) :
  forall s0 : Summary,
    fold_left summary_step results s0
    = fold_left absorb (omap contributing results) s0.
Proof.
  induction results as [|r results IH]; intros s0; [reflexivity|].
  cbn [fold_left]. rewrite IH.
  change (omap contributing (r :: results))
    with (match contributing r with
          | Some e => e :: omap contributing results
          | None => omap contributing results
          end).
  unfold summary_step. unfold contributing at 2.
  destruct (status r); try reflexivity.
  destruct (exifData r); reflexivity.
Qed.

Lemma absorb_counts (metas : list ExifData) :
  forall s0 : Summary,
    totalFiles (fold_left absorb metas s0) = totalFiles s0 /\
    successful (fold_left absorb metas s0) = successful s0 /\
    errors (fold_left absorb metas s0) = errors s0.
Proof.
  induction metas as [|e metas IH]; intros s0; [auto|].
  cbn [fold_left]. destruct (IH (absorb s0 e)) as (-> & -> & ->). auto.
Qed.

Lemma absorb_withGPS (metas : list ExifData) :
  forall s0 : Summary,
    withGPS (fold_left absorb metas s0)
    = withGPS s0 + length (filter (fun e => located e = true) metas).
Proof.
  induction metas as [|e metas IH]; intros s0; cbn [fold_left].
  - simpl. lia.
  - rewrite IH, filter_cons. unfold absorb. cbn [withGPS].
    fold (located e). destruct (decide (located e = true)) as [H | H].
    + rewrite H. cbn [length]. lia.
    + apply not_true_is_false in H. rewrite H. lia.
Qed.

Lemma absorb_cameras (metas : list ExifData) (key : string) :
  forall s0 : Summary,
    cameras (fold_left absorb metas s0) !! key
    = match length (filter (fun e => camera_of e = key) metas) with
      | O => cameras s0 !! key
      | S n => Some (default 0 (cameras s0 !! key) + S n)
      end.
Proof.
  induction metas as [|e metas IH]; intros s0; cbn [fold_left];
    [reflexivity|].
  rewrite IH, filter_cons. unfold absorb. cbn [cameras].
  destruct (decide (camera_of e = key)) as [-> | Hne].
  - rewrite lookup_insert_eq. cbn [length default].
    destruct (length (filter _ metas)); cbv [Datatypes.id];
      apply f_equal; lia.
  - now rewrite lookup_insert_ne.
Qed.

Lemma absorb_dates (metas : list ExifData) :
  forall s0 : Summary,
    earliest (fold_left absorb metas s0)
    = fold_left earlier (omap date_of metas) (earliest s0) /\
    latest (fold_left absorb metas s0)
    = fold_left later (omap date_of metas) (latest s0).
Proof.
  induction metas as [|e metas IH]; intros s0; [auto|].
  cbn [fold_left]. destruct (IH (absorb s0 e)) as [-> ->].
  change (omap date_of (e :: metas))
    with (match date_of e with
          | Some d => d :: omap date_of metas
          | None => omap date_of metas
          end).
  unfold absorb. cbn [earliest latest].
  destruct (date_of e); auto.
Qed.

Lemma date_of_nonempty (e : ExifData) (d : string) :
  date_of e = Some d -> d <> ""%string.
Proof.
  unfold date_of. destruct (truthy_str _) eqn:Ht; [|discriminate].
  intros H. rewrite H in Ht. simpl in Ht.
  intros ->. discriminate.
Qed.

(** *** The running minimum and maximum *)

Section Extremum.
Variable lt : string -> string -> bool.
Hypothesis lt_irrefl : forall a, lt a a = false.
Hypothesis lt_trans :
  forall a b c, lt a b = true -> lt b c = true -> lt a c = true.
Hypothesis lt_total : forall a b, lt a b = false -> lt b a = false -> a = b.

(** [if (!current || lt dateStr current) current = dateStr] *)
Definition pick (current : option string) (dateStr : string)
  : option string :=
  if negb (truthy_str current)
     || match current with Some c => lt dateStr c | None => false end
  then Some dateStr else current.

Lemma not_lt_trans (a b c : string) :
  lt a b = false -> lt b c = false -> lt a c = false.
Proof.
  intros Hab Hbc. destruct (lt a c) eqn:Hac; [|reflexivity].
  destruct (lt b a) eqn:Hba.
  - now rewrite (lt_trans b a c Hba Hac) in Hbc.
  - rewrite (lt_total a b Hab Hba) in Hac. congruence.
Qed.

Lemma pick_fold (dates : list string) :
  forall current : option string,
    Forall (fun d => d <> ""%string) dates ->
    (forall c, current = Some c -> c <> ""%string) ->
    match fold_left pick dates current with
    | None => current = None /\ dates = []
    | Some d =>
        (current = Some d \/ d ∈ dates) /\ d <> ""%string /\
        (forall c, current = Some c -> lt c d = false) /\
        (forall d', d' ∈ dates -> lt d' d = false)
    end.
Proof.
  induction dates as [|x dates IH]; intros current Hdates Hcur;
    cbn [fold_left].
  - destruct current as [c|]; [|auto].
    repeat split; auto.
    + intros c' [= <-]. apply lt_irrefl.
    + intros d' Hd'. now apply not_elem_of_nil in Hd'.
  - inversion Hdates as [|? ? Hx Hrest]; subst.
    assert (Hpick : exists m,
               pick current x = Some m /\ m <> ""%string /\
               (m = x \/ current = Some m) /\
               (forall c, current = Some c -> lt c m = false) /\
               lt x m = false).
    { unfold pick. destruct current as [c|]; simpl.
      - assert (Hc : c <> ""%string) by now apply Hcur.
        apply String.eqb_neq in Hc. rewrite Hc. simpl.
        destruct (lt x c) eqn:Hxc.
        + exists x. split; [reflexivity|]. split; [exact Hx|].
          split; [now left|]. split; [|apply lt_irrefl].
          intros c' [= <-]. destruct (lt c x) eqn:Hcx; [|reflexivity].
          pose proof (lt_irrefl x) as Hxx.
          now rewrite (lt_trans x c x Hxc Hcx) in Hxx.
        + exists c. split; [reflexivity|].
          split; [now apply String.eqb_neq|]. split; [now right|].
          split; [|exact Hxc]. intros c' [= <-]. apply lt_irrefl.
      - exists x. split; [reflexivity|]. split; [exact Hx|].
        split; [now left|]. split; [discriminate | apply lt_irrefl]. }
    destruct Hpick as (m & Hm & Hne & Horigin & Hbelow & Hxm).
    rewrite Hm. specialize (IH (Some m) Hrest).
    destruct (fold_left pick dates (Some m)) as [d|].
    + destruct IH as (Hd & Hdne & Hmd & Hall); [congruence|].
      specialize (Hmd m eq_refl).
      split; [|split; [exact Hdne | split]].
      * destruct Hd as [[= <-] | Hd].
        -- destruct Horigin as [-> | ->];
             [right; apply list_elem_of_here | now left].
        -- right. now apply list_elem_of_further.
      * intros c Hc. eapply not_lt_trans; [now apply Hbelow | exact Hmd].
      * intros d' Hd'. apply elem_of_cons in Hd' as [-> | Hd'];
          [eapply not_lt_trans; eassumption | now apply Hall].
    + destruct IH as [? _]; [congruence | discriminate].
Qed.

End Extremum.

Lemma ltb_total (a b : string) :
  String.ltb a b = false -> String.ltb b a = false -> a = b.
Proof.
  unfold String.ltb. rewrite (String.compare_antisym b a).
  destruct (String.compare a b) eqn:E; simpl; try discriminate.
  intros _ _. now apply String.compare_eq_iff.
Qed.

Lemma earlier_fold (dates : list string) :
  Forall (fun d => d <> ""%string) dates ->
  match fold_left earlier dates None with
  | None => dates = []
  | Some d => d ∈ dates /\ forall d', d' ∈ dates -> String.ltb d' d = false
  end.
Proof.
  intros Hdates.
  pose proof (pick_fold String.ltb ltb_irrefl ltb_trans ltb_total dates None
                Hdates ltac:(discriminate)) as H.
  change (fold_left (pick String.ltb) dates None)
    with (fold_left earlier dates None) in H.
  destruct (fold_left earlier dates None) as [d|]; [|tauto].
  destruct H as ([? | ?] & _ & _ & ?); [discriminate | auto].
Qed.

Lemma later_fold (dates : list string) :
  Forall (fun d => d <> ""%string) dates ->
  match fold_left later dates None with
  | None => dates = []
  | Some d => d ∈ dates /\ forall d', d' ∈ dates -> String.ltb d d' = false
  end.
Proof.
  intros Hdates.
  pose proof (pick_fold (fun a b => String.ltb b a)
                ltb_irrefl
                (fun a b c Hab Hbc => ltb_trans c b a Hbc Hab)
                (fun a b Hab Hba => ltb_total a b Hba Hab)
                dates None Hdates ltac:(discriminate)) as H.
  change (fold_left (pick (fun a b => String.ltb b a)) dates None)
    with (fold_left later dates None) in H.
  destruct (fold_left later dates None) as [d|]; [|tauto].
  destruct H as ([? | ?] & _ & _ & ?); [discriminate | auto].
Qed.

(** *** The summary *)

Definition canon_r5 (date : option string) (lat lon : option Q) : ExifData :=
  mkExif lat lon (Some "Canon"%string) (Some "EOS R5"%string) date None.

Definition nikon_z9 : ExifData :=
  mkExif (Some (486 # 10)) (Some (23 # 10)) (Some "Nikon"%string)
    (Some "Z9"%string) None (Some "2023:11:05 08:30:00"%string).

(** Three successful files: two taken with a Canon EOS R5, one with a
    Nikon Z9. *)
Definition three_files : list FileResult :=
  [ mkFileResult "a.jpg" success
      (Some (canon_r5 (Some "2024:03:01 10:00:00"%string)
               (Some (515 # 10)) (Some (- (1 # 10))%Q))) None;
    mkFileResult "b.jpg" success (Some (canon_r5 None None None)) None;
    mkFileResult "c.jpg" success (Some nikon_z9) None ].

(** A photograph taken on the equator, and a successful file in which the
    parser found no metadata at all. *)
Definition equator_file : FileResult :=
  mkFileResult "equator.jpg" success
    (Some (canon_r5 (Some "2024:03:01 10:00:00"%string)
             (Some 0%Q) (Some (325 # 10)))) None.

Definition bare_file : FileResult :=
  mkFileResult "screenshot.png" success None None.

(** The reading of the claim: a file has GPS coordinates when both are
    present, and it misses its make or model when either is absent. *)
Definition gps_present (r : FileResult) : bool :=
  match status r, exifData r with
  | success, Some e =>
      bool_decide (is_Some (latitude e)) && bool_decide (is_Some (longitude e))
  | success, None => false
  | _, _ => false
  end.

Definition lacks_camera (r : FileResult) : bool :=
  match status r, exifData r with
  | success, Some e =>
      negb (bool_decide (is_Some (Make e)) && bool_decide (is_Some (Model e)))
  | success, None => true
  | _, _ => false
  end.

(** C9, as stated, fails: the file on the equator has both coordinates
    and is not counted, and the file without metadata lacks make and model
    and is not bucketed under ["Unknown"]. *)
Lemma generateBatchSummary_counterexample :
  let results := [equator_file; bare_file] in
  let summary := generateBatchSummary results in
  withGPS summary <> length (filter (fun r => gps_present r = true) results) /\
  cameras summary !! "Unknown"%string
  <> Some (length (filter (fun r => lacks_camera r = true) results)).
Proof. split; vm_compute; discriminate. Qed.

(** C9, amended. Over the successful results that carry metadata, the
    summary counts those whose latitude and longitude are both truthy
    (present and not zero), tallies the cameras under ["Make Model"], or
    under ["Unknown"] when the make or the model is absent or empty, and
    keeps as earliest and latest the least and the greatest non-empty date
    text in the order of JavaScript strings. *)
Theorem generateBatchSummary_spec (results : list FileResult) :
  let summary := generateBatchSummary results in
  let metas := omap contributing results in
  let dates := omap date_of metas in
  totalFiles summary = length results /\
  successful summary
  = length (filter (fun r => status r = success) results) /\
  errors summary = length (filter (fun r => status r = error) results) /\
  withGPS summary = length (filter (fun e => located e = true) metas) /\
  (forall key : string,
     cameras summary !! key
     = match length (filter (fun e => camera_of e = key) metas) with
       | O => None
       | S n => Some (S n)
       end) /\
  (forall e mk md,
     Make e = Some mk -> Model e = Some md ->
     mk <> ""%string -> md <> ""%string ->
     camera_of e = mk +:+ " " +:+ md) /\
  (forall e,
     Make e = None \/ Make e = Some ""%string \/
     Model e = None \/ Model e = Some ""%string ->
     camera_of e = "Unknown"%string) /\
  match earliest summary with
  | None => dates = []
  | Some d => d ∈ dates /\ forall d', d' ∈ dates -> String.ltb d' d = false
  end /\
  match latest summary with
  | None => dates = []
  | Some d => d ∈ dates /\ forall d', d' ∈ dates -> String.ltb d d' = false
  end /\
  cameras (generateBatchSummary three_files)
  = {[ "Canon EOS R5"%string := 2; "Nikon Z9"%string := 1 ]}.
Proof.
  intros summary metas dates. subst summary. unfold generateBatchSummary.
  rewrite summary_fold. fold metas.
  set (s0 := {| totalFiles := length results |}).
  destruct (absorb_counts metas s0) as (-> & -> & ->).
  destruct (absorb_dates metas s0) as [-> ->]. fold dates.
  assert (Hdates : Forall (fun d => d <> ""%string) dates).
  { apply Forall_forall. intros d Hd. subst dates.
    apply list_elem_of_omap in Hd as (e & _ & He).
    eapply date_of_nonempty, He. }
  split; [reflexivity|].
  split; [subst s0; cbn [successful]; f_equal; apply list_filter_iff;
          intros r; unfold is_status; apply bool_decide_eq_true|].
  split; [subst s0; cbn [errors]; f_equal; apply list_filter_iff;
          intros r; unfold is_status; apply bool_decide_eq_true|].
  split; [now rewrite absorb_withGPS|].
  split; [intros key; rewrite absorb_cameras; subst s0; cbn [cameras];
          rewrite lookup_empty; reflexivity|].
  split.
  { intros e mk md HMake HModel Hmk Hmd. unfold camera_of.
    rewrite HMake, HModel. simpl.
    apply String.eqb_neq in Hmk, Hmd. now rewrite Hmk, Hmd. }
  split.
  { intros e H. unfold camera_of.
    destruct (Make e) as [mk|]; [|reflexivity].
    destruct (Model e) as [md|]; [|reflexivity]. simpl.
    destruct H as [H | [[= ->] | [H | [= ->]]]]; try discriminate.
    - reflexivity.
    - now rewrite andb_false_r. }
  split; [apply (earlier_fold dates Hdates)|].
  split; [apply (later_fold dates Hdates)|].
  vm_compute. reflexivity.
Qed.

Lemma generateBatchSummary_spec_witness :
  withGPS (generateBatchSummary three_files) = 2 /\
  earliest (generateBatchSummary three_files)
  = Some "2023:11:05 08:30:00"%string /\
  forall d',
    d' ∈ omap date_of (omap contributing three_files) ->
    String.ltb d' "2023:11:05 08:30:00" = false.
Proof.
  pose proof (generateBatchSummary_spec three_files) as H.
  cbv zeta in H.
  destruct H as (_ & _ & _ & Hgps & _ & _ & _ & Hearly & _).
  split; [exact Hgps|].
  change (earliest (generateBatchSummary three_files))
    with (Some "2023:11:05 08:30:00"%string) in Hearly.
  split; [reflexivity | exact (proj2 Hearly)].
Defined.

(** ** The fuel of the remaining loops is never exhausted *)

Lemma x_loop_fuel (w : nat) (canvas : list Z) (threshold : Z) (by_ : nat)
    (fuel : nat) :
  forall (bx extra : nat),
    w <= bx + 32 * fuel + 32 ->
    ELA.x_loop (fuel + extra) w canvas threshold by_ bx
    = ELA.x_loop fuel w canvas threshold by_ bx.
Proof.
  induction fuel as [|f IH]; intros bx extra Hfuel.
  - destruct extra as [|extra]; [reflexivity|]. cbn [Nat.add ELA.x_loop].
    destruct (Z.ltb_spec (Z.of_nat bx) (Z.of_nat w - Z.of_nat ELA.blockSize));
      [unfold ELA.blockSize in *; lia | reflexivity].
  - cbn [Nat.add ELA.x_loop].
    destruct (Z.ltb_spec (Z.of_nat bx) (Z.of_nat w - Z.of_nat ELA.blockSize));
      [|reflexivity].
    rewrite IH; [reflexivity | unfold ELA.blockSize; lia].
Qed.

Lemma y_loop_fuel (w h : nat) (canvas : list Z) (threshold : Z)
    (fuel : nat) :
  forall (by_ extra : nat),
    h <= by_ + 32 * fuel + 32 ->
    ELA.y_loop (fuel + extra) w h canvas threshold by_
    = ELA.y_loop fuel w h canvas threshold by_.
Proof.
  induction fuel as [|f IH]; intros by_ extra Hfuel.
  - destruct extra as [|extra]; [reflexivity|]. cbn [Nat.add ELA.y_loop].
    destruct (Z.ltb_spec (Z.of_nat by_) (Z.of_nat h - Z.of_nat ELA.blockSize));
      [unfold ELA.blockSize in *; lia | reflexivity].
  - cbn [Nat.add ELA.y_loop].
    destruct (Z.ltb_spec (Z.of_nat by_) (Z.of_nat h - Z.of_nat ELA.blockSize));
      [|reflexivity].
    rewrite IH; [reflexivity | unfold ELA.blockSize; lia].
Qed.

Lemma chunk_loop_fuel (bytes : list (option Z)) (fuel : nat) :
  forall (i extra : nat),
    length bytes <= i + 256 * fuel ->
    chunk_loop (fuel + extra) bytes i = chunk_loop fuel bytes i.
Proof.
  induction fuel as [|f IH]; intros i extra Hfuel.
  - destruct extra as [|extra]; [reflexivity|]. cbn [Nat.add chunk_loop].
    destruct (Nat.ltb_spec i (length bytes)); [lia | reflexivity].
  - cbn [Nat.add chunk_loop].
    destruct (Nat.ltb_spec i (length bytes)); [|reflexivity].
    rewrite IH by lia. reflexivity.
Qed.

Lemma hexData_loop_fuel (data : list byte) (fuel : nat) :
  forall (i extra : nat),
    length data <= i + 16 * fuel ->
    hexData_loop (fuel + extra) data i = hexData_loop fuel data i.
Proof.
  induction fuel as [|f IH]; intros i extra Hfuel.
  - destruct extra as [|extra]; [reflexivity|]. cbn [Nat.add hexData_loop].
    destruct (Nat.ltb_spec i (length data `min` N.to_nat 4096));
      [lia | reflexivity].
  - cbn [Nat.add hexData_loop].
    destruct (Nat.ltb_spec i (length data `min` N.to_nat 4096));
      [|reflexivity].
    rewrite IH by lia. reflexivity.
Qed.

(* ===================================================================== *)
(** * Part III: properties of the rest of the code                        *)
(* ===================================================================== *)

(** ** File signature *)

Lemma hex2_inj (a b : byte) : hex2 a = hex2 b -> a = b.
Proof.
  intros H. assert (HN : Byte.to_N a = Byte.to_N b).
  { pose proof (hex2_parse a) as Ha. rewrite H, hex2_parse in Ha.
    inversion Ha. lia. }
  assert (Some a = Some b); [|congruence].
  now rewrite <- (Byte.of_to_N a), <- (Byte.of_to_N b), HN.
Qed.

Lemma starts_with_refl (s t : list ascii) : starts_with s (s ++ t) = true.
Proof.
  induction s as [|c s IH]; [reflexivity|]. simpl.
  now rewrite Ascii.eqb_refl.
Qed.

Lemma starts_with_app (s t : list ascii) :
  starts_with s t = true <-> exists r, t = s ++ r.
Proof.
  split.
  - revert t. induction s as [|c s IH]; intros t H; [now exists t|].
    destruct t as [|d t]; [discriminate|]. simpl in H.
    destruct (Ascii.eqb_spec c d) as [-> | ?]; [|discriminate].
    destruct (IH _ H) as [r ->]. now exists r.
  - intros [r ->]. apply starts_with_refl.
Qed.

(** The hex text of [d] starts with the hex text of [s] exactly when [d]
    starts with [s]. *)
Lemma starts_with_octets (s d : list byte) :
  starts_with (concat (map hex2 s)) (concat (map hex2 d)) = true
  <-> take (length s) d = s.
Proof.
  revert d. induction s as [|a s IH]; intros d; [simpl; tauto|].
  destruct d as [|b d].
  - simpl. rewrite hex2_digits. simpl. split; discriminate.
  - cbn [map concat length take]. rewrite (hex2_digits a), (hex2_digits b).
    cbn [app starts_with].
    destruct (Ascii.eqb_spec (hex_digit (Byte.to_N a / 16))
                (hex_digit (Byte.to_N b / 16))) as [E1 | E1].
    + destruct (Ascii.eqb_spec (hex_digit (Byte.to_N a mod 16))
                  (hex_digit (Byte.to_N b mod 16))) as [E2 | E2].
      * assert (a = b) as ->
          by (apply hex2_inj; rewrite !hex2_digits; congruence).
        rewrite IH. split; [congruence | now intros [= ->]].
      * split; [discriminate|]. intros [= -> _]. congruence.
    + split; [discriminate|]. intros [= -> _]. congruence.
Qed.

Lemma signature_prefix (sig data : list byte) :
  length sig <= 16 ->
  starts_with (concat (map hex2 sig)) (concat (map hex2 (slice 0 16 data)))
  = true
  <-> take (length sig) data = sig.
Proof.
  intros Hlen. rewrite starts_with_octets. unfold slice.
  rewrite drop_0, take_take. cbn [Nat.sub].
  now replace (length sig `min` 16) with (length sig) by lia.
Qed.

(** X1. [analyzeFileSignature] classifies by the first four bytes, and
    by nothing else: each type is returned exactly for its four-byte
    prefix, anything else (a buffer of fewer than four bytes included) is
    ["Unknown"], and the confidence is 100 unless the type is
    ["Unknown"]. *)
Theorem analyzeFileSignature_first_four_bytes (data : list byte) :
  let result := analyzeFileSignature data in
  (sig_type result = "JPEG (JFIF)"%string
   <-> take 4 data = [xff; xd8; xff; xe0]) /\
  (sig_type result = "JPEG (EXIF)"%string
   <-> take 4 data = [xff; xd8; xff; xe1]) /\
  (sig_type result = "PNG"%string <-> take 4 data = [x89; x50; x4e; x47]) /\
  (sig_type result = "GIF"%string <-> take 4 data = [x47; x49; x46; x38]) /\
  (sig_type result = "Unknown"%string
   <-> ~ In (take 4 data)
         [ [xff; xd8; xff; xe0]; [xff; xd8; xff; xe1];
           [x89; x50; x4e; x47]; [x47; x49; x46; x38] ]) /\
  sig_confidence result
  = (if String.eqb (sig_type result) "Unknown" then 0 else 100) /\
  (length data < 4 -> result = mkSignature "Unknown" 0).
Proof.
  intros result. subst result. unfold analyzeFileSignature.
  pose proof (signature_prefix [xff; xd8; xff; xe0] data ltac:(simpl; lia))
    as H1.
  pose proof (signature_prefix [xff; xd8; xff; xe1] data ltac:(simpl; lia))
    as H2.
  pose proof (signature_prefix [x89; x50; x4e; x47] data ltac:(simpl; lia))
    as H3.
  pose proof (signature_prefix [x47; x49; x46; x38] data ltac:(simpl; lia))
    as H4.
  change (concat (map hex2 [xff; xd8; xff; xe0])) with (js "ffd8ffe0") in H1.
  change (concat (map hex2 [xff; xd8; xff; xe1])) with (js "ffd8ffe1") in H2.
  change (concat (map hex2 [x89; x50; x4e; x47])) with (js "89504e47") in H3.
  change (concat (map hex2 [x47; x49; x46; x38])) with (js "47494638") in H4.
  cbn [length] in H1, H2, H3, H4.
  assert (Hshort : length data < 4 -> length (take 4 data) < 4)
    by (rewrite length_take; lia).
  destruct (starts_with (js "ffd8ffe0") _).
  { pose proof (proj1 H1 eq_refl) as E. rewrite E in *. cbn.
    repeat split; try discriminate; try tauto;
      try (intros; simpl in *; lia);
      try (intros Hn; exfalso; apply Hn; simpl; tauto). }
  destruct (starts_with (js "ffd8ffe1") _).
  { pose proof (proj1 H2 eq_refl) as E. rewrite E in *. cbn.
    repeat split; try discriminate; try tauto;
      try (intros; simpl in *; lia);
      try (intros Hn; exfalso; apply Hn; simpl; tauto). }
  destruct (starts_with (js "89504e47") _).
  { pose proof (proj1 H3 eq_refl) as E. rewrite E in *. cbn.
    repeat split; try discriminate; try tauto;
      try (intros; simpl in *; lia);
      try (intros Hn; exfalso; apply Hn; simpl; tauto). }
  destruct (starts_with (js "47494638") _).
  { pose proof (proj1 H4 eq_refl) as E. rewrite E in *. cbn.
    repeat split; try discriminate; try tauto;
      try (intros; simpl in *; lia);
      try (intros Hn; exfalso; apply Hn; simpl; tauto). }
  cbn. repeat split; try discriminate; try tauto.
  - intros E. apply H1 in E. discriminate.
  - intros E. apply H2 in E. discriminate.
  - intros E. apply H3 in E. discriminate.
  - intros E. apply H4 in E. discriminate.
  - intros _ [E | [E | [E | [E | []]]]]; symmetry in E;
      [apply H1 in E | apply H2 in E | apply H3 in E | apply H4 in E];
      discriminate.
Qed.

(** ** What the embedded-object scan reports, exactly *)

Lemma scan_loop_sound (hs sig : list ascii) (type : string) (fuel : nat) :
  sig <> [] ->
  forall (index : option nat) (hit : EmbeddedObjectHit),
    (forall i, index = Some i -> matches_at sig hs i = true) ->
    In hit (scan_loop fuel hs sig type index) ->
    exists j, 0 < j /\ matches_at sig hs j = true /\
              hit = mkHit type (inject_Z (Z.of_nat j) / 2)%Q.
Proof.
  intros Hsig. induction fuel as [|f IH]; intros index hit Hindex Hin;
    cbn [scan_loop] in Hin; [contradiction|].
  destruct index as [i|]; [|contradiction].
  destruct (Nat.ltb_spec 0 i) as [Hpos | _]; [|contradiction].
  pose proof (Hindex i eq_refl) as Hi.
  destruct Hin as [<- | Hin]; [now exists i|].
  apply (IH (indexOf hs sig (i + 1))); [|exact Hin].
  intros i' Hi'. apply indexOf_Some in Hi' as (_ & Hm & _); [exact Hm|].
  apply (matches_at_inside _ _ _ Hsig) in Hi. lia.
Qed.

Lemma signatures_nonempty (sig : list ascii) (type : string) :
  In (sig, type) signatures -> sig <> [].
Proof.
  simpl. intros [[= <- _] | [[= <- _] | [[= <- _] | [[= <- _] | []]]]];
    discriminate.
Qed.

Lemma signatures_type_inj (sig sig' : list ascii) (type : string) :
  In (sig, type) signatures -> In (sig', type) signatures -> sig = sig'.
Proof.
  simpl. intros H1 H2.
  repeat match goal with H : _ \/ _ |- _ => destruct H end;
    try contradiction; congruence.
Qed.

(** Every hit is an occurrence of the signature of its type in the hex
    text, at an index greater than 0 which is twice the offset. *)
Lemma detectEmbeddedFiles_sound (data : list byte) (hit : EmbeddedObjectHit) :
  In hit (detectEmbeddedFiles data) ->
  exists sig j,
    In (sig, hit_type hit) signatures /\ 0 < j /\
    matches_at sig (hexString data) j = true /\
    hit_offset hit = (inject_Z (Z.of_nat j) / 2)%Q.
Proof.
  unfold detectEmbeddedFiles. intros Hin.
  apply in_concat in Hin as (hits & Hhits & Hin).
  apply in_map_iff in Hhits as ([sig type] & <- & Hsig).
  unfold scan_signature in Hin. cbn [fst snd] in Hin.
  apply scan_loop_sound in Hin as (j & Hj & Hm & ->).
  - exists sig, j. auto.
  - eapply signatures_nonempty, Hsig.
  - intros i Hi. now apply indexOf_Some in Hi as (_ & Hm & _); [|lia].
Qed.

(** X2. For a signature that does not open the file, the hits of its
    type are exactly its occurrences in the hex text of the scanned prefix,
    each reported at half its index in that text (byte aligned or not). *)
Theorem detectEmbeddedFiles_exact (data : list byte) (sig : list ascii)
    (type : string) (offset : Q) :
  In (sig, type) signatures ->
  matches_at sig (hexString data) 0 = false ->
  In (mkHit type offset) (detectEmbeddedFiles data)
  <-> exists j : nat,
        matches_at sig (hexString data) j = true /\
        offset = (inject_Z (Z.of_nat j) / 2)%Q.
Proof.
  intros Hsig H0. split.
  - intros Hin. apply detectEmbeddedFiles_sound in Hin
      as (sig' & j & Hsig' & _ & Hm & Hoff). cbn in Hsig', Hoff.
    rewrite (signatures_type_inj sig sig' type Hsig Hsig').
    now exists j.
  - intros (j & Hm & ->). now apply detectEmbeddedFiles_reports with sig.
Qed.

Lemma detectEmbeddedFiles_exact_witness :
  In (mkHit "ZIP" (inject_Z (Z.of_nat 80) / 2)%Q) (detectEmbeddedFiles buf100).
Proof.
  apply (detectEmbeddedFiles_exact buf100 (js "504b0304") "ZIP").
  - simpl. tauto.
  - vm_compute. reflexivity.
  - exists 80. split; [vm_compute|]; reflexivity.
Defined.

Lemma detectEmbeddedFiles_origin (data : list byte)
    (hit : EmbeddedObjectHit) :
  In hit (detectEmbeddedFiles data) ->
  exists sig,
    In (sig, hit_type hit) signatures /\
    In hit (scan_signature (hexString data) (sig, hit_type hit)).
Proof.
  unfold detectEmbeddedFiles. intros Hin.
  apply in_concat in Hin as (hits & Hhits & Hin).
  apply in_map_iff in Hhits as ([sig type] & <- & Hsig).
  pose proof Hin as Htype. unfold scan_signature in Htype.
  apply scan_loop_hits in Htype as [Htype _]. cbn in Htype.
  rewrite Htype. now exists sig.
Qed.

Lemma recognised_prefix (data : list byte) :
  (sig_type (analyzeFileSignature data) = "JPEG (JFIF)"%string ->
   take 4 data = [xff; xd8; xff; xe0]) /\
  (sig_type (analyzeFileSignature data) = "PNG"%string ->
   take 4 data = [x89; x50; x4e; x47]) /\
  (sig_type (analyzeFileSignature data) = "JPEG (EXIF)"%string ->
   take 4 data = [xff; xd8; xff; xe1]) /\
  (sig_type (analyzeFileSignature data) = "GIF"%string ->
   take 4 data = [x47; x49; x46; x38]).
Proof.
  unfold analyzeFileSignature.
  pose proof (signature_prefix [xff; xd8; xff; xe0] data ltac:(simpl; lia))
    as H1.
  pose proof (signature_prefix [xff; xd8; xff; xe1] data ltac:(simpl; lia))
    as H2.
  pose proof (signature_prefix [x89; x50; x4e; x47] data ltac:(simpl; lia))
    as H3.
  pose proof (signature_prefix [x47; x49; x46; x38] data ltac:(simpl; lia))
    as H4.
  change (concat (map hex2 [xff; xd8; xff; xe0])) with (js "ffd8ffe0") in H1.
  change (concat (map hex2 [xff; xd8; xff; xe1])) with (js "ffd8ffe1") in H2.
  change (concat (map hex2 [x89; x50; x4e; x47])) with (js "89504e47") in H3.
  change (concat (map hex2 [x47; x49; x46; x38])) with (js "47494638") in H4.
  cbn [length] in H1, H2, H3, H4.
  destruct (starts_with (js "ffd8ffe0") _);
    [repeat split; try discriminate; intros _; now apply H1|].
  destruct (starts_with (js "ffd8ffe1") _);
    [repeat split; try discriminate; intros _; now apply H2|].
  destruct (starts_with (js "89504e47") _);
    [repeat split; try discriminate; intros _; now apply H3|].
  destruct (starts_with (js "47494638") _);
    [repeat split; try discriminate; intros _; now apply H4|].
  repeat split; discriminate.
Qed.

(** X3. A file that [analyzeFileSignature] recognises as JPEG (JFIF) never
    gets a hit of type JPEG from the embedded-object scan, however many
    JFIF signatures it contains after the header; the same holds of PNG. *)
Theorem recognised_type_never_embedded (data : list byte)
    (hit : EmbeddedObjectHit) :
  In hit (detectEmbeddedFiles data) ->
  (sig_type (analyzeFileSignature data) = "JPEG (JFIF)"%string ->
   hit_type hit <> "JPEG"%string) /\
  (sig_type (analyzeFileSignature data) = "PNG"%string ->
   hit_type hit <> "PNG"%string).
Proof.
  intros Hin.
  apply detectEmbeddedFiles_origin in Hin as (sig & Hsig & Hin).
  assert (Hheader : forall bytes : list byte,
            length bytes = 4 -> take 4 data = bytes ->
            matches_at (concat (map hex2 bytes)) (hexString data) 0 = true).
  { intros bytes Hlen Htake. unfold matches_at, hexString, slice.
    rewrite !drop_0. apply starts_with_octets. rewrite Hlen, Nat.sub_0_r.
    rewrite take_take.
    assert (4 <= length data).
    { rewrite <- Hlen, <- Htake, length_take. lia. }
    now replace (4 `min` (length data `min` N.to_nat 10000)) with 4 by lia. }
  destruct (recognised_prefix data) as (HJ & HP & _).
  split; intros Htype Hhit; rewrite Hhit in Hsig, Hin.
  - apply HJ in Htype.
    apply (Hheader [xff; xd8; xff; xe0] eq_refl) in Htype.
    rewrite (signatures_type_inj sig (js "ffd8ffe0") "JPEG" Hsig
               ltac:(simpl; tauto)) in Hin.
    now rewrite (scan_signature_header (hexString data)
                   (js "ffd8ffe0", "JPEG"%string) Htype) in Hin.
  - apply HP in Htype.
    apply (Hheader [x89; x50; x4e; x47] eq_refl) in Htype.
    rewrite (signatures_type_inj sig (js "89504e47") "PNG" Hsig
               ltac:(simpl; tauto)) in Hin.
    now rewrite (scan_signature_header (hexString data)
                   (js "89504e47", "PNG"%string) Htype) in Hin.
Qed.

Lemma recognised_type_never_embedded_witness :
  let data := [x89; x50; x4e; x47] ++ buf100 in
  let hit := mkHit "ZIP" (inject_Z (Z.of_nat 88) / 2)%Q in
  In hit (detectEmbeddedFiles data) /\
  sig_type (analyzeFileSignature data) = "PNG"%string /\
  hit_type hit <> "PNG"%string.
Proof.
  intros data hit.
  assert (Hin : In hit (detectEmbeddedFiles data))
    by (vm_compute; left; reflexivity).
  assert (Htype : sig_type (analyzeFileSignature data) = "PNG"%string)
    by (vm_compute; reflexivity).
  split; [exact Hin|]. split; [exact Htype|].
  exact (proj2 (recognised_type_never_embedded data hit Hin) Htype).
Defined.

(** ** The hex analysis message *)

(** X4. The dump sent by [hexAnalysis] renders the first 2048 bytes of the
    file and no more: it has at most 128 rows, the bytes read back from it
    are the first 2048 bytes, while the size, the signature and the
    embedded-object scan are those of the whole file. *)
Theorem hexAnalysis_dump_prefix (fileName : string) (data : list byte) :
  let result := hexAnalysis fileName data in
  hexToBytes (hr_hexDump result)
  = map (fun b => Some (Z.of_N (Byte.to_N b))) (take 2048 data) /\
  length (hr_hexDump result) = (length data `min` 2048 + 15) / 16 /\
  length (hr_hexDump result) <= 128 /\
  hr_fileSize result = length data /\
  hr_signature result = analyzeFileSignature data /\
  hr_embeddedFiles result = detectEmbeddedFiles data.
Proof.
  intros result. subst result. unfold hexAnalysis.
  cbn [hr_hexDump hr_fileSize hr_signature hr_embeddedFiles].
  assert (Hslice : slice 0 (N.to_nat 2048) data = take 2048 data).
  { unfold slice. rewrite drop_0, Nat.sub_0_r. f_equal. }
  rewrite Hslice, hexToBytes_generateHexDump, generateHexDump_rows.
  rewrite length_map, length_seq, length_take.
  repeat split; try reflexivity.
  - f_equal. f_equal. lia.
  - assert (H : (2048 `min` length data + 15) / 16 <= (2048 + 15) / 16)
      by (apply Nat.Div0.div_le_mono; lia).
    exact H.
Qed.

(** ** The batch loop *)

Lemma batch_loop_spec (total : nat)
    (files : list (string * Outcome (option Batch.ExifData))) :
  forall (i : nat) (posted : list WorkerResponse)
         (results : list Batch.FileResult),
    batch_loop total files i posted results
    = (posted ++ imap (fun k file => (batch_turn total (i + k) file).1) files,
       results ++ imap (fun k file => (batch_turn total (i + k) file).2) files).
Proof.
  induction files as [|file files IH]; intros i posted results.
  - simpl. now rewrite !app_nil_r.
  - cbn [batch_loop imap]. rewrite IH, <- !app_assoc. cbn [app].
    rewrite Nat.add_0_r. f_equal; f_equal; f_equal;
      apply imap_ext; intros k f _; cbn; do 2 f_equal; lia.
Qed.

(** X5. [batchProcess] posts one progress message per file, numbered
    from 1 and in order, then a single result message; the results are in
    the order of the files and carry their names; a file is a success when
    the parser returned (even without metadata) and an error, with a
    reason and no metadata, when it threw; and in the summary the
    successes and the errors add up to the number of files. *)
Theorem batchProcess_accounts_for_every_file
    (files : list (string * Outcome (option Batch.ExifData))) :
  exists results,
    batchProcess files
    = imap (fun k file => PROGRESS (k + 1) (length files) file.1) files
      ++ [BATCH_RESULT results (Batch.generateBatchSummary results)] /\
    map Batch.fileName results = map fst files /\
    Forall2
      (fun file r =>
         match file.2 with
         | Returned exifData =>
             Batch.status r = success /\ Batch.exifData r = exifData /\
             Batch.errorText r = None
         | Threw t =>
             Batch.status r = error /\ Batch.exifData r = None /\
             exists reason, Batch.errorText r = Some reason
         end)
      files results /\
    Batch.totalFiles (Batch.generateBatchSummary results) = length files /\
    Batch.successful (Batch.generateBatchSummary results)
    + Batch.errors (Batch.generateBatchSummary results)
    = length files.
Proof.
  exists (imap (fun k file => (batch_turn (length files) k file).2) files).
  set (results := imap (fun k file => (batch_turn (length files) k file).2)
                    files).
  assert (Hlen : length results = length files)
    by (subst results; apply length_imap).
  assert (Hshape : Forall2
    (fun file r =>
       Batch.fileName r = file.1 /\
       match file.2 with
       | Returned exifData =>
           Batch.status r = success /\ Batch.exifData r = exifData /\
           Batch.errorText r = None
       | Threw t =>
           Batch.status r = error /\ Batch.exifData r = None /\
           exists reason, Batch.errorText r = Some reason
       end) files results).
  { subst results. generalize (length files). intros total.
    assert (H : forall (l : list (string * Outcome (option Batch.ExifData)))
                  (f : nat -> nat),
              Forall2
                (fun file r =>
                   Batch.fileName r = file.1 /\
                   match file.2 with
                   | Returned exifData =>
                       Batch.status r = success /\
                       Batch.exifData r = exifData /\
                       Batch.errorText r = None
                   | Threw t =>
                       Batch.status r = error /\ Batch.exifData r = None /\
                       exists reason, Batch.errorText r = Some reason
                   end) l
                (imap (fun k file => (batch_turn total (f k) file).2) l)).
    { induction l as [|[name outcome] l IHl]; intros f; cbn [imap];
        constructor.
      - destruct outcome; cbn; eauto.
      - apply (IHl (fun k => f (S k))). }
    apply (H files (fun k => k)). }
  split; [|split; [|split; [|split]]].
  - unfold batchProcess. rewrite batch_loop_spec. cbn [fst snd app].
    fold results. reflexivity.
  - clear Hlen. induction Hshape as [|file r fs rs [Hn _] _ IH];
      [reflexivity|]. cbn [map]. now rewrite Hn, IH.
  - eapply Forall2_impl; [exact Hshape|]. intros file r [_ H]. exact H.
  - unfold Batch.generateBatchSummary. rewrite summary_fold.
    match goal with |- context [fold_left absorb ?m ?s] =>
      destruct (absorb_counts m s) as (-> & _ & _) end.
    exact Hlen.
  - unfold Batch.generateBatchSummary. rewrite summary_fold.
    match goal with |- context [fold_left absorb ?m ?s] =>
      destruct (absorb_counts m s) as (_ & -> & ->) end.
    cbn [Batch.successful Batch.errors]. rewrite <- Hlen. clear Hlen.
    induction Hshape as [|file r fs rs [_ Hr] _ IH]; [reflexivity|].
    rewrite !filter_cons.
    assert (Hs : Batch.status r = success \/ Batch.status r = error)
      by (destruct (file.2); destruct Hr as (Hs & _); auto).
    destruct (decide (Batch.is_status success r = true)) as [Hyes|Hno];
      destruct (decide (Batch.is_status error r = true)) as [Hyes'|Hno'];
      unfold Batch.is_status in *;
      rewrite ?bool_decide_eq_true in *;
      destruct Hs as [Hs|Hs]; cbn [length] in *;
      try congruence; try lia.
Qed.

(** ** The range of the entropy *)

Lemma ln_le_pred (y : R) : (0 < y)%R -> (ln y <= y - 1)%R.
Proof.
  intros Hy. pose proof (exp_ineq1_le (ln y)) as H.
  rewrite exp_ln in H by exact Hy. lra.
Qed.

(** One term of the sum, against the tangent of the logarithm at
    [1 / 256]. *)
Lemma entropy_term_le (p : R) :
  (0 < p)%R -> (- (p * ln p) <= / 256 - p + p * ln 256)%R.
Proof.
  intros Hp.
  assert (Hpos : (0 < / (256 * p))%R)
    by (apply Rinv_0_lt_compat; nra).
  pose proof (ln_le_pred _ Hpos) as H.
  rewrite ln_Rinv, ln_mult in H by nra.
  apply (Rmult_le_compat_l p) in H; [|lra].
  replace (p * (/ (256 * p) - 1))%R with (/ 256 - p)%R in H
    by (field; lra).
  lra.
Qed.

Lemma entropy_fold_bounds (len : nat) (freqs : list nat) :
  0 < len ->
  Forall (fun f => f <= len) freqs ->
  forall acc : R,
    (acc <= fold_left (entropy_step len) freqs acc
     <= acc + (INR (length freqs) / 256
               - INR (sum_list freqs) / INR len
               + INR (sum_list freqs) / INR len * ln 256) / ln 2)%R.
Proof.
  intros Hlen Hall.
  assert (Hn : (0 < INR len)%R) by (apply lt_0_INR; exact Hlen).
  assert (Hln2 : (0 < ln 2)%R) by (pose proof ln_lt_2; lra).
  induction Hall as [|f freqs Hf _ IH]; intros acc.
  - cbn. unfold Rdiv. rewrite !Rmult_0_l. lra.
  - cbn [fold_left length sum_list sum_list_with].
    change (Datatypes.id f) with f. fold (sum_list freqs).
    specialize (IH (entropy_step len acc f)).
    rewrite S_INR, plus_INR.
    set (rest := fold_left (entropy_step len) freqs _) in *.
    set (k := INR (length freqs)) in *.
    set (s := INR (sum_list freqs)) in *.
    assert (Hstep : (acc <= entropy_step len acc f
                     <= acc + (/ 256 - INR f / INR len
                               + INR f / INR len * ln 256) / ln 2)%R).
    { unfold entropy_step. destruct (Nat.ltb_spec 0 f) as [Hpos | Hzero].
      - assert (Hf0 : (0 < INR f)%R) by (apply lt_0_INR; exact Hpos).
        assert (Hfn : (INR f <= INR len)%R) by (apply le_INR; exact Hf).
        set (p := (INR f / INR len)%R).
        assert (Hp0 : (0 < p)%R) by (apply Rdiv_lt_0_compat; assumption).
        assert (Hp1 : (p <= 1)%R).
        { unfold p. apply (Rmult_le_reg_r (INR len)); [exact Hn|].
          unfold Rdiv. rewrite Rmult_assoc, Rinv_l by lra. lra. }
        assert (Hlnp : (ln p <= 0)%R).
        { pose proof (ln_le_pred p Hp0). lra. }
        pose proof (entropy_term_le p Hp0) as Hterm.
        unfold log2.
        replace (acc - p * (ln p / ln 2))%R
          with (acc + (- (p * ln p)) / ln 2)%R by (field; lra).
        split.
        + assert ((0 <= - (p * ln p) / ln 2)%R); [|lra].
          apply Rmult_le_pos; [nra|]. apply Rlt_le, Rinv_0_lt_compat, Hln2.
        + apply Rplus_le_compat_l.
          apply Rmult_le_compat_r;
            [apply Rlt_le, Rinv_0_lt_compat, Hln2 | exact Hterm].
      - assert (f = 0) by lia. subst f. cbn [INR].
        unfold Rdiv at 2 3. rewrite !Rmult_0_l.
        split; [lra|].
        assert ((0 <= (/ 256 - 0 + 0) / ln 2)%R); [|lra].
        apply Rmult_le_pos; [lra|]. apply Rlt_le, Rinv_0_lt_compat, Hln2. }
    split; [lra|].
    replace ((k + 1) / 256 - (INR f + s) / INR len
             + (INR f + s) / INR len * ln 256)%R
      with ((/ 256 - INR f / INR len + INR f / INR len * ln 256)
            + (k / 256 - s / INR len + s / INR len * ln 256))%R
      by (field; lra).
    destruct Hstep as [_ Hstep]. destruct IH as [_ IH].
    set (a := (/ 256 - INR f / INR len + INR f / INR len * ln 256)%R) in *.
    set (b := (k / 256 - s / INR len + s / INR len * ln 256)%R) in *.
    replace ((a + b) / ln 2)%R with (a / ln 2 + b / ln 2)%R
      by (field; lra).
    set (x := (a / ln 2)%R) in *. set (y := (b / ln 2)%R) in *.
    lra.
Qed.

(** X6. The entropy that [calculateEntropy] returns lies between 0 and 8
    bits, for every buffer (the numbers taken as reals). *)
Theorem calculateEntropy_range (data : list byte) :
  (0 <= calculateEntropy data <= 8)%R.
Proof.
  destruct data as [|b data'] eqn:Hdata.
  - rewrite (calculateEntropy_constant [] x00) by constructor. lra.
  - rewrite <- Hdata. unfold calculateEntropy.
    assert (Hlen : 0 < length data) by (subst data; simpl; lia).
    assert (Hall : Forall (fun f => f <= length data) (frequency data)).
    { apply Forall_forall. intros f Hf.
      rewrite <- (frequency_sum data).
      clear -Hf. induction (frequency data) as [|g l IH];
        [inversion Hf|].
      cbn [sum_list sum_list_with]. change (Datatypes.id g) with g.
      fold (sum_list l). apply elem_of_cons in Hf as [->|Hf];
        [lia|]. specialize (IH Hf). lia. }
    pose proof (entropy_fold_bounds (length data) (frequency data) Hlen Hall
                  0%R) as [Hlow Hhigh].
    split; [exact Hlow|].
    eapply Rle_trans; [exact Hhigh|].
    rewrite frequency_length, frequency_sum.
    assert (Hn : (0 < INR (length data))%R) by (apply lt_0_INR; exact Hlen).
    replace (INR 256) with 256%R by (rewrite INR_IZR_INZ; reflexivity).
    replace 256%R with (2 ^ 8)%R at 3 by (simpl; ring).
    rewrite ln_pow by lra. simpl INR.
    apply Req_le. field. split; [lra | exact ln_2_neq_0].
Qed.

(** ** The rows of the page: [generateHexData] *)

Lemma upper_octet (b : byte) :
  length (toUpperCase (hex2 b)) = 2 /\
  strip_spaces (toUpperCase (hex2 b)) = toUpperCase (hex2 b) /\
  toLowerCase (toUpperCase (hex2 b)) = hex2 b /\
  forallb is_upper_hex (toUpperCase (hex2 b)) = true /\
  parseInt16 (toUpperCase (hex2 b)) = Some (Z.of_N (Byte.to_N b)).
Proof. destruct b; repeat split; reflexivity. Qed.

Lemma row_count_step (m i : nat) :
  i < m -> (m - i + 15) / 16 = S ((m - (i + 16) + 15) / 16).
Proof.
  intros Hlt.
  destruct (Nat.le_gt_cases 16 (m - i)) as [Hbig | Hsmall].
  - replace (m - i + 15) with (1 * 16 + (m - (i + 16) + 15)) by lia.
    now rewrite Nat.div_add_l by lia.
  - replace (m - (i + 16) + 15) with 15 by lia.
    change (15 / 16) with 0.
    assert (m - i + 15 = 1 * 16 + (m - i - 1)) as -> by lia.
    rewrite Nat.div_add_l, Nat.div_small by lia. reflexivity.
Qed.

Lemma hexData_loop_rows (data : list byte) (fuel : nat) :
  forall i : nat,
    length data `min` N.to_nat 4096 <= i + 16 * fuel ->
    hexData_loop fuel data i
    = map (fun k => hexLineUpper data (i + 16 * k))
        (seq 0 ((length data `min` N.to_nat 4096 - i + 15) / 16)).
Proof.
  set (m := length data `min` N.to_nat 4096).
  induction fuel as [|f IH]; intros i Hfuel; cbn [hexData_loop]; fold m.
  - replace (m - i + 15) with 15 by lia. reflexivity.
  - destruct (Nat.ltb_spec i m) as [Hlt | Hge].
    + rewrite IH by lia. rewrite (row_count_step m i Hlt).
      simpl seq. simpl map. rewrite Nat.add_0_r. f_equal.
      rewrite <- seq_shift, map_map. apply map_ext. intros k.
      f_equal. lia.
    + replace (m - i + 15) with 15 by lia. reflexivity.
Qed.

Lemma generateHexData_rows (data : list byte) :
  hd_lines (generateHexData data)
  = map (fun k => hexLineUpper data (16 * k))
      (seq 0 ((length data `min` 4096 + 15) / 16)).
Proof.
  unfold generateHexData. cbn [hd_lines].
  rewrite hexData_loop_rows by lia. rewrite Nat.sub_0_r.
  reflexivity.
Qed.

Lemma strip_spaces_join_upper (bytes : list byte) :
  strip_spaces (join [" "%char] (map (fun b => toUpperCase (hex2 b)) bytes))
  = concat (map (fun b => toUpperCase (hex2 b)) bytes).
Proof.
  induction bytes as [|b bytes IH]; [reflexivity|].
  destruct (upper_octet b) as (_ & Hstrip & _).
  destruct bytes as [|b' bytes].
  - cbn [map join concat]. now rewrite Hstrip, app_nil_r.
  - change (join [" "%char]
              (map (fun b => toUpperCase (hex2 b)) (b :: b' :: bytes)))
      with (toUpperCase (hex2 b) ++ [" "%char]
            ++ join [" "%char]
                 (map (fun b => toUpperCase (hex2 b)) (b' :: bytes))).
    rewrite !strip_spaces_app, Hstrip, IH. reflexivity.
Qed.

Lemma line_hex_upper_strip (data : list byte) (i : nat) :
  strip_spaces (line_hex (hexLineUpper data i))
  = concat (map (fun b => toUpperCase (hex2 b)) (slice i (i + 16) data)).
Proof.
  unfold hexLineUpper, padEnd. cbn [line_hex].
  rewrite strip_spaces_app, strip_spaces_blank, app_nil_r.
  apply strip_spaces_join_upper.
Qed.

Lemma take_add {A} (l : list A) (a b : nat) :
  take (a + b) l = take a l ++ take b (drop a l).
Proof.
  rewrite take_drop_commute.
  rewrite <- (take_drop a (take (a + b) l)) at 1.
  f_equal. rewrite take_take. f_equal. lia.
Qed.

(** The chunks of 16 elements of a list, put end to end, are the list. *)
Lemma concat_chunks {A B} (f : A -> list B) (data : list A) :
  forall rows : nat,
    concat (map (fun k => concat (map f (slice (16 * k) (16 * k + 16) data)))
              (seq 0 rows))
    = concat (map f (take (16 * rows) data)).
Proof.
  induction rows as [|rows IH]; [reflexivity|].
  rewrite seq_S, map_app, concat_app, IH.
  cbn [map concat Nat.add]. rewrite app_nil_r.
  rewrite <- concat_app, <- map_app. f_equal. f_equal.
  unfold slice. replace (16 * rows + 16 - 16 * rows) with 16 by lia.
  replace (16 * S rows) with (16 * rows + 16) by lia.
  now rewrite take_add.
Qed.

Lemma slice_take {A} (data : list A) (m i : nat) :
  i + 16 <= m \/ length data <= m ->
  slice i (i + 16) (take m data) = slice i (i + 16) data.
Proof.
  intros H. unfold slice. replace (i + 16 - i) with 16 by lia.
  destruct H as [H | H]; [|now rewrite (take_ge data m) by exact H].
  rewrite !take_drop_commute, take_take. do 2 f_equal. lia.
Qed.

Lemma fullHex_generateHexData (data : list byte) :
  fullHex (hd_lines (generateHexData data))
  = concat (map (fun b => toUpperCase (hex2 b)) (take 4096 data)).
Proof.
  rewrite generateHexData_rows. unfold fullHex. rewrite map_map.
  set (rows := (length data `min` 4096 + 15) / 16).
  assert (Hrows : length data `min` 4096 <= 16 * rows
                  /\ 16 * rows < length data `min` 4096 + 16).
  { subst rows. pose proof (Nat.div_mod_eq (length data `min` 4096 + 15) 16).
    pose proof (Nat.mod_upper_bound (length data `min` 4096 + 15) 16).
    lia. }
  erewrite map_ext;
    [|intros k; apply line_hex_upper_strip].
  rewrite concat_chunks.
  destruct (Nat.le_gt_cases (length data) 4096) as [Hsmall | Hbig].
  - rewrite !take_ge by lia. reflexivity.
  - replace (16 * rows) with 4096; [reflexivity|].
    rewrite Nat.min_r in Hrows by lia.
    assert (4096 = 16 * 256) as E by reflexivity. lia.
Qed.

Lemma hex_pairs_upper_octets (bytes : list byte) :
  hex_pairs (concat (map (fun b => toUpperCase (hex2 b)) bytes))
  = map (fun b => Some (Z.of_N (Byte.to_N b))) bytes.
Proof.
  induction bytes as [|b bytes IH]; [reflexivity|].
  cbn [map concat]. destruct (upper_octet b) as (Hlen & _ & _ & _ & Hparse).
  rewrite <- IH, <- Hparse.
  destruct (toUpperCase (hex2 b)) as [|c1 [|c2 [|c3 rest]]];
    try discriminate. reflexivity.
Qed.

(** X7. The rows that the page hands to the hex analyzer render the
    first 4096 bytes of the file: reading them back as the analyzer does
    gives these bytes, there are [ceil(min(length, 4096) / 16)] rows (at
    most 256), the text read is made of digits and uppercase letters only,
    and [displayedBytes] is the number of bytes rendered. *)
Theorem generateHexData_round_trip (data : list byte) :
  let hexData := generateHexData data in
  hexToBytes (hd_lines hexData)
  = map (fun b => Some (Z.of_N (Byte.to_N b))) (take 4096 data) /\
  length (hd_lines hexData) = (length data `min` 4096 + 15) / 16 /\
  length (hd_lines hexData) <= 256 /\
  forallb is_upper_hex (fullHex (hd_lines hexData)) = true /\
  hd_displayedBytes hexData = length (take 4096 data) /\
  hd_totalBytes hexData = length data.
Proof.
  intros hexData. subst hexData.
  split; [|split; [|split; [|split; [|split]]]].
  - unfold hexToBytes. rewrite fullHex_generateHexData.
    apply hex_pairs_upper_octets.
  - now rewrite generateHexData_rows, length_map, length_seq.
  - rewrite generateHexData_rows, length_map, length_seq.
    assert (H : (length data `min` 4096 + 15) / 16 <= (4096 + 15) / 16)
      by (apply Nat.Div0.div_le_mono; lia).
    exact H.
  - rewrite fullHex_generateHexData. apply forallb_forall.
    intros c Hc. apply in_concat in Hc as (octet & Hoctet & Hc).
    apply in_map_iff in Hoctet as (b & <- & _).
    destruct (upper_octet b) as (_ & _ & _ & Hupper & _).
    rewrite forallb_forall in Hupper. now apply Hupper.
  - cbn [generateHexData hd_displayedBytes]. rewrite length_take.
    change (N.to_nat 4096) with 4096. lia.
  - reflexivity.
Qed.

(** ** The JPEG structure analysis *)

Lemma starts_with_forallb (P : ascii -> bool) (a : list ascii) :
  forall s : list ascii,
    starts_with a s = true -> forallb P s = true -> forallb P a = true.
Proof.
  induction a as [|c a IH]; intros s Hs HP; [reflexivity|].
  destruct s as [|d s]; [discriminate|]. cbn [starts_with] in Hs.
  destruct (Ascii.eqb_spec c d) as [-> | _]; [|discriminate].
  cbn [forallb] in *. apply andb_prop in HP as [Hd HP].
  now rewrite Hd, (IH s Hs HP).
Qed.

Lemma forallb_drop {A} (P : A -> bool) (l : list A) (n : nat) :
  forallb P l = true -> forallb P (drop n l) = true.
Proof.
  revert n. induction l as [|x l IH]; intros [|n] H; try exact H.
  cbn [forallb] in H. apply andb_prop in H as [_ H]. now apply IH.
Qed.

(** A text in which [sub] occurs has the characters of [sub]. *)
Lemma includes_forallb (P : ascii -> bool) (s sub : list ascii) :
  includes s sub = true -> forallb P s = true -> forallb P sub = true.
Proof.
  unfold includes. destruct (indexOf s sub 0) as [j|] eqn:Hj; [|discriminate].
  intros _ HP. apply indexOf_Some in Hj as (_ & Hm & _); [|lia].
  unfold matches_at in Hm.
  exact (starts_with_forallb P sub _ Hm (forallb_drop P s j HP)).
Qed.

Lemma page_row_upper (data : list byte) (i : nat) :
  forallb is_upper_hex (strip_spaces (line_hex (hexLineUpper data i))) = true.
Proof.
  rewrite line_hex_upper_strip. apply forallb_forall.
  intros c Hc. apply in_concat in Hc as (octet & Hoctet & Hc).
  apply in_map_iff in Hoctet as (b & <- & _).
  destruct (upper_octet b) as (_ & _ & _ & Hupper & _).
  rewrite forallb_forall in Hupper. now apply Hupper.
Qed.

(** A row in which none of the six markers is found leaves the analysis as
    it is. *)
Lemma jpeg_row_blind (analysis : JpegAnalysis) (line : HexLine)
    (nextLine : bool) :
  forallb is_upper_hex (strip_spaces (line_hex line)) = true ->
  jpeg_row analysis line nextLine = analysis.
Proof.
  intros Hupper. unfold jpeg_row.
  assert (Hno : forall marker : list ascii,
            forallb is_upper_hex marker = false ->
            includes (strip_spaces (line_hex line)) marker = false).
  { intros marker Hmarker.
    destruct (includes _ marker) eqn:E; [|reflexivity].
    now rewrite (includes_forallb is_upper_hex _ _ E Hupper) in Hmarker. }
  unfold on_marker. rewrite !Hno by reflexivity. reflexivity.
Qed.

(** X8. On the rows that the page hands to the analyzer, whose octets are
    uppercase, [jpegAnalysis] recognises nothing, whatever the file: no
    start of image, no segment, no table. *)
Theorem jpegAnalysis_blind_on_page_rows (data : list byte) :
  jpegAnalysis (hd_lines (generateHexData data))
  = mkJpegAnalysis false false false [] 0 0 false false (0, 0).
Proof.
  rewrite generateHexData_rows. unfold jpegAnalysis.
  set (start := mkJpegAnalysis false false false [] 0 0 false false (0, 0)).
  set (rows := seq 0 _). clearbody rows.
  assert (Hstart :
    match map (fun k => hexLineUpper data (16 * k)) rows with
    | first :: _ =>
        if starts_with (js "ff d8") (line_hex first)
        then mkJpegAnalysis true true false
               [mkSegment "SOI (Start of Image)" "FF D8" (js "00000000")]
               0 0 false false (0, 0)
        else start
    | [] => start
    end = start).
  { destruct rows as [|k rows]; [reflexivity|]. cbn [map].
    destruct (starts_with (js "ff d8") (line_hex (hexLineUpper data (16 * k))))
      eqn:E; [|reflexivity].
    pose proof (page_row_upper data (16 * k)) as Hupper.
    destruct (line_hex (hexLineUpper data (16 * k))) as [|c rest];
      [discriminate|].
    cbn [starts_with js list_ascii_of_string] in E.
    destruct (Ascii.eqb_spec "f"%char c) as [<- | _]; [|discriminate].
    discriminate Hupper. }
  rewrite Hstart. clear Hstart. generalize start. clear start.
  induction rows as [|k rows IH]; intros start; [reflexivity|].
  cbn [map jpeg_rows]. rewrite jpeg_row_blind by apply page_row_upper.
  apply IH.
Qed.

(** What every row keeps: the two flags of the start of the image, the
    end-of-image flag, and a bound on the counters. *)
Lemma jpeg_row_keeps (a : JpegAnalysis) (line : HexLine) (nextLine : bool) :
  let a' := jpeg_row a line nextLine in
  isValidJPEG a' = isValidJPEG a /\ hasSOI a' = hasSOI a /\
  hasEOI a' = hasEOI a /\
  quantizationTables a <= quantizationTables a' <= quantizationTables a + 1 /\
  huffmanTables a <= huffmanTables a' <= huffmanTables a + 1 /\
  (imageSize a' = imageSize a \/ imageSize a' = (612, 816)).
Proof.
  unfold jpeg_row, on_marker.
  repeat match goal with
         | |- context [includes ?hex ?marker] => destruct (includes hex marker)
         end;
    cbn; repeat split; try lia; try (now left);
    destruct nextLine; auto.
Qed.

Lemma jpeg_rows_keep (lines : list HexLine) :
  forall a : JpegAnalysis,
    let a' := jpeg_rows a lines in
    isValidJPEG a' = isValidJPEG a /\ hasSOI a' = hasSOI a /\
    hasEOI a' = hasEOI a /\
    quantizationTables a' <= quantizationTables a + length lines /\
    huffmanTables a' <= huffmanTables a + length lines /\
    (imageSize a' = imageSize a \/ imageSize a' = (612, 816)).
Proof.
  induction lines as [|line rest IH]; intros a; cbn [jpeg_rows length].
  - repeat split; try lia. now left.
  - set (next := match rest with [] => false | _ :: _ => true end).
    destruct (IH (jpeg_row a line next)) as (H1 & H2 & H3 & H4 & H5 & H6).
    destruct (jpeg_row_keeps a line next) as (K1 & K2 & K3 & K4 & K5 & K6).
    cbv zeta. rewrite H1, H2, H3, K1, K2, K3.
    repeat split; try lia.
    destruct H6 as [H6 | H6]; [rewrite H6; exact K6 | now right].
Qed.

(** The first row of the dump opens with the text ["ff d8"] exactly when
    the buffer opens with the two bytes. *)
Lemma first_row_soi (data : list byte) :
  0 < length data ->
  starts_with (js "ff d8") (line_hex (hexLine data 0)) = true
  <-> take 2 data = [xff; xd8].
Proof.
  intros Hlen. unfold hexLine, padEnd, slice. cbn [line_hex].
  rewrite drop_0. change (0 + 16 - 0) with 16.
  destruct data as [|b1 [|b2 rest]]; [simpl in Hlen; lia| |].
  - cbn [take map join]. rewrite hex2_digits.
    split; [|intros H; cbn in H; discriminate H].
    cbn [app repeat length Nat.sub starts_with js list_ascii_of_string].
    change (Ascii.eqb " " " ") with true. change (Ascii.eqb "d" " ") with false.
    cbv iota.
    repeat match goal with
           | |- context [Ascii.eqb ?a ?b] => destruct (Ascii.eqb a b)
           end; discriminate.
  - assert (Hjoin : exists tail,
              padEnd 47 " " (join [" "%char] (map hex2 (take 16 (b1 :: b2 :: rest))))
              = hex2 b1 ++ " "%char :: hex2 b2 ++ tail).
    { unfold padEnd. cbn [take map]. destruct (map hex2 (take 14 rest)) as [|p ps].
      - eexists. cbn [join]. rewrite <- !app_assoc. reflexivity.
      - eexists.
        change (join [" "%char] (hex2 b1 :: hex2 b2 :: p :: ps))
          with (hex2 b1 ++ " "%char :: hex2 b2 ++ [" "%char] ++ join [" "%char] (p :: ps)).
        rewrite <- !app_assoc. cbn [app]. rewrite <- !app_assoc. reflexivity. }
    unfold padEnd in Hjoin. destruct Hjoin as [tail ->].
    cbn [take]. rewrite take_0.
    assert (Hff : hex2 xff = js "ff") by reflexivity.
    assert (Hd8 : hex2 xd8 = js "d8") by reflexivity.
    split.
    + intros H. rewrite (hex2_digits b1), (hex2_digits b2) in H.
      cbn [app starts_with js list_ascii_of_string] in H.
      repeat match type of H with
             | context [Ascii.eqb ?a ?b] =>
                 destruct (Ascii.eqb_spec a b); [|discriminate]
             end.
      f_equal; [|f_equal]; apply hex2_inj; rewrite hex2_digits;
        [rewrite Hff | rewrite Hd8]; cbn; congruence.
    + intros [= -> ->]. reflexivity.
Qed.

(** X9. [jpegAnalysis] never reports an end-of-image marker and calls a
    file a valid JPEG exactly when it reports the start-of-image marker;
    each table counter is at most the number of rows, and the image size is
    either unset or the constant 612 by 816.  On the rows of
    [generateHexDump] the start of image is reported exactly when the
    buffer opens with the bytes ff d8. *)
Theorem jpegAnalysis_start_of_image (lines : list HexLine)
    (data : list byte) :
  let analysis := jpegAnalysis lines in
  hasEOI analysis = false /\
  isValidJPEG analysis = hasSOI analysis /\
  quantizationTables analysis <= length lines /\
  huffmanTables analysis <= length lines /\
  (imageSize analysis = (0, 0) \/ imageSize analysis = (612, 816)) /\
  (hasSOI (jpegAnalysis (generateHexDump data)) = true
   <-> take 2 data = [xff; xd8]).
Proof.
  cbv zeta. unfold jpegAnalysis.
  assert (Hany : forall rows : list HexLine,
    let start :=
      match rows with
      | first :: _ =>
          if starts_with (js "ff d8") (line_hex first)
          then mkJpegAnalysis true true false
                 [mkSegment "SOI (Start of Image)" "FF D8" (js "00000000")]
                 0 0 false false (0, 0)
          else mkJpegAnalysis false false false [] 0 0 false false (0, 0)
      | [] => mkJpegAnalysis false false false [] 0 0 false false (0, 0)
      end in
    hasEOI start = false /\ isValidJPEG start = hasSOI start /\
    quantizationTables start = 0 /\ huffmanTables start = 0 /\
    imageSize start = (0, 0)).
  { intros [|first rows]; cbv zeta; [repeat split|].
    destruct (starts_with (js "ff d8") (line_hex first)); repeat split. }
  split; [|split; [|split; [|split; [|split]]]].
  1-5: match goal with |- context [jpeg_rows ?s ?l] =>
      destruct (Hany l) as (S1 & S2 & S3 & S4 & S5);
      destruct (jpeg_rows_keep l s) as (H1 & H2 & H3 & H4 & H5 & H6)
    end; cbv zeta in *.
  - now rewrite H3.
  - now rewrite H1, H2.
  - rewrite S3 in H4. exact H4.
  - rewrite S4 in H5. exact H5.
  - rewrite S5 in H6. exact H6.
  - match goal with |- context [jpeg_rows ?s ?l] =>
      destruct (jpeg_rows_keep l s) as (_ & -> & _)
    end.
    destruct data as [|b data'] eqn:Hdata; [cbn; split; discriminate|].
    rewrite <- Hdata.
    assert (Hlen : 0 < length data) by (subst data; simpl; lia).
    rewrite <- (first_row_soi data Hlen).
    rewrite generateHexDump_rows.
    assert (Hrows : exists n, (length data + 15) / 16 = S n).
    { exists ((length data + 15) / 16 - 1).
      assert (1 <= (length data + 15) / 16); [|lia].
      apply Nat.div_le_lower_bound; lia. }
    destruct Hrows as [n ->]. cbn [seq map]. rewrite Nat.mul_0_r.
    destruct (starts_with (js "ff d8") (line_hex (hexLine data 0)));
      cbn; split; congruence.
Qed.

(** ** The pattern scanner on the rows of the page *)

Definition is_digit (c : ascii) : bool :=
  existsb (Ascii.eqb c) (js "0123456789").

(** An expression written with digits only. *)
Definition digits_only (rx : Regex) : bool :=
  match rx with
  | RxRun c d _ => is_digit c && is_digit d
  | RxAlt alts => forallb (forallb is_digit) alts
  end.

(** An expression that needs a character that uppercase hex text lacks. *)
Definition needs_lowercase (rx : Regex) : bool :=
  match rx with
  | RxRun c _ _ => negb (is_upper_hex c)
  | RxAlt alts => forallb (fun alt => negb (forallb is_upper_hex alt)) alts
  end.

Lemma lower_hex_cases (c : ascii) :
  is_lower_hex c = true -> In c (js "0123456789abcdef").
Proof.
  unfold is_lower_hex, js. cbn [list_ascii_of_string existsb In].
  intros H.
  repeat (apply orb_prop in H as [H | H];
          [apply Ascii.eqb_eq in H; subst c; tauto|]).
  discriminate.
Qed.

Lemma digit_cases (c : ascii) :
  is_digit c = true -> In c (js "0123456789").
Proof.
  unfold is_digit, js. cbn [list_ascii_of_string existsb In].
  intros H.
  repeat (apply orb_prop in H as [H | H];
          [apply Ascii.eqb_eq in H; subst c; tauto|]).
  discriminate.
Qed.

Lemma digit_eqb_upper (d c : ascii) :
  is_digit d = true -> is_lower_hex c = true ->
  Ascii.eqb d (upper_char c) = Ascii.eqb d c /\
  Ascii.eqb (upper_char c) d = Ascii.eqb c d.
Proof.
  intros Hd Hc. apply digit_cases in Hd. apply lower_hex_cases in Hc.
  cbn [js list_ascii_of_string In] in Hd, Hc.
  repeat (destruct Hd as [<- | Hd];
          [repeat (destruct Hc as [<- | Hc]; [split; reflexivity|]);
           contradiction|]).
  contradiction.
Qed.

Lemma starts_with_upper (a : list ascii) :
  forallb is_digit a = true ->
  forall s : list ascii,
    forallb is_lower_hex s = true ->
    starts_with a (toUpperCase s) = starts_with a s.
Proof.
  intros Ha. induction a as [|d a IH]; intros s Hs; [reflexivity|].
  cbn [forallb] in Ha. apply andb_prop in Ha as [Hd Ha].
  destruct s as [|c s]; [reflexivity|].
  cbn [forallb] in Hs. apply andb_prop in Hs as [Hc Hs].
  cbn [toUpperCase map starts_with].
  rewrite (proj1 (digit_eqb_upper d c Hd Hc)).
  destruct (Ascii.eqb d c); [|reflexivity].
  apply (IH Ha s Hs).
Qed.

Lemma run_length_upper (d : ascii) (s : list ascii) :
  is_digit d = true -> forallb is_lower_hex s = true ->
  run_length d (toUpperCase s) = run_length d s.
Proof.
  intros Hd. induction s as [|c s IH]; intros Hs; [reflexivity|].
  cbn [forallb] in Hs. apply andb_prop in Hs as [Hc Hs].
  cbn [toUpperCase map run_length].
  rewrite (proj2 (digit_eqb_upper d c Hd Hc)).
  destruct (Ascii.eqb c d); [|reflexivity].
  f_equal. apply (IH Hs).
Qed.

Lemma match_here_upper (rx : Regex) (s : list ascii) :
  digits_only rx = true -> forallb is_lower_hex s = true ->
  match_here rx (toUpperCase s) = match_here rx s.
Proof.
  destruct rx as [c d n | alts]; cbn [digits_only match_here]; intros Hrx Hs.
  - apply andb_prop in Hrx as [Hc Hd].
    destruct s as [|c0 s]; [reflexivity|].
    cbn [forallb] in Hs. apply andb_prop in Hs as [Hc0 Hs].
    cbn [toUpperCase map].
    rewrite (proj2 (digit_eqb_upper c c0 Hc Hc0)).
    change (map upper_char s) with (toUpperCase s).
    now rewrite (run_length_upper d s Hd Hs).
  - induction alts as [|a alts IH]; [reflexivity|].
    cbn [forallb] in Hrx. apply andb_prop in Hrx as [Ha Hrx].
    cbn [first_alt]. rewrite (starts_with_upper a Ha s Hs).
    destruct (starts_with a s); [reflexivity|]. apply (IH Hrx).
Qed.

Lemma matchAll_upper (rx : Regex) (s : list ascii) :
  digits_only rx = true -> forallb is_lower_hex s = true ->
  matchAll rx (toUpperCase s) = matchAll rx s.
Proof.
  intros Hrx. unfold matchAll. generalize 0 at 1 3. generalize 0.
  induction s as [|c s IH]; intros skip i Hs; [reflexivity|].
  pose proof (match_here_upper rx (c :: s) Hrx Hs) as Hhere.
  cbn [forallb] in Hs. apply andb_prop in Hs as [_ Hs].
  cbn [toUpperCase map matchAll_from] in *.
  change (map upper_char s) with (toUpperCase s) in *.
  destruct skip as [|k]; [|apply IH, Hs].
  rewrite Hhere. destruct (match_here rx (c :: s)); now rewrite IH.
Qed.

Lemma match_here_lowercase (rx : Regex) (s : list ascii) :
  needs_lowercase rx = true -> forallb is_upper_hex s = true ->
  match_here rx s = None.
Proof.
  destruct rx as [c d n | alts]; cbn [needs_lowercase match_here];
    intros Hrx Hs.
  - destruct s as [|c0 s]; [reflexivity|].
    cbn [forallb] in Hs. apply andb_prop in Hs as [Hc0 _].
    destruct (Ascii.eqb_spec c0 c) as [-> | _]; [|reflexivity].
    now rewrite Hc0 in Hrx.
  - induction alts as [|a alts IH]; [reflexivity|].
    cbn [forallb] in Hrx. apply andb_prop in Hrx as [Ha Hrx].
    cbn [first_alt]. destruct (starts_with a s) eqn:E; [|apply (IH Hrx)].
    now rewrite (starts_with_forallb is_upper_hex a s E Hs) in Ha.
Qed.

Lemma matchAll_lowercase (rx : Regex) (s : list ascii) :
  needs_lowercase rx = true -> forallb is_upper_hex s = true ->
  matchAll rx s = [].
Proof.
  intros Hrx. unfold matchAll. generalize 0 at 1. generalize 0.
  induction s as [|c s IH]; intros skip i Hs; [reflexivity|].
  pose proof (match_here_lowercase rx (c :: s) Hrx Hs) as Hhere.
  cbn [forallb] in Hs. apply andb_prop in Hs as [_ Hs].
  cbn [matchAll_from]. destruct skip as [|k]; [|apply IH, Hs].
  rewrite Hhere. apply IH, Hs.
Qed.

Lemma octets_lower (bytes : list byte) :
  forallb is_lower_hex (concat (map hex2 bytes)) = true.
Proof.
  apply forallb_forall. intros c Hc.
  apply in_concat in Hc as (octet & Hoctet & Hc).
  apply in_map_iff in Hoctet as (b & <- & _).
  pose proof (hex2_lower b) as H. rewrite forallb_forall in H.
  now apply H.
Qed.

Lemma octets_upper (bytes : list byte) :
  concat (map (fun b => toUpperCase (hex2 b)) bytes)
  = toUpperCase (concat (map hex2 bytes)).
Proof.
  unfold toUpperCase. induction bytes as [|b bytes IH]; [reflexivity|].
  cbn [map concat]. now rewrite map_app, IH.
Qed.

(** X10. On the rows that the page hands to the analyzer only the two
    checks written with digits alone can fire: the run of null bytes and
    the PDF signature, each with the locations it has on the lowercase
    dump of the same 4096 bytes.  The run of ff bytes and the ZIP,
    executable and Office signatures are never reported there. *)
Theorem suspiciousPatterns_on_page_rows (data : list byte) :
  suspiciousPatterns (hd_lines (generateHexData data))
  = filter (fun p => pattern p = "00{20,}"%string
                     \/ pattern p = "25504446"%string)
      (suspiciousPatterns (generateHexDump (take 4096 data))).
Proof.
  unfold suspiciousPatterns.
  rewrite fullHex_generateHexData, fullHex_generateHexDump, octets_upper.
  set (text := concat (map hex2 (take 4096 data))).
  pose proof (octets_lower (take 4096 data)) as Hlower. fold text in Hlower.
  assert (Hupper : forallb is_upper_hex (toUpperCase text) = true).
  { subst text. rewrite <- octets_upper.
    apply forallb_forall. intros c Hc.
    apply in_concat in Hc as (octet & Hoctet & Hc).
    apply in_map_iff in Hoctet as (b & <- & _).
    destruct (upper_octet b) as (_ & _ & _ & Hb & _).
    rewrite forallb_forall in Hb. now apply Hb. }
  assert (Hkept : forall check : SuspiciousCheck,
            digits_only (chk_regex check) = true ->
            chk_source check = "00{20,}"%string
            \/ chk_source check = "25504446"%string ->
            run_check (toUpperCase text) check
            = filter (fun p => pattern p = "00{20,}"%string
                               \/ pattern p = "25504446"%string)
                (run_check text check)).
  { intros check Hrx Hsrc. unfold run_check.
    rewrite (matchAll_upper _ text Hrx Hlower).
    destruct (0 <? length (matchAll (chk_regex check) text)); [|reflexivity].
    rewrite filter_cons, filter_nil. cbn [pattern].
    destruct (decide _) as [_ | Hno]; [reflexivity | contradiction]. }
  assert (Hlost : forall check : SuspiciousCheck,
            needs_lowercase (chk_regex check) = true ->
            ~ (chk_source check = "00{20,}"%string
               \/ chk_source check = "25504446"%string) ->
            run_check (toUpperCase text) check
            = filter (fun p => pattern p = "00{20,}"%string
                               \/ pattern p = "25504446"%string)
                (run_check text check)).
  { intros check Hrx Hsrc. unfold run_check.
    rewrite (matchAll_lowercase _ _ Hrx Hupper).
    change (0 <? length (@nil nat)) with false. cbv iota.
    destruct (0 <? length (matchAll (chk_regex check) text)); [|reflexivity].
    rewrite filter_cons, filter_nil. cbn [pattern].
    destruct (decide _) as [Hyes | _]; [contradiction | reflexivity]. }
  unfold suspiciousChecks. cbn [map concat]. rewrite !filter_app, filter_nil.
  repeat f_equal.
  - apply Hkept; [reflexivity | now left].
  - apply Hlost; [reflexivity | intros [H | H]; discriminate H].
  - apply Hlost; [reflexivity | intros [H | H]; discriminate H].
  - apply Hkept; [reflexivity | now right].
  - apply Hlost; [reflexivity | intros [H | H]; discriminate H].
  - apply Hlost; [reflexivity | intros [H | H]; discriminate H].
Qed.

(** ** The signature scan of the analyzer *)

Lemma lower_octets (bytes : list byte) :
  toLowerCase (concat (map hex2 bytes)) = concat (map hex2 bytes) /\
  toLowerCase (concat (map (fun b => toUpperCase (hex2 b)) bytes))
  = concat (map hex2 bytes).
Proof.
  unfold toLowerCase.
  induction bytes as [|b bytes [IH1 IH2]]; [split; reflexivity|].
  cbn [map concat]. rewrite !map_app, IH1, IH2.
  destruct (upper_octet b) as (_ & _ & Hlow & _).
  unfold toLowerCase in Hlow. rewrite Hlow.
  split; [|reflexivity]. f_equal.
  rewrite <- Hlow at 2. destruct b; reflexivity.
Qed.

(** The scan reads a row through its offset and its hex text, lowercased
    and without spaces. *)
Lemma signature_on_row_ext (line line' : HexLine) :
  line_offset line = line_offset line' ->
  toLowerCase (strip_spaces (line_hex line))
  = toLowerCase (strip_spaces (line_hex line')) ->
  forall sig, signature_on_row line sig = signature_on_row line' sig.
Proof. intros Hoff Hhex sig. unfold signature_on_row. now rewrite Hoff, Hhex. Qed.

(** X11. The signature scan of the analyzer lowercases the text it reads,
    so that on the rows of the page it reports what it reports on the
    lowercase dump of the same 4096 bytes. *)
Theorem fileSignatures_on_page_rows (data : list byte) :
  fileSignatures (hd_lines (generateHexData data))
  = fileSignatures (generateHexDump (take 4096 data)).
Proof.
  unfold fileSignatures.
  rewrite generateHexData_rows, generateHexDump_rows, length_take, !map_map.
  replace (4096 `min` length data) with (length data `min` 4096) by lia.
  f_equal. apply map_ext_in. intros k Hk. apply in_seq in Hk as [_ Hk].
  cbn [Nat.add] in Hk.
  assert (Hrow : 16 * k < length data `min` 4096).
  { pose proof (Nat.div_mod_eq (length data `min` 4096 + 15) 16).
    pose proof (Nat.mod_upper_bound (length data `min` 4096 + 15) 16).
    lia. }
  f_equal. apply map_ext. apply signature_on_row_ext; [reflexivity|].
  rewrite line_hex_upper_strip, line_hex_strip.
  rewrite (proj2 (lower_octets _)), (proj1 (lower_octets _)).
  do 2 f_equal. symmetry. apply slice_take.
  destruct (Nat.le_gt_cases (length data) 4096) as [Hsmall | Hbig];
    [now right | left].
  rewrite Nat.min_r in Hrow by lia.
  assert (E : 4096 = 16 * 256) by reflexivity. lia.
Qed.

Lemma starts_with_length (a s : list ascii) :
  starts_with a s = true -> length a <= length s.
Proof.
  revert s. induction a as [|c a IH]; intros s H; [simpl; lia|].
  destruct s as [|d s]; [discriminate|]. cbn [starts_with] in H.
  destruct (Ascii.eqb c d); [|discriminate]. simpl. apply IH in H. lia.
Qed.

Lemma octets_length (bytes : list byte) :
  length (concat (map hex2 bytes)) = 2 * length bytes.
Proof.
  induction bytes as [|b bytes IH]; [reflexivity|].
  cbn [map concat length]. rewrite length_app, hex2_length, IH. lia.
Qed.

Lemma knownSignatures_length (sig : list ascii) (desc ext : string) :
  In (sig, desc, ext) knownSignatures -> length sig = 8.
Proof.
  cbn [knownSignatures In]. intros H.
  repeat (destruct H as [[= <- _ _] | H]; [reflexivity|]). contradiction.
Qed.

(** X12. On the rows of [generateHexDump] the signature scan reports, for
    each row and each known signature, the first place of the row's hex
    text where the signature occurs, and nothing else: the match lies
    inside the row (at hex index 24 at most), and the offset reported is
    the offset of the row plus half that index. *)
Theorem fileSignatures_hits (data : list byte) (hit : SignatureHit) :
  (N.of_nat (length data) <= 2 ^ 32)%N ->
  In hit (fileSignatures (generateHexDump data))
  <-> exists (k : nat) (sig : list ascii) (desc ext : string) (j : nat),
        16 * k < length data /\
        In (sig, desc, ext) knownSignatures /\
        indexOf (concat (map hex2 (slice (16 * k) (16 * k + 16) data))) sig 0
        = Some j /\
        j <= 24 /\
        hit = mkSignatureHit (toUpperCase sig) desc ext
                (Some (inject_Z (Z.of_nat (16 * k))
                       + inject_Z (Z.of_nat j) / 2)%Q).
Proof.
  intros Hbound. unfold fileSignatures.
  assert (Hrow : forall (k : nat) (entry : list ascii * string * string),
            16 * k < length data ->
            signature_on_row (hexLine data (16 * k)) entry
            = match indexOf (concat (map hex2 (slice (16 * k) (16 * k + 16)
                                                 data))) entry.1.1 0 with
              | Some j =>
                  [mkSignatureHit (toUpperCase entry.1.1) entry.1.2 entry.2
                     (Some (inject_Z (Z.of_nat (16 * k))
                            + inject_Z (Z.of_nat j) / 2)%Q)]
              | None => []
              end).
  { intros k entry Hk. unfold signature_on_row.
    rewrite line_hex_strip, (proj1 (lower_octets _)).
    unfold hexLine. cbn [line_offset].
    destruct (offset_column (16 * k) ltac:(lia)) as (_ & _ & ->).
    reflexivity. }
  split.
  - intros Hin. apply in_concat in Hin as (hits & Hhits & Hin).
    apply in_map_iff in Hhits as (line & <- & Hline).
    apply list_elem_of_In, list_elem_of_lookup in Hline as [k Hline].
    apply generateHexDump_lookup in Hline as [Hk ->].
    apply in_concat in Hin as (hits & Hhits & Hin).
    apply in_map_iff in Hhits as (entry & <- & Hentry).
    rewrite (Hrow k entry Hk) in Hin.
    destruct entry as [[sig desc] ext]. cbn [fst snd] in Hin.
    destruct (indexOf _ sig 0) as [j|] eqn:Hj; [|contradiction].
    destruct Hin as [<- | []].
    exists k, sig, desc, ext, j. repeat split; try assumption.
    apply indexOf_Some in Hj as (_ & Hm & _); [|lia].
    unfold matches_at in Hm. apply starts_with_length in Hm.
    rewrite (knownSignatures_length _ _ _ Hentry) in Hm.
    rewrite length_drop, octets_length, slice_length in Hm. lia.
  - intros (k & sig & desc & ext & j & Hk & Hentry & Hj & _ & ->).
    apply in_concat.
    exists (concat (map (signature_on_row (hexLine data (16 * k)))
                      knownSignatures)).
    split.
    + apply in_map_iff. exists (hexLine data (16 * k)). split; [reflexivity|].
      rewrite generateHexDump_rows. apply in_map_iff. exists k.
      split; [reflexivity|]. apply in_seq.
      pose proof (Nat.div_mod_eq (length data + 15) 16).
      pose proof (Nat.mod_upper_bound (length data + 15) 16). lia.
    + apply in_concat.
      exists (signature_on_row (hexLine data (16 * k)) (sig, desc, ext)).
      split; [now apply in_map|].
      rewrite (Hrow k _ Hk). cbn [fst snd]. rewrite Hj. now left.
Qed.

Lemma fileSignatures_hits_witness :
  In (mkSignatureHit (js "504B0304") "ZIP Archive" "zip"
        (Some (inject_Z (Z.of_nat (16 * 2))
               + inject_Z (Z.of_nat 16) / 2)%Q))
    (fileSignatures (generateHexDump buf100)).
Proof.
  apply (proj2 (fileSignatures_hits buf100 _
                  ltac:(vm_compute; discriminate))).
  exists 2, (js "504b0304"), "ZIP Archive"%string, "zip"%string, 16.
  split; [vm_compute; lia|]. split; [simpl; tauto|].
  split; [vm_compute; reflexivity|]. split; [lia | reflexivity].
Defined.

(** ** The entropy of a chunk *)

(** A table whose entries are 0 or [k] adds the same term for each entry
    that is not 0. *)
Lemma entropy_fold_level (len k : nat) (freqs : list nat) :
  0 < k ->
  Forall (fun f => f = 0 \/ f = k) freqs ->
  forall acc : R,
    (fold_left (entropy_step len) freqs acc * INR k
     = acc * INR k
       - INR (sum_list freqs) * (INR k / INR len * log2 (INR k / INR len)))%R.
Proof.
  intros Hk. induction 1 as [|f freqs Hf _ IH]; intros acc.
  - cbn. ring.
  - cbn [fold_left sum_list sum_list_with]. change (Datatypes.id f) with f.
    fold (sum_list freqs). rewrite IH, plus_INR. unfold entropy_step.
    destruct Hf as [-> | ->].
    + cbn [Nat.ltb Nat.leb INR]. ring.
    + destruct (Nat.ltb_spec 0 k) as [_ | ?]; [|lia]. ring.
Qed.

Lemma chunk_fold_level (freq : list nat) (len k : nat) (bytes : list byte) :
  0 < k ->
  Forall (fun b => freq !! Byte.to_nat b = Some k) bytes ->
  forall acc : R,
    fold_left (chunk_step freq len)
      (map (fun b => Some (Z.of_N (Byte.to_N b))) bytes) acc
    = (acc - INR (length bytes)
             * (INR k / INR len * log2 (INR k / INR len)))%R.
Proof.
  intros Hk. induction 1 as [|b bytes Hb _ IH]; intros acc.
  - cbn. ring.
  - cbn [map fold_left length]. rewrite IH, S_INR. unfold chunk_step.
    rewrite byte_index_octet, Hb. cbn [default]. change (Datatypes.id k) with k.
    destruct (Nat.ltb_spec 0 k) as [_ | ?]; [|lia]. ring.
Qed.

(** X13. When every byte value that occurs in a chunk occurs [k] times,
    the figure that [entropyAnalysis] computes for the chunk is [k] times
    the entropy of the chunk: each byte of the chunk, not each byte value,
    adds its term.  So the area is flagged as soon as [k] times the entropy
    exceeds 7.8, although the entropy itself never exceeds 8. *)
Theorem chunk_entropy_counts_every_byte (data : list byte) (k : nat) :
  0 < k -> 0 < length data <= 256 ->
  Forall (fun b => count_occ Byte.byte_eq_dec data b = k) data ->
  let analysis := entropyAnalysis (generateHexDump data) in
  let chunk := map (fun b => Some (Z.of_N (Byte.to_N b))) data in
  ea_entropy analysis = calculateEntropy data /\
  (calculateEntropy data
   = - log2 (INR k / INR (length data)))%R /\
  (chunkEntropyOf chunk = INR k * calculateEntropy data)%R /\
  ea_suspiciousAreas analysis
  = if Rgt_dec (INR k * calculateEntropy data) (78 / 10)
    then [mkArea 0 (INR k * calculateEntropy data)%R] else [].
Proof.
  intros Hk [Hpos Hlen] Hall analysis chunk.
  assert (Hk0 : (0 < INR k)%R) by (apply lt_0_INR; exact Hk).
  assert (Hn0 : (0 < INR (length data))%R) by (apply lt_0_INR; exact Hpos).
  assert (Hentropy : (calculateEntropy data
                      = - log2 (INR k / INR (length data)))%R).
  { unfold calculateEntropy.
    assert (Hlevel : Forall (fun f => f = 0 \/ f = k) (frequency data)).
    { apply Forall_lookup. intros i f Hi.
      assert (Hlt : i < 256).
      { rewrite <- (frequency_length data). eapply lookup_lt_Some, Hi. }
      rewrite frequency_lookup in Hi by exact Hlt. inversion Hi; subst.
      destruct (Byte.of_nat i) as [b|] eqn:Hb.
      - apply Byte.to_of_nat in Hb. subst i. rewrite count_idx_byte.
        destruct (in_dec Byte.byte_eq_dec b data) as [Hin | Hout].
        + right. rewrite Forall_forall in Hall.
          apply Hall, list_elem_of_In, Hin.
        + left. now apply count_occ_not_In.
      - apply Byte.of_nat_None_iff in Hb. lia. }
    pose proof (entropy_fold_level (length data) k (frequency data) Hk Hlevel
                  0%R) as H.
    rewrite frequency_sum in H.
    apply (Rmult_eq_reg_r (INR k)); [|lra].
    rewrite H. field. lra. }
  assert (Hchunk : (chunkEntropyOf chunk = INR k * calculateEntropy data)%R).
  { unfold chunkEntropyOf. subst chunk.
    rewrite frequencyOf_octets, length_map.
    rewrite (chunk_fold_level (frequency data) (length data) k data Hk).
    - rewrite Hentropy. field. lra.
    - apply Forall_forall. intros b Hb.
      rewrite frequency_lookup
        by (pose proof (Byte.to_nat_bounded b); lia).
      rewrite count_idx_byte. f_equal.
      rewrite Forall_forall in Hall. now apply Hall. }
  split; [apply entropyAnalysis_rendered|].
  split; [exact Hentropy|]. split; [exact Hchunk|].
  subst analysis. unfold entropyAnalysis. cbn [ea_suspiciousAreas].
  rewrite hexToBytes_generateHexDump. fold chunk.
  assert (Hclen : length chunk = length data) by (subst chunk; apply length_map).
  rewrite Hclen.
  destruct (length data) as [|n] eqn:Hn; [lia|].
  cbn [chunk_loop]. rewrite Hclen.
  destruct (Nat.ltb_spec 0 (S n)) as [_ | ?]; [|lia].
  assert (Hslice : slice 0 (0 + 256) chunk = chunk).
  { unfold slice. rewrite drop_0. apply take_ge. lia. }
  rewrite Hslice, Hchunk.
  assert (Hrest : chunk_loop n chunk (0 + 256) = []).
  { destruct n as [|n']; [reflexivity|]. cbn [chunk_loop].
    destruct (Nat.ltb_spec (0 + 256) (length chunk)) as [Hlt | _];
      [|reflexivity].
    rewrite Hclen in Hlt. simpl in Hlt. lia. }
  rewrite Hrest, app_nil_r.
  destruct (Rgt_dec _ _); reflexivity.
Qed.

Lemma chunk_entropy_counts_every_byte_witness :
  let data := repeat x00 128 ++ repeat xff 128 in
  (chunkEntropyOf (map (fun b => Some (Z.of_N (Byte.to_N b))) data)
   = INR 128 * calculateEntropy data)%R.
Proof.
  intros data.
  assert (Hall : Forall (fun b => count_occ Byte.byte_eq_dec data b = 128)
                   data)
    by (apply Forall_app; split; apply Forall_forall; intros b Hb;
        apply list_elem_of_In, repeat_spec in Hb; subst b;
        vm_compute; reflexivity).
  assert (Hlen : 0 < length data <= 256) by (vm_compute; lia).
  exact (proj1 (proj2 (proj2
           (chunk_entropy_counts_every_byte data 128 ltac:(lia) Hlen Hall)))).
Defined.

(** ** What consolidation stores *)

Lemma js_round_quotient (a b : Z) :
  (0 < b)%Z ->
  js_round (inject_Z a / inject_Z b) = ((2 * a + b) / (2 * b))%Z.
Proof.
  intros Hb. destruct b as [|b|b]; try lia.
  unfold js_round, Qdiv, Qmult, Qinv, Qplus, Qfloor, inject_Z.
  cbn [Qnum Qden]. f_equal; lia.
Qed.

Section ConsolidationInvariants.
Context {V : Type} (stringify : V -> option string).

Implicit Types (sources : list (string * ExifSource V)) (field : string).

#[local] Instance answers_dec (entry : string * ExifSource V) field :
  Decision (answers entry field).
Proof. unfold answers. apply _. Defined.

Lemma fieldDataOf_sources sources field :
  map fd_source (fieldDataOf sources field)
  = map fst (filter (fun entry => answers entry field) sources).
Proof.
  induction sources as [|[name src] sources IH]; [reflexivity|].
  rewrite fieldDataOf_cons, filter_cons.
  destruct (decide (answers (name, src) field)) as [[Hs [v Hv]] | Hno];
    cbn [fst snd] in *.
  - rewrite decide_True by exact Hs. rewrite Hv. cbn. now rewrite IH.
  - destruct (decide (src_status src = success)) as [Hs | Hs]; [|exact IH].
    destruct (prop (src_data src) field) as [v|] eqn:Hv; [|exact IH].
    exfalso. apply Hno. split; [exact Hs | eauto].
Qed.

(** X14. A field is in the consolidated map exactly when a successful
    source holds it as a property of its own.  Its [sources] are the keys
    of the successful sources whose property of that name is not
    [undefined], in the order of the keys: the sources that hold the
    field, and with them the sources that inherit a member of that name.
    Every conflict recorded comes from such a source other than the first,
    with a value that serializes otherwise than the value kept. *)
Theorem consolidateExifData_fields sources field :
  (is_Some (consolidateExifData stringify sources !! field)
   <-> exists entry, entry ∈ sources /\ reports entry field) /\
  forall e : ConsolidatedField V,
    consolidateExifData stringify sources !! field = Some e ->
    cf_sources e
    = map fst (filter (fun entry => answers entry field) sources) /\
    (forall entry, entry ∈ sources -> reports entry field ->
                   entry.1 ∈ cf_sources e) /\
    forall (conflicts : list (FieldDatum V)) (d : FieldDatum V),
      cf_conflicts e = Some conflicts -> d ∈ conflicts ->
      stringify (fd_value d) <> stringify (cf_value e) /\
      d ∈ tail (fieldDataOf sources field) /\
      exists src, (fd_source d, src) ∈ sources /\
                  src_status src = success /\
                  prop (src_data src) field = Some (fd_value d).
Proof.
  split; [apply consolidateExifData_is_Some|].
  intros e He.
  apply consolidateExifData_Some in He
    as (_ & first & rest & Hfd & Hval & Hsrc & _ & Hconfl).
  assert (Hlisted : cf_sources e
            = map fst (filter (fun entry => answers entry field) sources))
    by (rewrite Hsrc; apply fieldDataOf_sources).
  split; [exact Hlisted|]. split.
  - intros entry Hin Hr. rewrite Hlisted.
    apply list_elem_of_fmap. exists entry. split; [reflexivity|].
    apply list_elem_of_filter. split; [now apply reports_answers | exact Hin].
  - intros conflicts d Hc Hd. rewrite Hc in Hconfl.
    destruct (0 <? length (conflictsOf stringify (fd_value first) rest));
      [|discriminate].
    injection Hconfl as ->. unfold conflictsOf in Hd.
    apply list_elem_of_filter in Hd as [Hne Hd].
    split; [now rewrite Hval|]. rewrite Hfd. split; [exact Hd|].
    apply elem_of_fieldDataOf. rewrite Hfd. now apply list_elem_of_further.
Qed.

(** What is read off the confidence by the export, for fewer than 200
    pairs: its range, and its value when there is one serialized value.
    The binary64 computation is checked for each [k] and [u]. *)
Lemma agreement_range (k u : nat) :
  1 <= u <= k -> k < 200 ->
  (1 <= confidence_of k u <= 100)%Z /\
  ((200 + Z.of_nat k) / (2 * Z.of_nat k) <= confidence_of k u)%Z /\
  (confidence_of k u = 100%Z <-> u = 1).
Proof.
  intros Hu Hk.
  pose proof (table_holds_spec 199
                (fun k u =>
                   let c := confidence_of k u in
                   (1 <=? c)%Z && (c <=? 100)%Z
                   && ((200 + Z.of_nat k) / (2 * Z.of_nat k) <=? c)%Z
                   && Bool.eqb (c =? 100)%Z (u =? 1))
                ltac:(vm_compute; reflexivity) k u Hu ltac:(lia)) as Htest.
  cbv beta zeta in Htest.
  apply andb_true_iff in Htest as [Htest Hfull].
  apply andb_true_iff in Htest as [Htest Hlow].
  apply andb_true_iff in Htest as [H1 H100].
  apply Z.leb_le in H1, H100, Hlow. apply Bool.eqb_prop in Hfull.
  split; [lia|]. split; [exact Hlow|].
  rewrite <- Z.eqb_eq, <- Nat.eqb_eq, Hfull. reflexivity.
Qed.

(** X15. With fewer than 200 sources the confidence of an entry is a
    whole number from 1 to 100, at least [100 / k] rounded for [k] the
    number of sources listed, and it is 100 exactly when no conflicts are
    recorded. *)
Theorem confidence_100_iff_no_conflicts sources field
    (e : ConsolidatedField V) :
  length sources < 200 ->
  consolidateExifData stringify sources !! field = Some e ->
  (1 <= cf_confidence e <= 100)%Z /\
  ((200 + Z.of_nat (length (cf_sources e)))
   / (2 * Z.of_nat (length (cf_sources e))) <= cf_confidence e)%Z /\
  (cf_confidence e = 100%Z <-> cf_conflicts e = None).
Proof.
  intros Hfew He.
  destruct (entry_counts stringify sources field e He)
    as (_ & Hlen & Hu & Hk & Hconf & Hone & _).
  set (k := length (fieldDataOf sources field)) in *.
  set (u := length
              (remove_dups
                 (map (fun d => stringify (fd_value d))
                    (fieldDataOf sources field)))) in *.
  destruct (agreement_range k u Hu ltac:(lia)) as (Hrange & Hlow & Hfull).
  rewrite <- Hlen, Hconf.
  split; [exact Hrange|]. split; [exact Hlow|].
  now rewrite Hfull, Hone.
Qed.

Lemma sum_confidence_bounds (values : list (ConsolidatedField V)) :
  Forall (fun e => (1 <= cf_confidence e <= 100)%Z) values ->
  forall sum : Z,
    (sum + Z.of_nat (length values)
     <= fold_left (fun sum item => sum + cf_confidence item) values sum
     <= sum + 100 * Z.of_nat (length values))%Z.
Proof.
  induction 1 as [|e values He _ IH]; intros sum; cbn [fold_left length].
  - lia.
  - specialize (IH (sum + cf_confidence e)%Z). lia.
Qed.

Lemma sum_confidence_full (values : list (ConsolidatedField V)) :
  Forall (fun e => cf_confidence e = 100%Z) values ->
  forall sum : Z,
    fold_left (fun sum item => sum + cf_confidence item)%Z values sum
    = (sum + 100 * Z.of_nat (length values))%Z.
Proof.
  induction 1 as [|e values He _ IH]; intros sum; cbn [fold_left length].
  - lia.
  - rewrite IH, He. lia.
Qed.

(** X16. The analysis that [exportConsolidatedData] writes, for fewer
    than 200 sources: the average confidence is [NaN] exactly when no
    successful source holds any field; otherwise it is a whole number from
    1 to 100, and it is 100 when no entry records conflicts; and the number
    of entries with conflicts is at most the number of fields. *)
Theorem exportAnalysis_average sources :
  length sources < 200 ->
  let analysis := exportAnalysis (consolidateExifData stringify sources) in
  (avg_confidence analysis = None
   <-> forall entry field, entry ∈ sources -> ~ reports entry field) /\
  (forall avg, avg_confidence analysis = Some avg -> (1 <= avg <= 100)%Z) /\
  (conflicts analysis = 0 -> total_unique_fields analysis <> 0 ->
   avg_confidence analysis = Some 100%Z) /\
  conflicts analysis <= total_unique_fields analysis.
Proof.
  intros Hfew analysis. subst analysis. unfold exportAnalysis.
  cbn [avg_confidence conflicts total_unique_fields].
  set (consolidated := consolidateExifData stringify sources).
  set (values := (map_to_list consolidated).*2).
  assert (Hlen : length values = size consolidated).
  { subst values. now rewrite length_fmap, length_map_to_list. }
  assert (Hentry : forall e, e ∈ values ->
            exists field, consolidated !! field = Some e).
  { intros e He. subst values.
    apply list_elem_of_fmap in He as ([field e'] & -> & He).
    apply elem_of_map_to_list in He. eauto. }
  assert (Hbounds : Forall (fun e => (1 <= cf_confidence e <= 100)%Z) values).
  { apply Forall_forall. intros e He.
    destruct (Hentry e He) as [field Hfield].
    destruct (entry_counts stringify sources field e Hfield)
      as (_ & _ & Hu & Hk & -> & _).
    exact (proj1 (agreement_range _ _ Hu ltac:(lia))). }
  pose proof (sum_confidence_bounds values Hbounds 0%Z) as Hsum.
  rewrite Hlen in Hsum.
  split; [|split; [|split]].
  - destruct (decide (size consolidated = 0)) as [Hzero | Hpos].
    + split; [|reflexivity]. intros _ entry field Hin Hreports.
      apply map_size_empty_iff in Hzero.
      assert (Hsome : is_Some (consolidated !! field)).
      { subst consolidated.
        apply consolidateExifData_is_Some. eauto. }
      rewrite Hzero, lookup_empty in Hsome. now destruct Hsome.
    + split; [discriminate|]. intros Hnone. exfalso. apply Hpos.
      apply map_size_empty_iff, map_empty. intros field.
      destruct (consolidated !! field) as [e|] eqn:He; [|reflexivity].
      exfalso.
      destruct (proj1 (consolidateExifData_is_Some stringify sources field)
                  (ex_intro _ e He)) as (entry & Hin & Hreports).
      exact (Hnone entry field Hin Hreports).
  - intros avg. destruct (decide (size consolidated = 0)); [discriminate|].
    intros [= <-].
    replace (inject_Z (fold_left _ values 0%Z)
             / inject_Z (Z.of_nat (size consolidated)))%Q
      with (inject_Z (fold_left
                        (fun sum item => (sum + cf_confidence item)%Z)
                        values 0%Z)
            / inject_Z (Z.of_nat (size consolidated)))%Q by reflexivity.
    rewrite js_round_quotient by lia.
    split; [apply Z.div_le_lower_bound; lia|].
    assert (((2 * fold_left (fun sum item => sum + cf_confidence item)
                    values 0 + Z.of_nat (size consolidated))
             / (2 * Z.of_nat (size consolidated)) < 101)%Z); [|lia].
    apply Z.div_lt_upper_bound; lia.
  - intros Hnone Hpos.
    destruct (decide (size consolidated = 0)) as [? | _]; [contradiction|].
    assert (Hfull : Forall (fun e => cf_confidence e = 100%Z) values).
    { apply Forall_forall. intros e He.
      destruct (Hentry e He) as [field Hfield].
      destruct (entry_counts stringify sources field e Hfield)
        as (_ & _ & Hu & Hk & -> & Hone & _).
      apply (agreement_range _ _ Hu ltac:(lia)), Hone.
      destruct (cf_conflicts e) as [c|] eqn:Hc; [|reflexivity].
      exfalso. apply length_zero_iff_nil in Hnone.
      assert (Hin : e ∈ filter (fun item => is_Some (cf_conflicts item))
                          values).
      { apply list_elem_of_filter. split; [rewrite Hc; eauto | exact He]. }
      rewrite Hnone in Hin. now apply not_elem_of_nil in Hin. }
    rewrite (sum_confidence_full values Hfull), Hlen.
    rewrite js_round_quotient by lia. f_equal.
    replace (2 * (0 + 100 * Z.of_nat (size consolidated))
             + Z.of_nat (size consolidated))%Z
      with (100 * (2 * Z.of_nat (size consolidated))
            + Z.of_nat (size consolidated))%Z by lia.
    rewrite Z.div_add_l by lia. rewrite Z.div_small by lia. lia.
  - rewrite <- Hlen. apply length_filter.
Qed.

End ConsolidationInvariants.

Lemma confidence_100_iff_no_conflicts_witness :
  consolidateExifData JSON_stringify (exifSources demo_run) !! "ISO"%string
  = Some demo_iso /\
  (1 <= cf_confidence demo_iso <= 100)%Z.
Proof.
  assert (H : consolidateExifData JSON_stringify (exifSources demo_run)
                !! "ISO"%string = Some demo_iso)
    by (vm_compute; reflexivity).
  assert (Hfew : length (exifSources demo_run) < 200) by (vm_compute; lia).
  split; [exact H|].
  exact (proj1 (confidence_100_iff_no_conflicts JSON_stringify
                  (exifSources demo_run) "ISO" demo_iso Hfew H)).
Defined.

Lemma exportAnalysis_average_witness :
  avg_confidence
    (exportAnalysis (consolidateExifData JSON_stringify (exifSources demo_run)))
  = Some 75%Z /\
  (1 <= 75 <= 100)%Z.
Proof.
  assert (H : avg_confidence
                (exportAnalysis
                   (consolidateExifData JSON_stringify (exifSources demo_run)))
              = Some 75%Z)
    by (vm_compute; reflexivity).
  assert (Hfew : length (exifSources demo_run) < 200) by (vm_compute; lia).
  split; [exact H|].
  exact (proj1 (proj2 (exportAnalysis_average JSON_stringify
                         (exifSources demo_run) Hfew)) 75%Z H).
Defined.

(** ** The manual EXIF scan *)

(** The two bytes at [i] are the APP1 marker ff e1. *)
Definition marker_at (data : list byte) (i : nat) : Prop :=
  data !! i = Some xff /\ data !! (i + 1) = Some xe1.

Lemma to_N_inj (a b : byte) : Byte.to_N a = Byte.to_N b -> a = b.
Proof.
  intros H. assert (Some a = Some b); [|congruence].
  now rewrite <- (Byte.of_to_N a), <- (Byte.of_to_N b), H.
Qed.

Lemma getUint16_marker (data : list byte) (i : nat) :
  i + 1 < length data ->
  exists marker, getUint16 data i = Some marker /\
                 ((marker =? 65505)%Z = true <-> marker_at data i).
Proof.
  intros Hi. unfold getUint16, marker_at.
  destruct (lookup_lt_is_Some_2 data i ltac:(lia)) as [hi ->].
  destruct (lookup_lt_is_Some_2 data (i + 1) Hi) as [lo ->].
  eexists. split; [reflexivity|].
  pose proof (Byte.to_N_bounded hi). pose proof (Byte.to_N_bounded lo).
  rewrite Z.eqb_eq. split.
  - intros Heq.
    assert (Byte.to_N hi = Byte.to_N xff) by (cbn; lia).
    assert (Byte.to_N lo = Byte.to_N xe1) by (cbn; lia).
    split; f_equal; now apply to_N_inj.
  - intros [[= ->] [= ->]]. reflexivity.
Qed.

Lemma manual_loop_finds (offsetOutOfBounds invalidLength : string)
    (data : list byte) (i : nat) :
  marker_at data i ->
  forall (fuel offset : nat),
    offset <= i -> length data <= offset + fuel ->
    (forall j, offset <= j -> j < i -> ~ marker_at data j) ->
    manual_loop offsetOutOfBounds invalidLength fuel data offset
    = exif_segment offsetOutOfBounds invalidLength data i.
Proof.
  intros Hi.
  assert (Hlen : i + 1 < length data).
  { destruct Hi as [_ Hi]. now apply lookup_lt_Some in Hi. }
  induction fuel as [|f IH]; intros offset Hle Hfuel Hnone; [lia|].
  cbn [manual_loop].
  destruct (Nat.ltb_spec (offset + 1) (length data)) as [Hlt | ?]; [|lia].
  destruct (getUint16_marker data offset Hlt) as (marker & -> & Hmarker).
  destruct (marker =? 65505)%Z eqn:E.
  - destruct (Nat.eq_dec offset i) as [-> | Hne]; [reflexivity|].
    exfalso. apply (Hnone offset); [lia | lia | now apply Hmarker].
  - assert (offset <> i).
    { intros ->. apply Hmarker in Hi. congruence. }
    apply IH; [lia | lia |]. intros j Hj. apply Hnone. lia.
Qed.

Lemma manual_loop_none (offsetOutOfBounds invalidLength : string)
    (data : list byte) :
  (forall i, ~ marker_at data i) ->
  forall fuel offset : nat,
    manual_loop offsetOutOfBounds invalidLength fuel data offset = Returned ∅.
Proof.
  intros Hnone. induction fuel as [|f IH]; intros offset; [reflexivity|].
  cbn [manual_loop].
  destruct (Nat.ltb_spec (offset + 1) (length data)) as [Hlt | ?];
    [|reflexivity].
  destruct (getUint16_marker data offset Hlt) as (marker & -> & Hmarker).
  destruct (marker =? 65505)%Z eqn:E; [|apply IH].
  exfalso. apply (Hnone offset). now apply Hmarker.
Qed.

(** X17. [parseExifManually] looks at the first place where the bytes
    ff e1 occur, and at nothing after it.  Without such a place it returns
    the empty object.  Otherwise it throws when the two bytes of the
    segment length lie beyond the end of the file, or when the length they
    give is below 2 or reaches beyond the end of the file; else it returns
    the three properties, with the offset of that place and the length
    read. *)
Theorem parseExifManually_first_marker
    (offsetOutOfBounds invalidLength : string) (data : list byte) :
  let result := parseExifManually offsetOutOfBounds invalidLength data in
  ((forall i, ~ marker_at data i) -> result = Returned ∅) /\
  forall i : nat,
    marker_at data i -> (forall j, j < i -> ~ marker_at data j) ->
    (length data < i + 4 ->
     result = Threw (ErrorObject offsetOutOfBounds)) /\
    forall hi lo : byte,
      data !! (i + 2) = Some hi -> data !! (i + 3) = Some lo ->
      let segmentLength :=
        (256 * Z.of_N (Byte.to_N hi) + Z.of_N (Byte.to_N lo))%Z in
      ((segmentLength < 2)%Z
       \/ (Z.of_nat (length data) < Z.of_nat i + 2 + segmentLength)%Z ->
       result = Threw (ErrorObject invalidLength)) /\
      ((2 <= segmentLength)%Z ->
       (Z.of_nat i + 2 + segmentLength <= Z.of_nat (length data))%Z ->
       result
       = Returned
           (<["manual_exif_offset"%string := JNum (Z.of_nat i)]>
              (<["manual_exif_segment_size"%string := JNum segmentLength]>
                 (<["manual_exif_segment_found"%string := JBool true]> ∅)))).
Proof.
  intros result. subst result. unfold parseExifManually. split.
  - intros Hnone. now apply manual_loop_none.
  - intros i Hi Hfirst.
    rewrite (manual_loop_finds _ _ data i Hi) by
      (try lia; intros j _ Hj; now apply Hfirst).
    unfold exif_segment, getUint16. split.
    + intros Hshort.
      replace (i + 2 + 1) with (i + 3) by lia.
      destruct (data !! (i + 2)) as [hi|] eqn:Hhi; [|reflexivity].
      destruct (data !! (i + 3)) as [lo|] eqn:Hlo; [|reflexivity].
      apply lookup_lt_Some in Hlo. lia.
    + intros hi lo Hhi Hlo.
      replace (i + 2 + 1) with (i + 3) by lia. rewrite Hhi, Hlo.
      set (segmentLength :=
             (256 * Z.of_N (Byte.to_N hi) + Z.of_N (Byte.to_N lo))%Z).
      split.
      * intros Hbad.
        destruct (segmentLength - 2 <? 0)%Z eqn:E1; [reflexivity|].
        destruct (Z.of_nat (length data)
                  <? Z.of_nat (i + 4) + (segmentLength - 2))%Z eqn:E2;
          [reflexivity|].
        apply Z.ltb_ge in E1, E2. lia.
      * intros H2 Hfit.
        destruct (segmentLength - 2 <? 0)%Z eqn:E1;
          [apply Z.ltb_lt in E1; lia|].
        destruct (Z.of_nat (length data)
                  <? Z.of_nat (i + 4) + (segmentLength - 2))%Z eqn:E2;
          [apply Z.ltb_lt in E2; lia|].
        reflexivity.
Qed.

Lemma parseExifManually_first_marker_witness :
  let data := [xff; xd8; xff; xe1; x00; x10; x45; x78] in
  marker_at data 2 /\
  parseExifManually "Offset is outside the bounds of the DataView"
    "Invalid typed array length" data
  = Threw (ErrorObject "Invalid typed array length").
Proof.
  intros data.
  assert (Hmarker : marker_at data 2) by (split; reflexivity).
  assert (Hfirst : forall j, j < 2 -> ~ marker_at data j).
  { intros [|[|j]] Hj [H1 H2]; try discriminate. lia. }
  split; [exact Hmarker|].
  refine (proj1 (proj2 (proj2 (parseExifManually_first_marker _ _ data)
                          2 Hmarker Hfirst)
                   x00 x10 eq_refl eq_refl) _).
  right. vm_compute. reflexivity.
Defined.

(** ** The binary scan *)

Lemma pattern_at_slice (data pattern : list byte) :
  forall i : nat,
    pattern_at data i pattern = true
    <-> take (length pattern) (drop i data) = pattern.
Proof.
  induction pattern as [|p pattern IH]; intros i; cbn [pattern_at length].
  - now rewrite take_0.
  - destruct (data !! i) as [b|] eqn:Hb.
    + rewrite (drop_S data b i Hb). cbn [take].
      destruct (Byte.eqb b p) eqn:E.
      * apply Byte.byte_dec_bl in E. subst b.
        rewrite IH. replace (i + 1) with (S i) by lia.
        split; [intros ->; reflexivity | now intros [= ->]].
      * split; [discriminate|]. intros [= -> _].
        now rewrite (Byte.byte_dec_lb eq_refl) in E.
    + rewrite drop_ge by (now apply lookup_ge_None). split; discriminate.
Qed.

Lemma pattern_loop_spec (data : list byte) (name : string)
    (pattern : list byte) (s : string) :
  forall fuel i0 : nat,
    length data <= i0 + fuel ->
    In s (pattern_loop fuel data name pattern i0)
    <-> exists i, i0 <= i /\ i + length pattern < length data /\
                  take (length pattern) (drop i data) = pattern /\
                  s = (name +:+ "_at_" +:+ pretty i)%string.
Proof.
  induction fuel as [|f IH]; intros i0 Hfuel; cbn [pattern_loop].
  - split; [contradiction|]. intros (i & ? & ? & _). lia.
  - destruct (Z.ltb_spec (Z.of_nat i0)
                (Z.of_nat (length data) - Z.of_nat (length pattern)))
      as [Hlt | Hge].
    + rewrite in_app_iff, IH by lia. split.
      * intros [Hhere | (i & Hi & Hrest)].
        -- destruct (pattern_at data i0 pattern) eqn:E; [|contradiction].
           destruct Hhere as [<- | []]. exists i0.
           split; [lia|]. split; [lia|]. split; [|reflexivity].
           now apply pattern_at_slice.
        -- exists i. split; [lia | exact Hrest].
      * intros (i & Hi & Hend & Hm & ->).
        destruct (Nat.eq_dec i i0) as [-> | Hne].
        -- left. apply pattern_at_slice in Hm. rewrite Hm. now left.
        -- right. exists i. repeat split; try assumption. lia.
    + split; [contradiction|]. intros (i & ? & ? & _). lia.
Qed.

Lemma binaryPatterns_render (name name' : string) (pattern pattern' : list byte)
    (i j : nat) :
  In (name, pattern) binaryPatterns -> In (name', pattern') binaryPatterns ->
  (name +:+ "_at_" +:+ pretty i)%string
  = (name' +:+ "_at_" +:+ pretty j)%string ->
  name = name' /\ pattern = pattern' /\ i = j.
Proof.
  cbn [binaryPatterns In]. intros H H' Heq.
  assert (Hsame : name = name' /\ pattern = pattern').
  { repeat (destruct H as [[= <- <-] | H]; [|]);
      try contradiction;
      repeat (destruct H' as [[= <- <-] | H']; [|]);
      try contradiction; try (split; reflexivity);
      cbn in Heq; discriminate Heq. }
  destruct Hsame as [<- <-]. repeat split.
  apply String.app_inj in Heq. apply String.app_inj in Heq.
  now apply pretty_nat_inj in Heq.
Qed.

(** X18. [analyzeBinaryStructure] reports a pattern at byte [i] exactly
    when the pattern occurs there and at least one byte follows it: an
    occurrence that ends the file is not reported.  The signature it
    stores is the hex text of the first 16 bytes. *)
Theorem analyzeBinaryStructure_patterns (data : list byte) (name : string)
    (pattern : list byte) (i : nat) :
  In (name, pattern) binaryPatterns ->
  (In (name +:+ "_at_" +:+ pretty i)%string
     (embedded_patterns (analyzeBinaryStructure data))
   <-> slice i (i + length pattern) data = pattern
       /\ i + length pattern < length data) /\
  file_signature (analyzeBinaryStructure data)
  = concat (map hex2 (take 16 data)) /\
  file_size (analyzeBinaryStructure data) = length data.
Proof.
  intros Hentry. unfold analyzeBinaryStructure.
  cbn [embedded_patterns file_signature file_size].
  split; [|split; [|reflexivity]].
  - unfold slice. replace (i + length pattern - i) with (length pattern)
      by lia.
    rewrite in_concat. split.
    + intros (found & Hfound & Hin).
      apply in_map_iff in Hfound as ([name' pattern'] & <- & Hentry').
      cbn [fst snd] in Hin.
      apply pattern_loop_spec in Hin as (j & _ & Hend & Hm & Heq); [|lia].
      destruct (binaryPatterns_render _ _ _ _ _ _ Hentry Hentry' Heq)
        as (<- & <- & ->).
      split; assumption.
    + intros [Hm Hend].
      exists (pattern_loop (length data) data name pattern 0). split.
      * apply in_map_iff. exists (name, pattern). split; [reflexivity|].
        exact Hentry.
      * apply pattern_loop_spec; [lia|]. exists i.
        repeat split; try assumption. lia.
  - unfold slice. now rewrite drop_0.
Qed.

Lemma analyzeBinaryStructure_patterns_witness :
  ~ In ("JPEG_SOI_at_" +:+ pretty 0)%string
      (embedded_patterns (analyzeBinaryStructure [xff; xd8])) /\
  slice 0 (0 + 2) [xff; xd8] = [xff; xd8].
Proof.
  pose proof (proj1 (analyzeBinaryStructure_patterns [xff; xd8] "JPEG_SOI"
                       [xff; xd8] 0 ltac:(simpl; tauto))) as H.
  split; [|reflexivity].
  intros Hin. apply H in Hin as [_ Hend]. simpl in Hend. lia.
Defined.

(** ** The error-level comparison of an image with itself *)

Lemma avgDiff_same (data : list Z) (i : nat) :
  (ELA.avgDiff data data i == 0)%Q.
Proof.
  unfold ELA.avgDiff. rewrite !Z.sub_diag. cbn. reflexivity.
Qed.

Lemma amplified_same (data : list Z) (i : nat) :
  toUint8Clamp (Qmin 255 (ELA.avgDiff data data i * 10)) = 0%Z.
Proof.
  unfold toUint8Clamp.
  assert (H : Qle_bool (Qmin 255 (ELA.avgDiff data data i * 10)) 0 = true).
  { apply Qle_bool_iff. rewrite avgDiff_same.
    apply Q.min_le_iff. right. discriminate. }
  now rewrite H.
Qed.

(** The red channel of a canvas of black opaque pixels. *)
Lemma nth_black (pixels : nat) :
  forall m : nat,
    nth (m * 4) (concat (repeat [0; 0; 0; 255]%Z pixels)) 0%Z = 0%Z.
Proof.
  induction pixels as [|k IH]; intros m; cbn [repeat concat].
  - now destruct (m * 4).
  - destruct m as [|m]; [reflexivity|].
    replace (S m * 4) with (4 + m * 4) by lia. cbn [app Nat.add nth].
    apply IH.
Qed.

Lemma pixel_loop_same (data : list Z) (fuel : nat) :
  forall (i : nat) (acc : ELA.Acc),
    exists pixels : nat,
      ELA.elaData (ELA.pixel_loop fuel data data i acc)
      = ELA.elaData acc ++ concat (repeat [0; 0; 0; 255]%Z pixels) /\
      (ELA.totalDifference (ELA.pixel_loop fuel data data i acc)
       == ELA.totalDifference acc)%Q.
Proof.
  induction fuel as [|f IH]; intros i acc; cbn [ELA.pixel_loop].
  - exists 0. cbn. now rewrite app_nil_r.
  - destruct (i <? length data).
    + destruct (IH (i + 4)
                  {| ELA.totalDifference :=
                       (ELA.totalDifference acc + ELA.avgDiff data data i)%Q;
                     ELA.maxDifference :=
                       Qmax (ELA.maxDifference acc) (ELA.avgDiff data data i);
                     ELA.elaData :=
                       ELA.elaData acc
                       ++ [toUint8Clamp (Qmin 255 (ELA.avgDiff data data i * 10));
                           toUint8Clamp (Qmin 255 (ELA.avgDiff data data i * 10));
                           toUint8Clamp (Qmin 255 (ELA.avgDiff data data i * 10));
                           255%Z] |}) as (pixels & Hela & Htotal).
      exists (S pixels). cbv zeta. rewrite Hela, Htotal.
      cbn [ELA.elaData ELA.totalDifference].
      rewrite amplified_same, avgDiff_same, <- app_assoc. split; [|ring].
      reflexivity.
    + exists 0. cbn. rewrite app_nil_r. split; reflexivity.
Qed.

Lemma blockAvg_black (w pixels bx by_ : nat) :
  (ELA.blockAvg w (concat (repeat [0; 0; 0; 255]%Z pixels)) bx by_ == 0)%Q.
Proof.
  unfold ELA.blockAvg, ELA.block_reds.
  assert (H : forall l : list nat,
            fold_left Z.add
              (map (fun k =>
                      nth (((by_ + k / ELA.blockSize) * w
                            + (bx + k mod ELA.blockSize)) * 4)
                        (concat (repeat [0; 0; 0; 255]%Z pixels)) 0%Z) l) 0%Z
            = 0%Z).
  { induction l as [|k l IHl]; [reflexivity|]. cbn [map fold_left].
    now rewrite nth_black. }
  rewrite H. reflexivity.
Qed.

Lemma x_loop_black (w pixels : nat) (threshold : Z) (by_ : nat) :
  (0 <= threshold)%Z ->
  forall fuel bx : nat,
    ELA.x_loop fuel w (concat (repeat [0; 0; 0; 255]%Z pixels)) threshold
      by_ bx = [].
Proof.
  intros Ht. induction fuel as [|f IH]; intros bx; cbn [ELA.x_loop];
    [reflexivity|].
  destruct (Z.of_nat bx <? Z.of_nat w - Z.of_nat ELA.blockSize)%Z;
    [|reflexivity].
  rewrite IH, app_nil_r.
  assert (H : Qlt_bool (inject_Z threshold)
                (ELA.blockAvg w (concat (repeat [0; 0; 0; 255]%Z pixels))
                   bx by_) = false).
  { apply Qlt_bool_false. rewrite blockAvg_black.
    change 0%Q with (inject_Z 0). now rewrite <- Zle_Qle. }
  now rewrite H.
Qed.

(** X19. An image compared with itself: whatever its size and its
    pixels, for a threshold that is not negative [performELA] reports no
    suspicious area, a score of 0 and the lowest tier of the narrative. *)
Theorem performELA_identical (w h : nat) (threshold : Z) (data : list Z) :
  (0 <= threshold)%Z -> 4 <= length data ->
  let result := ELA.performELA w h threshold data data in
  ELA.suspiciousAreas result = [] /\
  (ELA.overallScore result == 0)%Q /\
  ELA.analysis result
  = "Low manipulation probability. Image appears authentic."%string.
Proof.
  intros Ht Hlen result. subst result. unfold ELA.performELA.
  cbn [ELA.suspiciousAreas ELA.overallScore ELA.analysis].
  destruct (pixel_loop_same data (length data) 0 (ELA.mkAcc 0 0 []))
    as (pixels & Hela & Htotal).
  cbn [ELA.elaData ELA.totalDifference app] in Hela, Htotal.
  rewrite Hela.
  assert (Hscore :
    (ELA.score_of
       (ELA.totalDifference
          (ELA.pixel_loop (length data) data data 0 (ELA.mkAcc 0 0 [])))
       (length data / 4) == 0)%Q).
  { unfold ELA.score_of. rewrite Htotal.
    assert (Hzero : (0 / inject_Z (Z.of_nat (length data / 4)) / 50 * 100
                     == 0)%Q).
    { unfold Qdiv. ring. }
    rewrite Hzero. apply Q.min_r. discriminate. }
  split; [|split].
  - generalize h at 1. intros fuel. generalize 0.
    induction fuel as [|f IH]; intros by_; cbn [ELA.y_loop]; [reflexivity|].
    destruct (Z.of_nat by_ <? Z.of_nat h - Z.of_nat ELA.blockSize)%Z;
      [|reflexivity].
    now rewrite x_loop_black, IH.
  - exact Hscore.
  - apply (proj1 (verdict_tiers _)). rewrite Hscore. reflexivity.
Qed.

Lemma performELA_identical_witness :
  ELA.suspiciousAreas (ELA.performELA 40 40 15 (solid 200 1600) (solid 200 1600))
  = [].
Proof.
  refine (proj1 (performELA_identical 40 40 15 (solid 200 1600) _ _)).
  - lia.
  - vm_compute. lia.
Defined.

(** ** The threshold of the comparison *)

Lemma x_loop_threshold (w : nat) (canvas : list Z) (t1 t2 : Z) (by_ : nat)
    (a : ELA.Area) :
  (t1 <= t2)%Z ->
  forall fuel bx : nat,
    In a (ELA.x_loop fuel w canvas t2 by_ bx) ->
    In a (ELA.x_loop fuel w canvas t1 by_ bx) /\
    (inject_Z t2 * 100 / 255 < ELA.confidence a \/ ELA.confidence a == 100)%Q /\
    (ELA.confidence a <= 100)%Q.
Proof.
  intros Ht. induction fuel as [|f IH]; intros bx; cbn [ELA.x_loop];
    [contradiction|].
  destruct (Z.of_nat bx <? Z.of_nat w - Z.of_nat ELA.blockSize)%Z;
    [|contradiction].
  rewrite !in_app_iff. intros [Hhere | Hrest].
  - destruct (Qlt_bool (inject_Z t2) (ELA.blockAvg w canvas bx by_)) eqn:E2;
      [|contradiction].
    destruct Hhere as [<- | []]. apply Qlt_bool_iff in E2.
    assert (E1 : Qlt_bool (inject_Z t1) (ELA.blockAvg w canvas bx by_) = true).
    { apply Qlt_bool_iff. eapply Qle_lt_trans; [|exact E2].
      now rewrite <- Zle_Qle. }
    rewrite E1. split; [left; now left|]. cbn [ELA.confidence].
    split; [|apply Q.le_min_l].
    destruct (Q.min_spec 100 (ELA.blockAvg w canvas bx by_ / 255 * 100))
      as [[_ ->] | [_ ->]]; [now right | left].
    assert (Heq : (inject_Z t2 * 100 / 255 == inject_Z t2 / 255 * 100)%Q)
      by field.
    rewrite Heq.
    unfold Qdiv. apply Qmult_lt_compat_r; [reflexivity|].
    apply Qmult_lt_compat_r; [reflexivity | exact E2].
  - destruct (IH _ Hrest) as (Hin & Hconf). split; [now right | exact Hconf].
Qed.

(** X20. Raising the threshold of [performELA] never adds a suspicious
    area, and changes neither the score nor the narrative; the confidence
    of a reported area is at most 100 and, unless it is 100, above the
    threshold taken as a share of 255. *)
Theorem performELA_threshold (w h : nat) (t1 t2 : Z)
    (originalData compressedData : list Z) :
  (t1 <= t2)%Z ->
  let lower := ELA.performELA w h t1 originalData compressedData in
  let higher := ELA.performELA w h t2 originalData compressedData in
  (forall a : ELA.Area,
     In a (ELA.suspiciousAreas higher) ->
     In a (ELA.suspiciousAreas lower) /\
     (inject_Z t2 * 100 / 255 < ELA.confidence a
      \/ ELA.confidence a == 100)%Q /\
     (ELA.confidence a <= 100)%Q) /\
  ELA.overallScore higher = ELA.overallScore lower /\
  ELA.analysis higher = ELA.analysis lower.
Proof.
  intros Ht lower higher. subst lower higher. unfold ELA.performELA.
  cbn [ELA.suspiciousAreas ELA.overallScore ELA.analysis].
  split; [|split; reflexivity].
  set (canvas := ELA.elaData _). clearbody canvas.
  generalize h at 1 3. intros fuel. generalize 0.
  induction fuel as [|f IH]; intros by_ a; cbn [ELA.y_loop]; [contradiction|].
  destruct (Z.of_nat by_ <? Z.of_nat h - Z.of_nat ELA.blockSize)%Z;
    [|contradiction].
  rewrite !in_app_iff. intros [Hrow | Hrest].
  - destruct (x_loop_threshold w canvas t1 t2 by_ a Ht _ _ Hrow)
      as (Hin & Hconf).
    split; [now left | exact Hconf].
  - destruct (IH _ _ Hrest) as (Hin & Hconf).
    split; [now right | exact Hconf].
Qed.

Lemma performELA_threshold_witness :
  let original := solid 255 1600 in
  let compressed := solid 0 1600 in
  let a := ELA.mkArea 0 0 32 32 (Qmin 100 (inject_Z 255 / 255 * 100)) in
  In a (ELA.suspiciousAreas (ELA.performELA 40 40 15 original compressed)).
Proof.
  intros original compressed a.
  refine (proj1 (proj1 (performELA_threshold 40 40 15 200 original compressed
                          _) a _)).
  - lia.
  - vm_compute. left. reflexivity.
Defined.

(** ** The batch summary does not depend on the order of the files *)

Lemma summary_view (results : list FileResult) :
  let summary := generateBatchSummary results in
  let metas := omap contributing results in
  let dates := omap date_of metas in
  totalFiles summary = length results /\
  successful summary
  = length (filter (fun r => is_status success r = true) results) /\
  errors summary
  = length (filter (fun r => is_status error r = true) results) /\
  withGPS summary = length (filter (fun e => located e = true) metas) /\
  (forall key : string,
     cameras summary !! key
     = match length (filter (fun e => camera_of e = key) metas) with
       | O => None
       | S n => Some (S n)
       end) /\
  earliest summary = fold_left earlier dates None /\
  latest summary = fold_left later dates None /\
  Forall (fun d => d <> ""%string) dates.
Proof.
  intros summary metas dates. subst summary. unfold generateBatchSummary.
  rewrite summary_fold. fold metas.
  set (s0 := {| totalFiles := length results |}).
  destruct (absorb_counts metas s0) as (-> & -> & ->).
  destruct (absorb_dates metas s0) as [-> ->]. fold dates.
  rewrite absorb_withGPS.
  repeat split; try reflexivity.
  - intros key. rewrite absorb_cameras. cbn [s0 cameras].
    rewrite lookup_empty.
    destruct (length (filter (fun e => camera_of e = key) metas));
      reflexivity.
  - apply Forall_forall. intros d Hd. subst dates.
    apply list_elem_of_omap in Hd as (e & _ & He).
    eapply date_of_nonempty, He.
Qed.

(** X21. [generateBatchSummary] gives the same summary for the same
    results in another order. *)
Theorem generateBatchSummary_order (results results' : list FileResult) :
  results ≡ₚ results' ->
  generateBatchSummary results = generateBatchSummary results'.
Proof.
  intros Hperm.
  destruct (summary_view results)
    as (Ht & Hs & He & Hg & Hc & Hmin & Hmax & Hdates).
  destruct (summary_view results')
    as (Ht' & Hs' & He' & Hg' & Hc' & Hmin' & Hmax' & Hdates').
  cbv zeta in *.
  assert (Hmetas : omap contributing results ≡ₚ omap contributing results')
    by now apply omap_Permutation.
  assert (Hd : omap date_of (omap contributing results)
               ≡ₚ omap date_of (omap contributing results'))
    by now apply omap_Permutation.
  set (dates := omap date_of (omap contributing results)) in *.
  set (dates' := omap date_of (omap contributing results')) in *.
  assert (Hfields :
    totalFiles (generateBatchSummary results)
    = totalFiles (generateBatchSummary results') /\
    successful (generateBatchSummary results)
    = successful (generateBatchSummary results') /\
    errors (generateBatchSummary results)
    = errors (generateBatchSummary results') /\
    withGPS (generateBatchSummary results)
    = withGPS (generateBatchSummary results') /\
    cameras (generateBatchSummary results)
    = cameras (generateBatchSummary results') /\
    earliest (generateBatchSummary results)
    = earliest (generateBatchSummary results') /\
    latest (generateBatchSummary results)
    = latest (generateBatchSummary results')).
  { repeat split.
    - rewrite Ht, Ht'. now apply Permutation_length.
    - rewrite Hs, Hs'. now apply Permutation_length, filter_Permutation.
    - rewrite He, He'. now apply Permutation_length, filter_Permutation.
    - rewrite Hg, Hg'. now apply Permutation_length, filter_Permutation.
    - apply map_eq. intros key. rewrite Hc, Hc'.
      now rewrite (Permutation_length
                     (filter_Permutation (fun e => camera_of e = key)
                        _ _ Hmetas)).
    - rewrite Hmin, Hmin'.
      pose proof (earlier_fold dates Hdates) as H.
      pose proof (earlier_fold dates' Hdates') as H'.
      destruct (fold_left earlier dates None) as [d|],
               (fold_left earlier dates' None) as [d'|].
      + destruct H as [Hin Hleast], H' as [Hin' Hleast']. f_equal.
        apply ltb_total.
        * apply Hleast'. now rewrite <- Hd.
        * apply Hleast. now rewrite Hd.
      + rewrite H' in Hd. apply Permutation_nil_r in Hd.
        destruct H as [Hin _]. rewrite Hd in Hin.
        now apply not_elem_of_nil in Hin.
      + rewrite H in Hd. symmetry in Hd. apply Permutation_nil_r in Hd.
        destruct H' as [Hin _]. rewrite Hd in Hin.
        now apply not_elem_of_nil in Hin.
      + reflexivity.
    - rewrite Hmax, Hmax'.
      pose proof (later_fold dates Hdates) as H.
      pose proof (later_fold dates' Hdates') as H'.
      destruct (fold_left later dates None) as [d|],
               (fold_left later dates' None) as [d'|].
      + destruct H as [Hin Hmost], H' as [Hin' Hmost']. f_equal.
        apply ltb_total.
        * apply Hmost. now rewrite Hd.
        * apply Hmost'. now rewrite <- Hd.
      + rewrite H' in Hd. apply Permutation_nil_r in Hd.
        destruct H as [Hin _]. rewrite Hd in Hin.
        now apply not_elem_of_nil in Hin.
      + rewrite H in Hd. symmetry in Hd. apply Permutation_nil_r in Hd.
        destruct H' as [Hin _]. rewrite Hd in Hin.
        now apply not_elem_of_nil in Hin.
      + reflexivity. }
  destruct (generateBatchSummary results), (generateBatchSummary results').
  cbn in Hfields. destruct Hfields as (-> & -> & -> & -> & -> & -> & ->).
  reflexivity.
Qed.

Lemma generateBatchSummary_order_witness :
  generateBatchSummary three_files = generateBatchSummary (rev three_files).
Proof.
  apply generateBatchSummary_order. apply Permutation_rev.
Defined.

Lemma contributing_successful (results : list FileResult) :
  length (omap contributing results)
  <= length (filter (fun r => is_status success r = true) results).
Proof.
  induction results as [|r results IH]; [reflexivity|].
  rewrite filter_cons. cbn [omap list_omap].
  destruct (decide (is_status success r = true)) as [Hyes | Hno].
  - destruct (contributing r); cbn [length]; lia.
  - assert (Hnone : contributing r = None).
    { unfold contributing. unfold is_status in Hno.
      rewrite bool_decide_eq_true in Hno.
      destruct (status r); congruence. }
    now rewrite Hnone.
Qed.

(** X22. In every summary the files with coordinates are at most the
    successful files, the successful files and the errors together are at
    most all the files, every camera listed has a count from 1 to the
    number of successful files, the earliest date is set exactly when the
    latest is, and then the latest is not before the earliest. *)
Theorem generateBatchSummary_invariants (results : list FileResult) :
  let summary := generateBatchSummary results in
  withGPS summary <= successful summary /\
  successful summary + errors summary <= totalFiles summary /\
  (forall (key : string) (n : nat),
     cameras summary !! key = Some n -> 1 <= n <= successful summary) /\
  (earliest summary = None <-> latest summary = None) /\
  (forall d1 d2 : string,
     earliest summary = Some d1 -> latest summary = Some d2 ->
     String.ltb d2 d1 = false).
Proof.
  destruct (summary_view results)
    as (Ht & Hs & He & Hg & Hc & Hmin & Hmax & Hdates).
  cbv zeta in *.
  pose proof (contributing_successful results) as Hmetas.
  set (metas := omap contributing results) in *.
  set (dates := omap date_of metas) in *.
  pose proof (earlier_fold dates Hdates) as Hfirst.
  pose proof (later_fold dates Hdates) as Hlast.
  rewrite <- Hmin in Hfirst. rewrite <- Hmax in Hlast.
  split; [|split; [|split; [|split]]].
  - rewrite Hg, Hs. etransitivity; [apply length_filter | exact Hmetas].
  - rewrite Hs, He, Ht. clear.
    induction results as [|r results IH]; [reflexivity|].
    rewrite !filter_cons.
    destruct (decide (is_status success r = true)) as [H1 | _];
      destruct (decide (is_status error r = true)) as [H2 | _];
      cbn [length]; try lia.
    unfold is_status in H1, H2.
    rewrite bool_decide_eq_true in H1, H2. congruence.
  - intros key n Hkey. rewrite Hc in Hkey.
    pose proof (length_filter (fun e => camera_of e = key) metas) as Hle.
    destruct (length (filter (fun e => camera_of e = key) metas));
      [discriminate|].
    injection Hkey as <-. rewrite Hs. lia.
  - destruct (earliest (generateBatchSummary results)) as [d1|],
             (latest (generateBatchSummary results)) as [d2|];
      [split; discriminate | | | tauto].
    + destruct Hfirst as [Hin _]. rewrite Hlast in Hin.
      now apply not_elem_of_nil in Hin.
    + destruct Hlast as [Hin _]. rewrite Hfirst in Hin.
      now apply not_elem_of_nil in Hin.
  - intros d1 d2 H1 H2. rewrite H1 in Hfirst. rewrite H2 in Hlast.
    destruct Hfirst as [_ Hleast], Hlast as [Hin _]. now apply Hleast.
Qed.

(** ** The cache *)

Section CacheLaws.
Context {T : Type}.
Implicit Types (cache : gmap string (Cache.CacheEntry T))
  (file : Cache.File) (d : T).

(** No entry of the map has expired at time [now]. *)
Definition fresh (now : Z) cache : Prop :=
  forall key entry,
    cache !! key = Some entry -> (now <= Cache.expiresAt entry)%Z.

Lemma cleanExpired_lookup (now : Z) cache (key : string) :
  Cache.cleanExpired now cache !! key
  = match cache !! key with
    | Some entry =>
        if decide (now > Cache.expiresAt entry)%Z then None else Some entry
    | None => None
    end.
Proof.
  unfold Cache.cleanExpired.
  destruct (cache !! key) as [entry|] eqn:Hkey.
  - destruct (decide (now > Cache.expiresAt entry)%Z) as [Hold | Hfresh].
    + apply map_lookup_filter_None_2. right. intros e He.
      rewrite Hkey in He. injection He as <-. cbn. tauto.
    + apply map_lookup_filter_Some_2; [exact Hkey | exact Hfresh].
  - apply map_lookup_filter_None_2. now left.
Qed.

Lemma cleanExpired_fresh (now : Z) cache :
  fresh now (Cache.cleanExpired now cache).
Proof.
  intros key entry. rewrite cleanExpired_lookup.
  destruct (cache !! key) as [e|] eqn:Hkey; [|discriminate].
  destruct (decide (now > Cache.expiresAt e)%Z) as [? | Hfresh];
    [discriminate|].
  intros [= <-]. lia.
Qed.

(** X23. The cache, the clock readings being given.  After a [set], no
    entry of the map has expired at the time of its cleaning, and the file
    is present exactly when its own expiry is not before that time; a
    [get] made no later than the expiry returns the data stored and leaves
    the map as it is; a [get] made after the expiry returns [null] and
    removes the entry, so that the next [has] is false at any time. *)
Theorem cache_set_get file d (ttl now later : Z) cache :
  let cache' := Cache.set file d ttl now later cache in
  fresh later cache' /\
  (cache' !! Cache.generateKey file
   = if decide (later > now + ttl)%Z then None
     else Some (Cache.mkEntry d now (now + ttl))) /\
  (forall t : Z,
     (later <= now + ttl)%Z -> (t <= now + ttl)%Z ->
     Cache.get file t cache' = (Some d, cache')) /\
  (forall t t' : Z,
     (later <= now + ttl)%Z -> (t > now + ttl)%Z ->
     (Cache.get file t cache').1 = None /\
     (Cache.has file t' (Cache.get file t cache').2).1 = false).
Proof.
  intros cache'. subst cache'. unfold Cache.set.
  set (key := Cache.generateKey file).
  set (entry := Cache.mkEntry d now (now + ttl)).
  assert (Hkey : Cache.cleanExpired later (<[key := entry]> cache) !! key
                 = if decide (later > now + ttl)%Z then None else Some entry).
  { rewrite cleanExpired_lookup, lookup_insert_eq. reflexivity. }
  split; [|split; [exact Hkey | split]].
  - apply cleanExpired_fresh.
  - intros t Hlater Ht. unfold Cache.get. fold key. rewrite Hkey.
    rewrite decide_False by lia. cbn [Cache.expiresAt entry].
    rewrite decide_False by lia. reflexivity.
  - intros t t' Hlater Ht. unfold Cache.get. fold key. rewrite Hkey.
    rewrite decide_False by lia. cbn [Cache.expiresAt entry].
    rewrite decide_True by lia. cbn [fst snd]. split; [reflexivity|].
    unfold Cache.has. fold key. now rewrite lookup_delete_eq.
Qed.

(** Every entry holds data that [JSON.stringify] turns into text. *)
Definition serializable (stringify : T -> option string) cache : Prop :=
  forall key entry,
    cache !! key = Some entry -> is_Some (stringify (Cache.data entry)).

Lemma stats_fold (stringify : T -> option string) (now : Z)
    (items : list (string * Cache.CacheEntry T)) :
  forall counters : nat * nat,
    is_Some (fold_left (Cache.stats_step stringify now) items (Some counters))
    <-> Forall (fun item => is_Some (stringify (Cache.data item.2))) items.
Proof.
  induction items as [|item items IH]; intros [expiredCount totalSize].
  - cbn. split; [constructor | eauto].
  - cbn [fold_left Cache.stats_step].
    destruct (stringify (Cache.data item.2)) as [text|] eqn:Htext.
    + rewrite IH. split; [intros H; constructor; eauto|].
      intros H. now inversion H.
    + assert (Hnone : fold_left (Cache.stats_step stringify now) items None
                      = None)
        by (clear; induction items as [|i l IHl]; [reflexivity | exact IHl]).
      rewrite Hnone. split; [intros [? ?]; discriminate|].
      intros H. inversion H as [|? ? [? Hsome] ?]; subst. congruence.
Qed.

Lemma getStats_returns (stringify : T -> option string) (now : Z) cache :
  (serializable stringify cache ->
   exists stats, Cache.getStats stringify now cache = Some stats /\
                 Cache.stats_size stats = size cache) /\
  (~ serializable stringify cache ->
   Cache.getStats stringify now cache = None).
Proof.
  unfold Cache.getStats.
  pose proof (stats_fold stringify now (map_to_list cache) (0, 0)) as Hfold.
  assert (Hall : Forall (fun item => is_Some (stringify (Cache.data item.2)))
                   (map_to_list cache)
                 <-> serializable stringify cache).
  { rewrite Forall_forall. split.
    - intros H key entry Hkey.
      exact (H (key, entry) (proj2 (elem_of_map_to_list _ _ _) Hkey)).
    - intros H [key entry] Hin. apply elem_of_map_to_list in Hin.
      exact (H key entry Hin). }
  rewrite Hall in Hfold. split.
  - intros Hs. apply Hfold in Hs as [[expiredCount totalSize] ->].
    eexists. split; reflexivity.
  - intros Hs.
    destruct (fold_left _ (map_to_list cache) (Some (0, 0))) as [c|] eqn:E;
      [|reflexivity].
    exfalso. apply Hs, Hfold. eauto.
Qed.

(** X24. [cleanupCache] first takes the statistics, which throws when
    the data of an entry has no JSON text ([undefined], as [warmCache]
    may store): the call then ends with nothing removed, whatever the size
    of the map.  Otherwise it decides on the size that it read before
    cleaning: up to 100 entries nothing is removed, expired entries
    included; from 101 to 200 entries the expired ones are removed and
    only they; above 200 entries the map is emptied, entries that have
    not expired included. *)
Theorem cleanupCache_thresholds (stringify : T -> option string)
    (now later : Z) cache :
  let result := Cache.cleanupCache stringify now later cache in
  (~ serializable stringify cache -> result = (false, cache)) /\
  (serializable stringify cache ->
   result.1 = true /\
   (size cache <= 100 -> result.2 = cache) /\
   (100 < size cache <= 200 ->
    fresh later result.2 /\
    forall key entry,
      cache !! key = Some entry -> (later <= Cache.expiresAt entry)%Z ->
      result.2 !! key = Some entry) /\
   (200 < size cache -> result.2 = ∅)).
Proof.
  intros result. subst result. unfold Cache.cleanupCache.
  destruct (getStats_returns stringify now cache) as [Hreturns Hthrows].
  split.
  - intros Hs. now rewrite (Hthrows Hs).
  - intros Hs. destruct (Hreturns Hs) as (stats & -> & ->). cbn [fst snd].
    split; [reflexivity|]. split; [|split].
    + intros Hsmall.
      destruct (Nat.ltb_spec 100 (size cache)); [lia|].
      destruct (Nat.ltb_spec 200 (size cache)); [lia | reflexivity].
    + intros Hmid.
      destruct (Nat.ltb_spec 100 (size cache)); [|lia].
      destruct (Nat.ltb_spec 200 (size cache)); [lia|]. split.
      * apply cleanExpired_fresh.
      * intros key entry Hkey Hfresh. rewrite cleanExpired_lookup, Hkey.
        now rewrite decide_False by lia.
    + intros Hbig.
      destruct (Nat.ltb_spec 200 (size cache)); [reflexivity | lia].
Qed.

End CacheLaws.

(** ** The stand-in hashes *)

Lemma toInt32_range (z : Z) : (- 2 ^ 31 <= toInt32 z < 2 ^ 31)%Z.
Proof.
  unfold toInt32. pose proof (Z.mod_pos_bound (z + 2 ^ 31) (2 ^ 32)). lia.
Qed.

Lemma toInt32_congruent (z : Z) : (toInt32 z mod 2 ^ 32 = z mod 2 ^ 32)%Z.
Proof.
  unfold toInt32.
  rewrite <- Zminus_mod_idemp_l, Z.mod_mod by lia.
  rewrite Zminus_mod_idemp_l. f_equal. lia.
Qed.

Lemma toInt32_unique (a b : Z) :
  (a mod 2 ^ 32 = b mod 2 ^ 32)%Z -> toInt32 a = toInt32 b.
Proof.
  intros H. unfold toInt32. f_equal.
  rewrite <- (Zplus_mod_idemp_l a), <- (Zplus_mod_idemp_l b). now rewrite H.
Qed.

(** One step is a multiplication by 31 and an addition, modulo 2^32. *)
Lemma hash_step_congruent (hash hash' : Z) (b : byte) :
  (hash mod 2 ^ 32 = hash' mod 2 ^ 32)%Z ->
  hash_step hash b = toInt32 (31 * hash' + Z.of_N (Byte.to_N b)).
Proof.
  intros H. unfold hash_step. apply toInt32_unique.
  rewrite <- Zplus_mod_idemp_l, <- Zminus_mod_idemp_l, toInt32_congruent.
  rewrite Zminus_mod_idemp_l.
  rewrite <- Zminus_mod_idemp_r, H, Zminus_mod_idemp_r.
  rewrite <- (Zminus_mod_idemp_l (hash * 32)).
  rewrite <- (Zmult_mod_idemp_l hash), H, Zmult_mod_idemp_l.
  rewrite Zminus_mod_idemp_l, Zplus_mod_idemp_l. f_equal. lia.
Qed.

(** The value that the loop computes, before the wrap to 32 bits. *)
Fixpoint polynomial (acc : Z) (data : list byte) : Z :=
  match data with
  | [] => acc
  | b :: data' => polynomial (31 * acc + Z.of_N (Byte.to_N b)) data'
  end.

Lemma hash_fold_polynomial (data : list byte) :
  forall hash acc : Z,
    (hash mod 2 ^ 32 = acc mod 2 ^ 32)%Z ->
    (fold_left hash_step data hash mod 2 ^ 32
     = polynomial acc data mod 2 ^ 32)%Z.
Proof.
  induction data as [|b data IH]; intros hash acc H; [exact H|].
  cbn [fold_left polynomial]. apply IH.
  rewrite (hash_step_congruent hash acc b H). apply toInt32_congruent.
Qed.

Lemma hash_fold_int32 (data : list byte) :
  forall hash : Z,
    (- 2 ^ 31 <= hash < 2 ^ 31)%Z ->
    fold_left hash_step data hash = toInt32 (polynomial hash data).
Proof.
  intros hash Hrange.
  assert (Hout : (- 2 ^ 31 <= fold_left hash_step data hash < 2 ^ 31)%Z).
  { revert hash Hrange. induction data as [|b data IH]; intros hash Hrange;
      [exact Hrange|].
    cbn [fold_left]. apply IH. apply toInt32_range. }
  pose proof (hash_fold_polynomial data hash hash eq_refl) as H.
  apply toInt32_unique in H. rewrite <- H.
  unfold toInt32. rewrite Z.mod_small by lia. lia.
Qed.

Lemma polynomial_app (pre suf : list byte) :
  forall acc : Z,
    polynomial acc (pre ++ suf) = polynomial (polynomial acc pre) suf.
Proof.
  induction pre as [|b pre IH]; intros acc; [reflexivity|].
  cbn [app polynomial]. apply IH.
Qed.

(** X25. The stand-in for the hashes is one signed 32-bit number, the
    value of the bytes as digits in base 31 wrapped to 32 bits: its
    absolute value has at most 8 hex digits, so that "sha1" is "md5" after
    8 more zeros and "sha256" is "md5" after 32 more zeros; and two files
    that differ in two neighbouring bytes [x y] and [x' y'] with
    [31 x + y = 31 x' + y'] get the same three values. *)
Theorem calculateHashes_one_number (data : list byte) :
  let hash := toInt32 (polynomial 0 data) in
  let digits := toString16 (Z.to_N (Z.abs hash)) in
  length digits <= 8 /\
  md5 (calculateHashes data) = repeat "0"%char (32 - length digits) ++ digits /\
  sha1 (calculateHashes data)
  = repeat "0"%char 8 ++ md5 (calculateHashes data) /\
  sha256 (calculateHashes data)
  = repeat "0"%char 32 ++ md5 (calculateHashes data) /\
  forall (pre suf : list byte) (x y x' y' : byte),
    data = pre ++ [x; y] ++ suf ->
    (31 * Byte.to_N x + Byte.to_N y = 31 * Byte.to_N x' + Byte.to_N y')%N ->
    calculateHashes (pre ++ [x'; y'] ++ suf) = calculateHashes data.
Proof.
  intros hash digits.
  assert (Hfold : forall l : list byte,
            fold_left hash_step l 0%Z = toInt32 (polynomial 0 l)).
  { intros l. apply hash_fold_int32. lia. }
  assert (Hlen : length digits <= 8).
  { subst digits. unfold toString16. apply to_digits_length; [lia|].
    pose proof (toInt32_range (polynomial 0 data)). fold hash in H.
    change (16 ^ N.of_nat 8)%N with (2 ^ 32)%N. lia. }
  assert (Hpad : forall n : nat,
            8 <= n ->
            simpleHash data n = repeat "0"%char (n - length digits) ++ digits).
  { intros n Hn. unfold simpleHash. rewrite Hfold. fold hash. fold digits.
    unfold padStart. apply take_ge.
    rewrite length_app, repeat_length. lia. }
  split; [exact Hlen|]. unfold calculateHashes. cbn [md5 sha1 sha256].
  split; [|split; [|split]].
  - now rewrite Hpad by lia.
  - rewrite !Hpad by lia.
    rewrite app_assoc, <- repeat_app. do 2 f_equal. lia.
  - rewrite !Hpad by lia.
    rewrite app_assoc, <- repeat_app. do 2 f_equal. lia.
  - intros pre suf x y x' y' -> Hsame.
    assert (Hpoly : polynomial 0 (pre ++ [x'; y'] ++ suf)
                    = polynomial 0 (pre ++ [x; y] ++ suf)).
    { rewrite !polynomial_app. cbn [polynomial]. f_equal. lia. }
    unfold simpleHash. rewrite !Hfold, Hpoly, !length_app. reflexivity.
Qed.

Lemma calculateHashes_one_number_witness :
  calculateHashes ([] ++ [x01; x00] ++ []) = calculateHashes [x00; x1f].
Proof.
  refine (proj2 (proj2 (proj2 (proj2 (calculateHashes_one_number [x00; x1f]))))
            [] [] x00 x1f x01 x00 eq_refl _).
  reflexivity.
Defined.

(** ** The simple hex dump *)

Lemma cells_of_chunk {A} (data : list byte) (cell : byte -> A) (blank : A)
    (n : nat) :
  forall i : nat,
    map (fun j => match data !! (i + j) with
                  | Some b => cell b
                  | None => blank
                  end) (seq 0 n)
    = map cell (take n (drop i data))
      ++ repeat blank (n - length (take n (drop i data))).
Proof.
  induction n as [|n IH]; intros i; [now rewrite take_0|].
  cbn [seq map]. rewrite <- seq_shift, map_map, Nat.add_0_r.
  rewrite (map_ext _ (fun j => match data !! (S i + j) with
                               | Some b => cell b
                               | None => blank
                               end))
    by (intros j; now replace (i + S j) with (S i + j) by lia).
  rewrite IH. destruct (data !! i) as [b|] eqn:Hb.
  - rewrite (drop_S data b i Hb). reflexivity.
  - apply lookup_ge_None in Hb.
    rewrite !drop_ge by lia. rewrite !take_nil. cbn [map app length].
    rewrite !Nat.sub_0_r. reflexivity.
Qed.

Lemma join_blank_cells (parts : list (list ascii)) (m : nat) :
  parts <> [] ->
  join [" "%char] (parts ++ repeat [" "; " "]%char m)
  = join [" "%char] parts ++ repeat " "%char (3 * m).
Proof.
  intros Hne. induction m as [|m IH].
  - cbn. now rewrite !app_nil_r.
  - replace (repeat [" "; " "]%char (S m))
      with (repeat [" "; " "]%char m ++ [[" "; " "]%char])
      by (rewrite <- repeat_cons; reflexivity).
    rewrite app_assoc.
    assert (Hsnoc : forall (l : list (list ascii)) (p : list ascii),
              l <> [] ->
              join [" "%char] (l ++ [p]) = join [" "%char] l ++ " "%char :: p).
    { clear. induction l as [|q l IHl]; intros p Hl; [congruence|].
      destruct l as [|r l]; [reflexivity|].
      change (join [" "%char] ((q :: r :: l) ++ [p]))
        with (q ++ [" "%char] ++ join [" "%char] ((r :: l) ++ [p])).
      rewrite IHl by discriminate.
      change (join [" "%char] (q :: r :: l))
        with (q ++ [" "%char] ++ join [" "%char] (r :: l)).
      now rewrite <- !app_assoc. }
    rewrite Hsnoc by (destruct parts; [congruence | discriminate]).
    rewrite IH, <- app_assoc. f_equal.
    replace (3 * S m) with (3 * m + 3) by lia.
    now rewrite repeat_app.
Qed.

Lemma simpleHex_loop_rows (data : list byte) (fuel : nat) :
  forall i : nat,
    length data `min` N.to_nat 512 <= i + 16 * fuel ->
    simpleHex_loop fuel data i
    = map (fun k => simpleHexLine data (i + 16 * k))
        (seq 0 ((length data `min` N.to_nat 512 - i + 15) / 16)).
Proof.
  set (m := length data `min` N.to_nat 512).
  induction fuel as [|f IH]; intros i Hfuel; cbn [simpleHex_loop]; fold m.
  - replace (m - i + 15) with 15 by lia. reflexivity.
  - destruct (Nat.ltb_spec i m) as [Hlt | Hge].
    + rewrite IH by lia. rewrite (row_count_step m i Hlt).
      simpl seq. simpl map. rewrite Nat.add_0_r. f_equal.
      rewrite <- seq_shift, map_map. apply map_ext. intros k.
      f_equal. lia.
    + replace (m - i + 15) with 15 by lia. reflexivity.
Qed.

(** X26. The simple hex dump renders the first 512 bytes as
    [generateHexDump] does, row for row: the hex column is the same text
    (the cells of two spaces that fill a short last row make up the padding
    to 47 characters), the offset is the same number in lowercase, and the
    ASCII column is the one of [generateHexDump] padded to 16 characters;
    reading the rows back gives the first 512 bytes. *)
Theorem generateSimpleHexDump_agrees (data : list byte) :
  let simple := hd_lines (generateSimpleHexDump data) in
  let dump := generateHexDump (take 512 data) in
  Forall2
    (fun s d =>
       line_hex s = line_hex d /\
       toUpperCase (line_offset s) = line_offset d /\
       line_ascii s = padEnd 16 " " (line_ascii d))
    simple dump /\
  hexToBytes simple
  = map (fun b => Some (Z.of_N (Byte.to_N b))) (take 512 data).
Proof.
  intros simple dump.
  assert (Hrows : Forall2
    (fun s d =>
       line_hex s = line_hex d /\
       toUpperCase (line_offset s) = line_offset d /\
       line_ascii s = padEnd 16 " " (line_ascii d)) simple dump).
  { subst simple dump. unfold generateSimpleHexDump. cbn [hd_lines].
    rewrite simpleHex_loop_rows, generateHexDump_rows by lia.
    rewrite Nat.sub_0_r, length_take.
    change (N.to_nat 512) with 512.
    replace (512 `min` length data) with (length data `min` 512) by lia.
    apply Forall2_fmap, Forall_Forall2_diag, Forall_forall.
    intros k Hk. apply elem_of_seq in Hk as [_ Hk]. cbn [Nat.add] in Hk.
    assert (Hrow : 16 * k < length data `min` 512).
    { pose proof (Nat.div_mod_eq (length data `min` 512 + 15) 16).
      pose proof (Nat.mod_upper_bound (length data `min` 512 + 15) 16).
      lia. }
    assert (Hchunk : slice (16 * k) (16 * k + 16) (take 512 data)
                     = slice (16 * k) (16 * k + 16) data).
    { apply slice_take.
      destruct (Nat.le_gt_cases (length data) 512) as [? | ?];
        [now right | left].
      assert (E : 512 = 16 * 32) by reflexivity. lia. }
    assert (Hin : 16 * k < length (take 512 data))
      by (rewrite length_take; lia).
    destruct (line_hex_layout (take 512 data) (16 * k) Hin) as [Hhex _].
    cbv zeta in Hhex. rewrite Hchunk in Hhex.
    unfold simpleHexLine, simple_cells.
    cbn [line_hex line_offset line_ascii Nat.add].
    rewrite (cells_of_chunk data (fun b => (hex2 b, ascii_cell b))
               ([" "; " "]%char, " "%char) 16 (16 * k)).
    set (chunk := take 16 (drop (16 * k) data)).
    assert (Hslice : slice (16 * k) (16 * k + 16) data = chunk).
    { unfold slice. subst chunk. do 2 f_equal. lia. }
    rewrite Hslice in Hhex, Hchunk.
    assert (Hne : chunk <> []).
    { subst chunk. intros Hnil. apply (f_equal length) in Hnil.
      rewrite length_take, length_drop in Hnil. cbn [length] in Hnil. lia. }
    rewrite !map_app, !map_map, !map_repeat. cbn [fst snd].
    split; [|split].
    - rewrite Hhex.
      rewrite join_blank_cells; [|destruct chunk; [congruence | discriminate]].
      reflexivity.
    - reflexivity.
    - unfold hexLine. cbn [line_ascii]. rewrite Hchunk.
      unfold padEnd. now rewrite !length_map. }
  split; [exact Hrows|].
  rewrite <- (hexToBytes_generateHexDump (take 512 data)). fold dump.
  unfold hexToBytes, fullHex. f_equal. f_equal.
  clear -Hrows. induction Hrows as [|s d ss ds (Hhex & _) _ IH];
    [reflexivity|].
  cbn [map]. now rewrite Hhex, IH.
Qed.

(** ** The signature test of the desktop shell *)





#[global] Instance byte_eq_decision : EqDecision byte := Byte.byte_eq_dec.



(** ** The strings of a file *)

(** The [n] bytes from index [i] on are printable, and the byte before
    them and the byte after them, if any, are not. *)
Definition is_run (data : list byte) (i n : nat) : Prop :=
  i + n <= length data /\
  (forall j, i <= j < i + n ->
             exists b, data !! j = Some b /\ printable b = true) /\
  (i = 0 \/ exists b, data !! (i - 1) = Some b /\ printable b = false) /\
  (i + n = length data
   \/ exists b, data !! (i + n) = Some b /\ printable b = false).

Definition run_text (data : list byte) (i n : nat) : list ascii :=
  map ascii_of_byte (take n (drop i data)).

Lemma run_text_length (data : list byte) (i n : nat) :
  i + n <= length data -> length (run_text data i n) = n.
Proof.
  intros H. unfold run_text. rewrite length_map, length_take, length_drop. lia.
Qed.

Lemma strings_loop_runs (data : list byte) (s : list ascii) :
  forall (k p c : nat) (strings : list (list ascii)),
    length data - p <= k -> c <= p <= length data ->
    (forall j, p - c <= j < p ->
               exists b, data !! j = Some b /\ printable b = true) ->
    (p - c = 0
     \/ exists b, data !! (p - c - 1) = Some b /\ printable b = false) ->
    In s (strings_loop (drop p data) strings (run_text data (p - c) c))
    <-> In s strings
        \/ exists i n, p - c <= i /\ 4 <= n /\ is_run data i n
                       /\ s = run_text data i n.
Proof.
  induction k as [|k IH]; intros p c strings Hk Hp Hcur Hleft.
  - assert (p = length data) as -> by lia.
    rewrite drop_all. cbn [strings_loop]. unfold push_string.
    rewrite run_text_length by lia.
    assert (Hruns : forall i n,
              length data - c <= i -> 4 <= n -> is_run data i n ->
              i = length data - c /\ n = c).
    { intros i n Hi Hn (Hfit & _ & Hl & Hr).
      assert (i = length data - c) as ->.
      { destruct Hl as [-> | (b & Hb & Hnp)]; [lia|].
        destruct (Nat.eq_dec i (length data - c)) as [? | Hne]; [assumption|].
        destruct (Hcur (i - 1) ltac:(lia)) as (b' & Hb' & Hpr).
        congruence. }
      split; [reflexivity|].
      destruct Hr as [? | (b & Hb & Hnp)]; [lia|].
      pose proof (lookup_lt_Some _ _ _ Hb) as Hlt.
      destruct (Hcur (length data - c + n) ltac:(lia)) as (b' & Hb' & Hpr).
      congruence. }
    destruct (Nat.leb_spec 4 c) as [Hlong | Hshort].
    + rewrite in_app_iff. cbn [In]. split.
      * intros [? | [<- | []]]; [now left|]. right.
        exists (length data - c), c.
        split; [lia|]. split; [exact Hlong|]. split; [|reflexivity].
        split; [lia|]. split; [intros j Hj; apply Hcur; lia|].
        split; [exact Hleft | left; lia].
      * intros [? | (i & n & Hi & Hn & Hrun & ->)]; [now left|].
        destruct (Hruns i n Hi Hn Hrun) as [-> ->]. right. now left.
    + split; [now left|].
      intros [? | (i & n & Hi & Hn & Hrun & ->)]; [assumption|].
      destruct (Hruns i n Hi Hn Hrun) as [_ ->]. lia.
  - destruct (Nat.eq_dec p (length data)) as [-> | Hne];
      [apply IH; try assumption; lia|].
    destruct (lookup_lt_is_Some_2 data p ltac:(lia)) as [b Hb].
    rewrite (drop_S data b p Hb). cbn [strings_loop].
    destruct (printable b) eqn:Hpr.
    + assert (Hgrow : run_text data (p - c) c ++ [ascii_of_byte b]
                      = run_text data (S p - S c) (S c)).
      { unfold run_text. cbn [Nat.sub].
        rewrite (take_S_r (drop (p - c) data) c b).
        - now rewrite map_app.
        - rewrite lookup_drop. now replace (p - c + c) with p by lia. }
      rewrite Hgrow, (IH (S p) (S c) strings); try lia.
      * cbn [Nat.sub]. reflexivity.
      * cbn [Nat.sub]. intros j Hj.
        destruct (Nat.eq_dec j p) as [-> | ?]; [eauto|]. apply Hcur. lia.
      * cbn [Nat.sub]. exact Hleft.
    + change (@nil ascii) with (run_text data (S p - 0) 0) at 1.
      rewrite (IH (S p) 0 _); try lia.
      * unfold push_string. rewrite run_text_length by lia.
        rewrite Nat.sub_0_r.
        assert (Hsplit : forall i n,
                  p - c <= i -> 4 <= n -> is_run data i n ->
                  (i = p - c /\ n = c) \/ S p <= i).
        { intros i n Hi Hn (Hfit & Hall & Hl & Hr).
          destruct (Nat.le_gt_cases (S p) i) as [? | Hlow]; [now right|].
          left.
          assert (Hend : i + n <= p).
          { destruct (Nat.le_gt_cases (i + n) p) as [? | Hover];
              [assumption|].
            destruct (Hall p ltac:(lia)) as (b' & Hb' & Hpr'). congruence. }
          assert (i = p - c) as ->.
          { destruct Hl as [-> | (b' & Hb' & Hnp)]; [lia|].
            destruct (Nat.eq_dec i (p - c)) as [? | Hne']; [assumption|].
            destruct (Hcur (i - 1) ltac:(lia)) as (b'' & Hb'' & Hpr').
            congruence. }
          split; [reflexivity|].
          destruct Hr as [? | (b' & Hb' & Hnp)]; [lia|].
          destruct (Nat.eq_dec (p - c + n) p) as [? | Hne']; [lia|].
          destruct (Hcur (p - c + n) ltac:(lia)) as (b'' & Hb'' & Hpr').
          congruence. }
        destruct (Nat.leb_spec 4 c) as [Hlong | Hshort].
        -- rewrite in_app_iff. cbn [In]. split.
           ++ intros [[? | [<- | []]] | (i & n & Hi & Hrest)].
              ** now left.
              ** right. exists (p - c), c.
                 split; [lia|]. split; [exact Hlong|]. split; [|reflexivity].
                 split; [lia|]. split; [intros j Hj; apply Hcur; lia|].
                 split; [exact Hleft|].
                 right. exists b. split; [|exact Hpr].
                 now replace (p - c + c) with p by lia.
              ** right. exists i, n. split; [lia | exact Hrest].
           ++ intros [? | (i & n & Hi & Hn & Hrun & ->)]; [now left; left|].
              destruct (Hsplit i n Hi Hn Hrun) as [[-> ->] | Hafter].
              ** left. right. now left.
              ** right. exists i, n. auto.
        -- split.
           ++ intros [? | (i & n & Hi & Hrest)]; [now left|].
              right. exists i, n. split; [lia | exact Hrest].
           ++ intros [? | (i & n & Hi & Hn & Hrun & ->)]; [now left|].
              destruct (Hsplit i n Hi Hn Hrun) as [[-> ->] | Hafter]; [lia|].
              right. exists i, n. auto.
      * right. exists b. split; [|exact Hpr].
        now replace (S p - 0 - 1) with p by lia.
Qed.

(** X28. [extractStrings] extracts the maximal runs of at least four
    printable bytes (codes 32 to 126) and nothing else: a string is
    counted, and listed as interesting when it contains one of the six
    words, exactly when it is such a run; the strings shown are the first
    100 of them. *)
Theorem extractStrings_maximal_runs (data : list byte) :
  let result := extractStrings data in
  (forall s : list ascii,
     In s (interesting result)
     <-> (exists i n, 4 <= n /\ is_run data i n /\ s = run_text data i n)
         /\ existsb (includes s) interestingWords = true) /\
  (forall s : list ascii,
     In s (shownStrings result) ->
     exists i n, 4 <= n /\ is_run data i n /\ s = run_text data i n) /\
  length (shownStrings result) = totalStrings result `min` 100 /\
  (totalStrings result = 0
   <-> forall i n, 4 <= n -> ~ is_run data i n).
Proof.
  intros result. subst result. unfold extractStrings.
  cbn [interesting shownStrings totalStrings].
  assert (Hruns : forall s,
            In s (strings_loop data [] [])
            <-> exists i n, 4 <= n /\ is_run data i n /\ s = run_text data i n).
  { intros s.
    pose proof (strings_loop_runs data s (length data) 0 0 []
                  ltac:(lia) ltac:(lia) ltac:(intros; lia)
                  ltac:(now left)) as H.
    rewrite drop_0 in H.
    change (run_text data (0 - 0) 0) with (@nil ascii) in H.
    rewrite H. split.
    - intros [[] | (i & n & _ & Hrest)]. eauto.
    - intros (i & n & Hrest). right. exists i, n. split; [lia | exact Hrest]. }
  split; [|split; [|split]].
  - intros s. rewrite <- Hruns, <- !list_elem_of_In, list_elem_of_filter.
    tauto.
  - intros s Hs. apply Hruns. apply list_elem_of_In.
    apply list_elem_of_In in Hs.
    apply elem_of_take in Hs as (k & Hk & _).
    eapply list_elem_of_lookup_2, Hk.
  - rewrite length_take. lia.
  - split.
    + intros Hnone i n Hn Hrun. apply length_zero_iff_nil in Hnone.
      assert (Hin : In (run_text data i n) (strings_loop data [] []))
        by (apply Hruns; eauto).
      now rewrite Hnone in Hin.
    + intros Hnone. destruct (strings_loop data [] []) as [|s rest] eqn:E;
        [reflexivity|].
      exfalso.
      destruct (proj1 (Hruns s) ltac:(now left)) as (i & n & Hn & Hrun & _).
      exact (Hnone i n Hn Hrun).
Qed.

(** ** The least-significant-bit test *)

(** An RGBA buffer, pixel by pixel. *)
Definition rgba (pixels : list (Z * Z * Z * Z)) : list Z :=
  concat (map (fun p => [p.1.1.1; p.1.1.2; p.1.2; p.2]) pixels).

Definition odd_channels (pixels : list (Z * Z * Z * Z)) : Z :=
  fold_right
    (fun p sum =>
       (Z.land p.1.1.1 1 + Z.land p.1.1.2 1 + Z.land p.1.2 1 + sum)%Z)
    0%Z pixels.

Lemma rgba_length (pixels : list (Z * Z * Z * Z)) :
  length (rgba pixels) = 4 * length pixels.
Proof.
  induction pixels as [|p pixels IH]; [reflexivity|].
  unfold rgba in *. cbn [map concat length app]. rewrite IH. lia.
Qed.

Lemma lsb_loop_rgba (done pixels : list (Z * Z * Z * Z)) :
  forall (fuel : nat) (variation total : Z),
    length pixels <= fuel ->
    lsb_loop fuel (rgba (done ++ pixels)) (4 * length done) variation total
    = ((variation + odd_channels pixels)%Z,
       (total + Z.of_nat (length pixels))%Z).
Proof.
  revert done. induction pixels as [|p pixels IH];
    intros done fuel variation total Hfuel.
  - rewrite app_nil_r. cbn [odd_channels fold_right length].
    rewrite !Z.add_0_r. destruct fuel as [|f]; [reflexivity|].
    cbn [lsb_loop]. rewrite rgba_length.
    destruct (Nat.ltb_spec (4 * length done) (4 * length done));
      [lia | reflexivity].
  - destruct fuel as [|f]; [simpl in Hfuel; lia|]. cbn [lsb_loop].
    rewrite rgba_length, length_app. cbn [length].
    destruct (Nat.ltb_spec (4 * length done)
                (4 * (length done + S (length pixels)))) as [_ | ?]; [|lia].
    assert (Hnth : forall k, k < 4 ->
              nth (4 * length done + k) (rgba (done ++ p :: pixels)) 0%Z
              = nth k [p.1.1.1; p.1.1.2; p.1.2; p.2] 0%Z).
    { intros k Hk. unfold rgba. rewrite map_app, concat_app.
      rewrite app_nth2; fold (rgba done); rewrite rgba_length; [|lia].
      replace (4 * length done + k - 4 * length done) with k by lia.
      cbn [map concat]. rewrite app_nth1 by (simpl; lia). reflexivity. }
    pose proof (Hnth 0 ltac:(lia)) as Hnth0. rewrite Nat.add_0_r in Hnth0.
    unfold lsb_at. rewrite Hnth0, !Hnth by lia. cbn [nth].
    replace (done ++ p :: pixels) with ((done ++ [p]) ++ pixels)
      by (now rewrite <- app_assoc).
    replace (4 * length done + 4) with (4 * length (done ++ [p]))
      by (rewrite length_app; simpl; lia).
    rewrite IH by (simpl in Hfuel; lia).
    cbn [odd_channels fold_right length]. fold (odd_channels pixels).
    apply pair_equal_spec; split; lia.
Qed.

Definition flip_bits (pixels : list (Z * Z * Z * Z))
  : list (Z * Z * Z * Z) :=
  map (fun p => (Z.lxor p.1.1.1 1, Z.lxor p.1.1.2 1, Z.lxor p.1.2 1, p.2))
    pixels.

Lemma odd_channels_flip (pixels : list (Z * Z * Z * Z)) :
  odd_channels (flip_bits pixels)
  = (3 * Z.of_nat (length pixels) - odd_channels pixels)%Z.
Proof.
  assert (Hbit : forall v, Z.land (Z.lxor v 1) 1 = (1 - Z.land v 1)%Z).
  { intros v. change 1%Z with (Z.ones 1) at 2 4.
    rewrite !Z.land_ones by lia. change (2 ^ 1)%Z with 2%Z.
    rewrite <- !Z.bit0_mod, Z.lxor_spec.
    destruct (Z.testbit v 0); reflexivity. }
  induction pixels as [|p pixels IH]; [reflexivity|].
  cbn [flip_bits map odd_channels fold_right length fst snd].
  fold (flip_bits pixels). fold (odd_channels (flip_bits pixels)).
  fold (odd_channels pixels). rewrite IH, !Hbit. lia.
Qed.

Lemma ratio_above (k : Z) (m : positive) (c n : Z) :
  (0 < n)%Z ->
  ((k # m) < inject_Z c / inject_Z n)%Q <-> (k * n < Z.pos m * c)%Z.
Proof.
  intros Hn. destruct n as [|n|n]; try lia.
  unfold Qlt, Qdiv, Qmult, Qinv, inject_Z. cbn [Qnum Qden].
  rewrite Pos.mul_1_l, Z.mul_1_r. lia.
Qed.

Lemma ratio_below (k : Z) (m : positive) (c n : Z) :
  (0 < n)%Z ->
  (inject_Z c / inject_Z n < (k # m))%Q <-> (Z.pos m * c < k * n)%Z.
Proof.
  intros Hn. destruct n as [|n|n]; try lia.
  unfold Qlt, Qdiv, Qmult, Qinv, inject_Z. cbn [Qnum Qden].
  rewrite Pos.mul_1_l, Z.mul_1_r. lia.
Qed.

(** X29. The verdict of [detectSteganography] is read from the
    least significant bits of the three colour channels alone: the sum
    counted is the number of odd colour values, the verdict is
    [suspicious] exactly when that number lies strictly between 40 % and
    60 % of the colour values, the alpha channel playing no part; so an
    image keeps its verdict when every least significant bit of its
    colours is flipped, and an image without any pixel is not
    suspicious. *)
Theorem detectSteganography_lsb (pixels : list (Z * Z * Z * Z)) :
  let result := detectSteganography (rgba pixels) in
  let odd := odd_channels pixels in
  let values := (3 * Z.of_nat (length pixels))%Z in
  lsbVariation result = odd /\
  stego_totalPixels result = Z.of_nat (length pixels) /\
  (suspicious result = true <-> (4 * values < 10 * odd < 6 * values)%Z) /\
  suspicious (detectSteganography (rgba (flip_bits pixels)))
  = suspicious result.
Proof.
  assert (Hstate : forall px : list (Z * Z * Z * Z),
            lsb_loop (length (rgba px)) (rgba px) 0 0%Z 0%Z
            = (odd_channels px, Z.of_nat (length px))).
  { intros px.
    pose proof (lsb_loop_rgba [] px (length (rgba px)) 0 0
                  ltac:(rewrite rgba_length; lia)) as H.
    exact H. }
  assert (Hverdict : forall px : list (Z * Z * Z * Z),
            suspicious (detectSteganography (rgba px)) = true
            <-> (4 * (3 * Z.of_nat (length px)) < 10 * odd_channels px
                 < 6 * (3 * Z.of_nat (length px)))%Z).
  { intros px. unfold detectSteganography. rewrite Hstate.
    cbn [suspicious fst snd].
    rewrite !andb_true_iff, negb_true_iff, Z.eqb_neq, !Qlt_bool_iff.
    destruct px as [|p px'] eqn:Hpx.
    - cbn. split; [intros [[H _] _]; now contradiction H | lia].
    - rewrite <- Hpx. assert (Hn : (0 < Z.of_nat (length px))%Z)
        by (subst px; cbn [length]; lia).
      clear Hpx. set (n := Z.of_nat (length px)) in *.
      set (c := odd_channels px).
      rewrite ratio_above, ratio_below by lia. lia. }
  intros result odd values. subst result odd values.
  split; [|split; [|split]].
  - unfold detectSteganography. rewrite Hstate. reflexivity.
  - unfold detectSteganography. rewrite Hstate. reflexivity.
  - apply Hverdict.
  - apply eq_true_iff_eq. rewrite !Hverdict, odd_channels_flip.
    unfold flip_bits. rewrite length_map. lia.
Qed.
